(** * Pairwise sequence alignment (Needleman-Wunsch / Smith-Waterman)

    A shallow embedding of [alignment/aligner.py]: the class [Aligner] with
    its matrix construction ([init_matrix], [cell], [align]) and its two
    tracebacks ([select_global_alignment], [select_local_alignment]).

    Modelling choices.
    - Scores ([match], [mismatch], [gap], the entries of the substitution
      table and of the matrix) are integers of [Z] with exact arithmetic.
      The code holds the three scores in [np.float32] and the matrix in
      float64: it computes the same numbers as long as they are integers
      that these formats hold exactly, and rounds beyond. [small_scores]
      bounds a run so that every number it forms is such an integer
      ([built_values_exact]); the theorems that depend on sums over a
      whole run are stated for such runs.
    - A Python exception is a value [Raise e]; a [while] loop takes a fuel
      argument and answers [OutOfFuel] when it is exhausted.
    - Indexing of strings and arrays follows Python: a negative index counts
      from the end, an index out of range raises [IndexError].
    - The substitution table (a pandas DataFrame read through [.loc]) is a
      partial function of two symbols; an absent pair raises [KeyError].
    - The numpy matrix is a list of rows, updated in place by index; the
      result dictionary is a finite map keyed by coordinates. *)

From Stdlib Require Import ZArith Ascii String List Lia Bool.
From stdpp Require Import base option list gmap.

Local Open Scope Z_scope.

(** ** Python primitives *)

Module Py.

Inductive exn : Set := KeyError | IndexError | ValueError | UnboundLocalError.

Inductive outcome (A : Type) : Type :=
| Ret (a : A)
| Raise (e : exn)
| OutOfFuel.

Arguments Ret {A} a.
Arguments Raise {A} e.
Arguments OutOfFuel {A}.

Definition bind {A B} (c : outcome A) (k : A -> outcome B) : outcome B :=
  match c with
  | Ret a => k a
  | Raise e => Raise e
  | OutOfFuel => OutOfFuel
  end.

Notation "x <- c1 ;; c2" := (bind c1 (fun x => c2))
  (at level 100, c1 at next level, right associativity).

(** [for x in l: s = f(s, x)] with exceptions propagating. *)
Fixpoint foldM {S A} (f : S -> A -> outcome S) (s : S) (l : list A) : outcome S :=
  match l with
  | [] => Ret s
  | x :: l' => s' <- f s x ;; foldM f s' l'
  end.

Fixpoint mapM {A B} (f : A -> outcome B) (l : list A) : outcome (list B) :=
  match l with
  | [] => Ret []
  | x :: l' => y <- f x ;; ys <- mapM f l' ;; Ret (y :: ys)
  end.

Definition len {A} (l : list A) : Z := Z.of_nat (length l).

(** [range(n)] and [range(a, b)]. *)
Definition range (n : Z) : list Z := seqZ 0 n.
Definition range2 (a b : Z) : list Z := seqZ a (b - a).

Definition enumerate {A} (l : list A) : list (Z * A) := zip (seqZ 0 (len l)) l.

(** A Python index [k] into a sequence of length [n], normalised. *)
Definition norm_index (n k : Z) : option nat :=
  let k' := if k <? 0 then k + n else k in
  if (0 <=? k') && (k' <? n) then Some (Z.to_nat k') else None.

(** [l[k]] *)
Definition getitem {A} (l : list A) (k : Z) : outcome A :=
  match norm_index (len l) k with
  | Some i => match l !! i with Some x => Ret x | None => Raise IndexError end
  | None => Raise IndexError
  end.

(** [l[k] = v] *)
Definition setitem {A} (l : list A) (k : Z) (v : A) : outcome (list A) :=
  match norm_index (len l) k with
  | Some i => Ret (<[i := v]> l)
  | None => Raise IndexError
  end.

(** [max(l)] of a list of numbers. *)
Definition max (l : list Z) : outcome Z :=
  match l with
  | [] => Raise ValueError
  | x :: l' => Ret (fold_left Z.max l' x)
  end.

(** [str.upper()] and [str.lower()] on ASCII letters. *)
Definition upper_char (c : ascii) : ascii :=
  let n := N_of_ascii c in
  if ((97 <=? n) && (n <=? 122))%N then ascii_of_N (n - 32) else c.

Definition lower_char (c : ascii) : ascii :=
  let n := N_of_ascii c in
  if ((65 <=? n) && (n <=? 90))%N then ascii_of_N (n + 32) else c.

Definition upper (s : list ascii) : list ascii := map upper_char s.
Definition lower (s : list ascii) : list ascii := map lower_char s.

End Py.

Import Py.

(** ** numpy arrays of dimension 2 *)

Abbreviation coord := (Z * Z)%type.
Abbreviation ndarray := (list (list Z)).

Module Np.

(** [np.zeros([r, c])] *)
Definition zeros (r c : Z) : ndarray :=
  replicate (Z.to_nat r) (replicate (Z.to_nat c) 0).

(** [m.shape] *)
Definition shape (m : ndarray) : coord :=
  (len m, match m with [] => 0 | row :: _ => len row end).

(** [m[(i, j)]] *)
Definition get (m : ndarray) (p : coord) : outcome Z :=
  row <- getitem m (fst p) ;; getitem row (snd p).

(** [m[(i, j)] = v] *)
Definition set (m : ndarray) (p : coord) (v : Z) : outcome ndarray :=
  row <- getitem m (fst p) ;;
  row' <- setitem row (snd p) v ;;
  setitem m (fst p) row'.

(** [m.max()] *)
Definition amax (m : ndarray) : outcome Z := Py.max (concat m).

(** The coordinates returned by [np.where(m == v)], paired up: the cells
    holding [v], row by row. *)
Definition where_eq (m : ndarray) (v : Z) : list coord :=
  flat_map (fun '(i, row) =>
    flat_map (fun '(j, x) => if x =? v then [(i, j)] else []) (enumerate row))
    (enumerate m).

End Np.

(** ** The class [Aligner] *)

(** [weights.loc[(a, b)]]: row label [a], column label [b]. *)
Definition DataFrame : Type := ascii -> ascii -> option Z.

Definition loc (w : DataFrame) (key : ascii * ascii) : outcome Z :=
  match w (fst key) (snd key) with
  | Some v => Ret v
  | None => Raise KeyError
  end.

(** The gap symbol, a minus sign. *)
Definition dash : ascii := "-"%char.

Definition ascii_in (c : ascii) (l : list ascii) : bool :=
  existsb (Ascii.eqb c) l.

(** [pd.DataFrame(np.zeros(...), index=seq, columns=seq)] for a set [seq]
    of symbols. *)
Definition zero_frame (alphabet : list ascii) : DataFrame :=
  fun a b => if ascii_in a alphabet && ascii_in b alphabet then Some 0 else None.

(** The fields set by [__init__]; the matrix, which [align] mutates, is
    passed along explicitly. *)
Record Aligner : Type := mkAligner {
  seq1 : list ascii;
  seq2 : list ascii;
  match_ : Z;
  gap : Z;
  mismatch : Z;
  local : bool;
  weights : DataFrame
}.

Abbreviation alignment := (list ascii * list ascii)%type.

Section Aligner.

(** [pd.read_csv(filename, ...)]: the table files are not part of the
    sources, the loader is a parameter. *)
Variable read_csv : list ascii -> outcome DataFrame.

Definition PAM250 : list ascii := list_ascii_of_string "alignment/PAM250.txt".
Definition BLOSUM62 : list ascii := list_ascii_of_string "alignment/BLOSUM62.txt".

(** [set_weights]: [None] stands for [weights=False]; the empty string is
    falsy as well. The local [filename] is bound only in the two branches. *)
Definition set_weights (s1 s2 : list ascii) (w : option (list ascii))
  : outcome DataFrame :=
  match w with
  | Some (c :: name) =>
      let filename :=
        if decide (lower (c :: name) = list_ascii_of_string "pam") then Some PAM250
        else if decide (lower (c :: name) = list_ascii_of_string "blosum")
             then Some BLOSUM62
             else None in
      match filename with
      | Some f => read_csv f
      | None => Raise UnboundLocalError
      end
  | _ => Ret (zero_frame (s1 ++ s2 ++ [dash]))
  end.

Definition check_non_negativity (self : Aligner) (result : Z) : Z :=
  if local self then Z.max 0 result else result.

Definition init_matrix (self : Aligner) : outcome ndarray :=
  let matrix := Np.zeros (len (seq1 self) + 1) (len (seq2 self) + 1) in
  if local self then Ret matrix
  else
    let seq := [dash :: seq1 self; dash :: seq2 self] in
    foldM (fun matrix '(i, axis) =>
      r <-
        foldM (fun '(matrix, counter) ax =>
          let position := if i =? 0 then (ax, 0) else (0, ax) in
          s <- getitem seq i ;;
          c <- getitem s ax ;;
          w <- loc (weights self) (dash, c) ;;
          matrix <- Np.set matrix position (counter + w) ;;
          w' <- loc (weights self) (dash, c) ;;
          Ret (matrix, counter + (gap self + w')))
          (matrix, 0) (range axis) ;;
      Ret (fst r))
      matrix (enumerate [fst (Np.shape matrix); snd (Np.shape matrix)]).

Definition get_neighbours (i j : Z) : list coord :=
  [(i - 1, j - 1); (i, j - 1); (i - 1, j)].

(** The list [available] built by [cell]. *)
Definition cell_available (self : Aligner) (matrix : ndarray) (i j : Z)
  : outcome (list Z) :=
  s1 <- getitem (seq1 self) (i - 1) ;;
  s2 <- getitem (seq2 self) (j - 1) ;;
  let idx := get_neighbours i j in
  let weights_ := [(s1, s2); (s1, dash); (dash, s2)] in
  mapM (fun '(index, weight) =>
    let first_index := fst index in
    let second_index := snd index in
    current_weight <- loc (weights self) weight ;;
    current_cell <- Np.get matrix index ;;
    let current_cell :=
      if (i - 1 =? first_index) && (j - 1 =? second_index) then
        if Ascii.eqb s1 s2 then current_cell + match_ self
        else current_cell + mismatch self
      else current_cell + gap self in
    Ret (current_cell + current_weight))
    (zip idx weights_).

Definition cell (self : Aligner) (matrix : ndarray) (i j : Z) : outcome Z :=
  available <- cell_available self matrix i j ;;
  Py.max available.

Definition align (self : Aligner) (matrix : ndarray) : outcome ndarray :=
  foldM (fun matrix i =>
    foldM (fun matrix j =>
      v <- cell self matrix i j ;;
      Np.set matrix (i, j) (check_non_negativity self v))
      matrix (range2 1 (len (seq2 self) + 1)))
    matrix (range2 1 (len (seq1 self) + 1)).

(** The body of [for index in idx] in both tracebacks: the first neighbour
    whose test succeeds, with the pair of symbols to append, or [None] when
    the loop ends without [break]. *)
Fixpoint try_neighbours (self : Aligner) (matrix : ndarray) (current : coord)
    (value : Z) (idx : list coord) : outcome (option (coord * (ascii * ascii))) :=
  match idx with
  | [] => Ret None
  | index :: idx' =>
      seq1_ <- getitem (seq1 self) (fst current - 1) ;;
      seq2_ <- getitem (seq2 self) (snd current - 1) ;;
      backtrace <- Np.get matrix index ;;
      if (fst index + 1 =? fst current) && (snd index + 1 =? snd current) then
        weight <- loc (weights self) (seq1_, seq2_) ;;
        if ((value - backtrace =? match_ self + weight) && Ascii.eqb seq1_ seq2_)
           || (value - backtrace =? mismatch self + weight)
        then Ret (Some (index, (seq1_, seq2_)))
        else try_neighbours self matrix current value idx'
      else if negb (fst current - fst index =? 0) then
        weight <- loc (weights self) (seq1_, dash) ;;
        if value - backtrace =? gap self + weight
        then Ret (Some (index, (seq1_, dash)))
        else try_neighbours self matrix current value idx'
      else
        weight <- loc (weights self) (dash, seq2_) ;;
        if value - backtrace =? gap self + weight
        then Ret (Some (index, (dash, seq2_)))
        else try_neighbours self matrix current value idx'
  end.

(** The neighbours kept by the filter on non-negative indices. *)
Definition kept_neighbours (current : coord) : list coord :=
  List.filter (fun i => (0 <=? fst i) && (0 <=? snd i))
    (get_neighbours (fst current) (snd current)).

(** One iteration of the [while] loop of a traceback (the two loops have
    the same body): the new [current], the alignment and [value]. *)
Definition traceback_step (self : Aligner) (matrix : ndarray) (current : coord)
    (al : alignment) : outcome (coord * alignment * Z) :=
  let idx := kept_neighbours current in
  value <- Np.get matrix current ;;
  r <- try_neighbours self matrix current value idx ;;
  match r with
  | Some (index, (a, b)) => Ret (index, (fst al ++ [a], snd al ++ [b]), value)
  | None => Ret (current, al, value)
  end.

(** [while np.any(current >= end)] *)
Fixpoint global_walk (fuel : nat) (self : Aligner) (matrix : ndarray)
    (current : coord) (al : alignment) : outcome alignment :=
  match fuel with
  | O => OutOfFuel
  | S fuel' =>
      if (1 <=? fst current) || (1 <=? snd current) then
        r <- traceback_step self matrix current al ;;
        global_walk fuel' self matrix (fst (fst r)) (snd (fst r))
      else Ret al
  end.

Definition select_global_alignment (fuel : nat) (self : Aligner)
    (matrix : ndarray) : outcome (gmap coord alignment) :=
  let current := (fst (Np.shape matrix) - 1, snd (Np.shape matrix) - 1) in
  al <- global_walk fuel self matrix current ([], []) ;;
  Ret {[ current := al ]}.

(** [while value != 0]; [value] is refreshed inside the body, before the
    move. The last component is ghost state: the cells at which the body
    ran, in order. *)
Fixpoint local_walk (fuel : nat) (self : Aligner) (matrix : ndarray)
    (current : coord) (value : Z) (al : alignment) (path : list coord)
    : outcome (alignment * list coord) :=
  match fuel with
  | O => OutOfFuel
  | S fuel' =>
      if negb (value =? 0) then
        r <- traceback_step self matrix current al ;;
        local_walk fuel' self matrix (fst (fst r)) (snd r) (snd (fst r))
          (path ++ [current])
      else Ret (al, path)
  end.

Definition select_local_alignment (fuel : nat) (self : Aligner)
    (matrix : ndarray) : outcome (gmap coord alignment) :=
  matrix_max <- Np.amax matrix ;;
  let indices := Np.where_eq matrix matrix_max in
  foldM (fun (alignment_ : gmap coord alignment) start =>
    value <- Np.get matrix start ;;
    r <- local_walk fuel self matrix start value ([], []) [] ;;
    Ret (<[start := fst r]> alignment_))
    ∅ indices.

(** [__init__] followed by [align()]: the filled matrix. The conversion
    [np.float32] of the three scores is the identity on the integers up to
    [score_bound]. *)
Definition Aligner_init (s1 s2 : list ascii) (m g mm : Z)
    (w : option (list ascii)) (loc_ : bool) : outcome (Aligner * ndarray) :=
  let s1 := upper s1 in
  let s2 := upper s2 in
  wt <- set_weights s1 s2 w ;;
  let self := mkAligner s1 s2 m g mm loc_ wt in
  matrix <- init_matrix self ;;
  Ret (self, matrix).

(** [init_matrix] (called by [__init__]) followed by [align()]. *)
Definition build (self : Aligner) : outcome ndarray :=
  matrix <- init_matrix self ;; align self matrix.

(** [run]: construction, [align()], then the traceback of the mode. *)
Definition run (fuel : nat) (s1 s2 : list ascii) (m g mm : Z)
    (w : option (list ascii)) (loc_ : bool)
    : outcome (ndarray * gmap coord alignment) :=
  a <- Aligner_init s1 s2 m g mm w loc_ ;;
  matrix <- align (fst a) (snd a) ;;
  r <- (if loc_ then select_local_alignment fuel (fst a) matrix
        else select_global_alignment fuel (fst a) matrix) ;;
  Ret (matrix, r).

End Aligner.

(** The value of a cell, 0 where the index is out of range. *)
Definition cellv (m : ndarray) (p : coord) : Z :=
  match Np.get m p with Ret v => v | _ => 0 end.

Definition strictly_decreasing (l : list Z) : Prop :=
  forall k x y, l !! k = Some x -> l !! S k = Some y -> y < x.

(** The values at the cells of a path, zero cells left out. *)
Definition visited_values (m : ndarray) (path : list coord) : list Z :=
  List.filter (fun v => negb (v =? 0)) (map (cellv m) path).

(** ** The recurrence as the specification words it *)

Module Spec.

Definition score_pair (self : Aligner) (a b : ascii) : outcome Z :=
  w <- loc (weights self) (a, b) ;;
  Ret ((if Ascii.eqb a b then match_ self else mismatch self) + w).

Definition score_gap (self : Aligner) (x : ascii) : outcome Z :=
  w <- loc (weights self) (x, dash) ;;
  Ret (gap self + w).

(** The candidates diagonal, left, up of cell [(i, j)]. *)
Definition candidates (self : Aligner) (matrix : ndarray) (i j : Z)
  : outcome (list Z) :=
  a <- getitem (seq1 self) (i - 1) ;;
  b <- getitem (seq2 self) (j - 1) ;;
  md <- Np.get matrix (i - 1, j - 1) ;;
  sd <- score_pair self a b ;;
  ml <- Np.get matrix (i, j - 1) ;;
  sl <- score_gap self b ;;
  mu <- Np.get matrix (i - 1, j) ;;
  su <- score_gap self a ;;
  Ret [md + sd; ml + sl; mu + su].

End Spec.

(** ** Concrete runs *)

Definition str (s : string) : list ascii := list_ascii_of_string s.

(** A symmetric table in which aligning [C] with a gap costs 5 more than
    aligning any other symbol with a gap. *)
Definition gap_frame : DataFrame :=
  fun a b =>
    Some (if (Ascii.eqb a dash && Ascii.eqb b "C") || (Ascii.eqb a "C" && Ascii.eqb b dash)
          then -5 else 0).

(** A table in the layout of the published PAM and BLOSUM files, whose
    last row and column score a symbol against the gap: 1 for the pair of
    two gaps, -8 for a symbol against a gap. *)
Definition star_frame : DataFrame :=
  fun a b =>
    Some (if Ascii.eqb a dash && Ascii.eqb b dash then 1
          else if Ascii.eqb a dash || Ascii.eqb b dash then -8 else 0).

Definition aligner_AC : Aligner :=
  mkAligner (str "A") (str "C") 1 (-1) (-10) false gap_frame.

Definition aligner_star : Aligner :=
  mkAligner (str "A") (str "C") 1 (-1) (-1) false star_frame.

Definition aligner_AA : Aligner :=
  mkAligner (str "A") (str "A") (-5) (-1) (-2) false
    (zero_frame (str "A" ++ str "A" ++ [dash])).

Definition aligner_empty : Aligner :=
  mkAligner (str "") (str "AC") 1 (-1) (-1) false
    (zero_frame (str "" ++ str "AC" ++ [dash])).

Definition aligner_gap0 : Aligner :=
  mkAligner (str "A") (str "CA") 1 0 (-1) true
    (zero_frame (str "A" ++ str "CA" ++ [dash])).

Definition aligner_textbook : Aligner :=
  mkAligner (str "TGTTACGG") (str "GGTTGACTA") 3 (-2) (-3) true
    (zero_frame (str "TGTTACGG" ++ str "GGTTGACTA" ++ [dash])).

(** ** Predicates and auxiliary functions of the proofs *)

(** The border as C2 states it: 0 at the origin, then one gap score more
    per cell along row 0 and along column 0. *)
Definition border_from_zero (self : Aligner) (m : ndarray) : Prop :=
  cellv m (0, 0) = 0 /\
  (forall k, 1 <= k <= len (seq2 self) ->
     cellv m (0, k) = cellv m (0, k - 1)
                      + (gap self + default 0 (weights self dash
                           (default dash (seq2 self !! Z.to_nat (k - 1)))))) /\
  (forall k, 1 <= k <= len (seq1 self) ->
     cellv m (k, 0) = cellv m (k - 1, 0)
                      + (gap self + default 0 (weights self dash
                           (default dash (seq1 self !! Z.to_nat (k - 1)))))).

(** The claim of C7 on a filled matrix. *)
Definition local_values_decrease (self : Aligner) (m : ndarray) : Prop :=
  forall fuel start v al path,
    Np.get m start = Ret v ->
    local_walk fuel self m start v ([], []) [] = Ret (al, path) ->
    strictly_decreasing (visited_values m path).

Definition textbook_matrix : ndarray :=
  [[0; 0; 0; 0; 0; 0; 0; 0; 0; 0]; [0; 0; 0; 3; 3; 1; 0; 0; 3; 1];
   [0; 3; 3; 1; 1; 6; 4; 2; 1; 0]; [0; 1; 1; 6; 4; 4; 3; 1; 5; 3];
   [0; 0; 0; 4; 9; 7; 5; 3; 4; 2]; [0; 0; 0; 2; 7; 6; 10; 8; 6; 7];
   [0; 0; 0; 0; 5; 4; 8; 13; 11; 9]; [0; 3; 3; 1; 3; 8; 6; 11; 10; 8];
   [0; 3; 6; 4; 2; 6; 5; 9; 8; 7]].

Definition shaped (r c : Z) (m : ndarray) : Prop :=
  len m = r /\ Forall (fun row => len row = c) m.

Definition in_range (r c : Z) (p : coord) : Prop :=
  (0 <= fst p < r) /\ (0 <= snd p < c).

(** The symbols the run looks up: those of the two sequences and the gap. *)
Definition symbols (self : Aligner) : list ascii :=
  dash :: seq1 self ++ seq2 self.

(** The table has an entry for every pair of symbols of the run. *)
Definition covers (self : Aligner) : Prop :=
  forall a b, a ∈ symbols self -> b ∈ symbols self -> is_Some (weights self a b).

Definition wz (self : Aligner) (a b : ascii) : Z := default 0 (weights self a b).

Definition sym1 (self : Aligner) (i : Z) : ascii :=
  default dash (seq1 self !! Z.to_nat (i - 1)).

Definition sym2 (self : Aligner) (j : Z) : ascii :=
  default dash (seq2 self !! Z.to_nat (j - 1)).

(** The maximum [cell] returns at [(i, j)], read off a matrix. *)
Definition rec_value (self : Aligner) (m : ndarray) (i j : Z) : Z :=
  let s1 := sym1 self i in
  let s2 := sym2 self j in
  Z.max
    (Z.max
       (cellv m (i - 1, j - 1)
        + (if Ascii.eqb s1 s2 then match_ self else mismatch self) + wz self s1 s2)
       (cellv m (i, j - 1) + gap self + wz self s1 dash))
    (cellv m (i - 1, j) + gap self + wz self dash s2).

Definition rows (self : Aligner) : Z := len (seq1 self) + 1.

Definition cols (self : Aligner) : Z := len (seq2 self) + 1.

(** The cells filled once row [i] has been filled up to column [j - 1]. *)
Definition filled_upto (self : Aligner) (m : ndarray) (i j : Z) : Prop :=
  forall i' j', 1 <= i' -> 1 <= j' <= len (seq2 self) ->
    i' < i \/ (i' = i /\ j' < j) ->
    cellv m (i', j') = check_non_negativity self (rec_value self m i' j').

Definition fill_inv (self : Aligner) (m0 m : ndarray) (i j : Z) : Prop :=
  shaped (rows self) (cols self) m /\
  (forall q, in_range (rows self) (cols self) q -> fst q = 0 \/ snd q = 0 ->
     cellv m q = cellv m0 q) /\
  filled_upto self m i j /\
  (local self = true -> Forall (Forall (fun v => 0 <= v)) m).

Definition sym_at (s : list ascii) (k : Z) : ascii :=
  match getitem s k with Ret x => x | _ => dash end.

(** The scores under which the traceback moves from [current] to the
    neighbour [index]: match or mismatch score for the diagonal neighbour,
    gap score of the symbol of [seq1] for the upper one, of the symbol of
    [seq2] for the left one. *)
Definition move_scores (self : Aligner) (current index : coord) : list Z :=
  let s1 := sym_at (seq1 self) (fst current - 1) in
  let s2 := sym_at (seq2 self) (snd current - 1) in
  if (fst index + 1 =? fst current) && (snd index + 1 =? snd current) then
    (if Ascii.eqb s1 s2 then [match_ self + wz self s1 s2] else [])
    ++ [mismatch self + wz self s1 s2]
  else if negb (fst current - fst index =? 0) then [gap self + wz self s1 dash]
  else [gap self + wz self dash s2].

(** A step from [c] to [c']: [c'] is a neighbour the filter keeps, and the
    values of the two cells differ by a score of that move. *)
Definition scored_step (self : Aligner) (m : ndarray) (c c' : coord) : Prop :=
  c' ∈ kept_neighbours c /\
  exists s, s ∈ move_scores self c c' /\ cellv m c - cellv m c' = s /\
            (cellv m c' < cellv m c <-> 0 < s).

Definition steps_ok (self : Aligner) (m : ndarray) (l : list coord) : Prop :=
  forall k c c', l !! k = Some c -> l !! S k = Some c' -> scored_step self m c c'.

(** The table has the gap row for every symbol of the run. *)
Definition covers_gap_row (self : Aligner) : Prop :=
  forall x, x ∈ symbols self -> is_Some (weights self dash x).

Definition gap_total (self : Aligner) (l : list ascii) : Z :=
  foldr (fun x acc => (gap self + wz self dash x) + acc) 0 l.

(** The value of [counter] when position [k] of the axis is reached, and
    the value written there, for the sequence [s] with its leading gap. *)
Definition counter_at (self : Aligner) (s : list ascii) (k : Z) : Z :=
  gap_total self (take (Z.to_nat k) s).

Definition border_value (self : Aligner) (s : list ascii) (k : Z) : Z :=
  counter_at self s k + wz self dash (default dash (s !! Z.to_nat k)).

(** One pass of [init_matrix] along an axis: [pos ax] is the cell written
    for position [ax] of the sequence [s]. *)
Definition border_pass (self : Aligner) (s : list ascii) (pos : Z -> coord)
    (st : ndarray * Z) (ax : Z) : outcome (ndarray * Z) :=
  c <- getitem s ax ;;
  w <- loc (weights self) (dash, c) ;;
  matrix <- Np.set (fst st) (pos ax) (snd st + w) ;;
  w' <- loc (weights self) (dash, c) ;;
  Ret (matrix, snd st + (gap self + w')).

(** Fill and traceback read the gap score of a symbol in different ways
    (row or column of the table, symbol of the one or the other sequence);
    the walk is followed on tables where these agree. *)
Definition gap_uniform (self : Aligner) : Prop :=
  forall a b, a ∈ seq1 self -> b ∈ seq2 self -> wz self a dash = wz self dash b.

(** The alignment the local walk from [c] appends to the result. *)
Definition walk_alignment (fuel : nat) (self : Aligner) (m : ndarray) (c : coord)
  : alignment :=
  match (v <- Np.get m c ;; local_walk fuel self m c v ([], []) []) with
  | Ret r => fst r
  | _ => ([], [])
  end.

(** ** Alignments as the tracebacks build them *)

(** A row as [print_alignment] writes it: [alignment[::-1]]. *)
Definition printed (row : list ascii) : list ascii := rev row.

(** A row without its gap symbols. *)
Definition strip (row : list ascii) : list ascii :=
  List.filter (fun c => negb (Ascii.eqb c dash)) row.

(** The columns of an alignment, in the order the traceback appends them
    (from the end of the sequences to their start). *)
Definition columns (al : alignment) : list (ascii * ascii) := zip (fst al) (snd al).

(** The moves of a traceback from [c]: each column is the pair appended by
    the first neighbour of the current cell that passes its test, and the
    walk goes on from that neighbour, down to [c_end]. *)
Fixpoint chain (self : Aligner) (m : ndarray) (c : coord)
    (cs : list (ascii * ascii)) (c_end : coord) : Prop :=
  match cs with
  | [] => c = c_end
  | col :: cs' =>
      exists index,
        try_neighbours self m c (cellv m c) (kept_neighbours c)
          = Ret (Some (index, col)) /\
        chain self m index cs' c_end
  end.

(** The table scores a gap alike, [g0], for every symbol of the run. *)
Definition gap_constant (self : Aligner) (g0 : Z) : Prop :=
  forall x, x ∈ seq1 self ++ seq2 self ->
    wz self x dash = g0 /\ wz self dash x = g0.

(** The score of a column: a gap against a symbol, a symbol against a gap,
    or two symbols. *)
Definition column_score (self : Aligner) (col : ascii * ascii) : Z :=
  if Ascii.eqb (fst col) dash then gap self + wz self dash (snd col)
  else if Ascii.eqb (snd col) dash then gap self + wz self (fst col) dash
  else (if Ascii.eqb (fst col) (snd col) then match_ self else mismatch self)
       + wz self (fst col) (snd col).

Definition alignment_score (self : Aligner) (cs : list (ascii * ascii)) : Z :=
  foldr (fun col acc => column_score self col + acc) 0 cs.

(** The columns [cs] (last column first) align [s1] with [s2]: without the
    gaps the rows read [s1] and [s2], and no column pairs two gaps. *)
Definition aligns (cs : list (ascii * ascii)) (s1 s2 : list ascii) : Prop :=
  strip (rev (map fst cs)) = s1 /\ strip (rev (map snd cs)) = s2 /\
  Forall (fun col => col <> (dash, dash)) cs.

(** The matrix of a global run: the border recurrences of [init_matrix] and,
    inside, the maximum of [cell]. *)
Definition global_matrix (self : Aligner) (m : ndarray) : Prop :=
  shaped (rows self) (cols self) m /\
  (forall k, 1 <= k <= len (seq2 self) ->
     cellv m (0, k) = cellv m (0, k - 1) + (gap self + wz self dash (sym2 self k))) /\
  (forall k, 1 <= k <= len (seq1 self) ->
     cellv m (k, 0) = cellv m (k - 1, 0) + (gap self + wz self dash (sym1 self k))) /\
  (forall i j, 1 <= i <= len (seq1 self) -> 1 <= j <= len (seq2 self) ->
     cellv m (i, j) = rec_value self m i j).

Definition aligner_classic : Aligner :=
  mkAligner (str "GCATGCU") (str "GATTACA") 1 (-1) (-1) false
    (zero_frame (str "GCATGCU" ++ str "GATTACA" ++ [dash])).

(** [self'] is the run of [self] with the two sequences exchanged: same
    scores and mode, and a table with the same entries. *)
Definition exchanged (self self' : Aligner) : Prop :=
  seq1 self' = seq2 self /\ seq2 self' = seq1 self /\
  match_ self' = match_ self /\ gap self' = gap self /\
  mismatch self' = mismatch self /\ local self' = local self /\
  forall a b, weights self' a b = weights self a b.

Definition aligner_classic_swapped : Aligner :=
  mkAligner (str "GATTACA") (str "GCATGCU") 1 (-1) (-1) false
    (zero_frame (str "GATTACA" ++ str "GCATGCU" ++ [dash])).

(** What [init_matrix] and [align()] leave in a matrix, in either mode:
    the origin, the two border recurrences (zeros in local mode) and the
    clamped maximum of [cell] inside. *)
Definition built_matrix (self : Aligner) (m : ndarray) : Prop :=
  shaped (rows self) (cols self) m /\
  cellv m (0, 0) = (if local self then 0 else wz self dash dash) /\
  (forall k, 1 <= k <= len (seq2 self) ->
     cellv m (0, k) = if local self then 0
                      else cellv m (0, k - 1) + (gap self + wz self dash (sym2 self k))) /\
  (forall k, 1 <= k <= len (seq1 self) ->
     cellv m (k, 0) = if local self then 0
                      else cellv m (k - 1, 0) + (gap self + wz self dash (sym1 self k))) /\
  (forall i j, 1 <= i <= len (seq1 self) -> 1 <= j <= len (seq2 self) ->
     cellv m (i, j) = check_non_negativity self (rec_value self m i j)).

(** ** The range in which the arithmetic of the code is exact *)

(** [__init__] stores the three scores as [np.float32] and the matrix is an
    array of float64; a sum of a float32 and a table entry is formed in
    float64 or, at the narrowest, in float32. Every integer of magnitude up
    to 2^24 is a float32 and every integer of magnitude up to 2^53 a
    float64, and a sum or difference of such integers that stays in the
    range is computed without rounding. [score_bound] is 2^23, so that the
    sum of a score and a table entry is exact even in float32;
    [length_bound] is 2^20; [exact_bound] is 2^53. *)
Definition score_bound : Z := 8388608.

Definition length_bound : Z := 1048576.

Definition exact_bound : Z := 9007199254740992.

(** The scores, the table entries and the lengths of a run are small
    enough for every number the run forms to stay below [exact_bound]: on
    such runs the integers of this model are the floats of the code. *)
Definition small_scores (self : Aligner) : Prop :=
  Z.abs (match_ self) <= score_bound /\
  Z.abs (gap self) <= score_bound /\
  Z.abs (mismatch self) <= score_bound /\
  (forall a b v, weights self a b = Some v -> Z.abs v <= score_bound) /\
  len (seq1 self) + len (seq2 self) <= length_bound.

(** A local run with the table [gap_frame]. *)
Definition aligner_AG : Aligner :=
  mkAligner (str "AG") (str "ACG") 5 (-1) (-10) true gap_frame.

Definition matrix_AG : ndarray := [[0; 0; 0; 0]; [0; 5; 4; 3]; [0; 4; 3; 9]].

(** * Properties *)

(** ** Loops that cannot progress *)

Lemma global_walk_stuck fuel self m current al v :
  (1 <=? fst current) || (1 <=? snd current) = true ->
  traceback_step self m current al = Ret (current, al, v) ->
  global_walk fuel self m current al = OutOfFuel.
Proof.
  intros Hc Hs. induction fuel as [|fuel IH]; simpl; [reflexivity|].
  rewrite Hc, Hs. simpl. exact IH.
Qed.

(** ** Evaluations on concrete inputs *)

(** C1. With a table whose gap scores depend on the symbol, [cell] adds to
    the left neighbour the gap score of the symbol of [seq1] and to the
    upper neighbour that of the symbol of [seq2]: on [seq1 = A], [seq2 = C]
    the list [available] of cell (1,1) is [-10; -2; -12] and -2 is stored,
    where the recurrence of the specification gives [-10; -7; -7]; the
    traceback tests the left move with the symbol of [seq2], as the
    specification does, and finds no move out of (1,1). *)
Theorem cell_swaps_gap_terms :
  init_matrix aligner_AC = Ret [[0; -6]; [-1; 0]] /\
  cell_available aligner_AC [[0; -6]; [-1; 0]] 1 1 = Ret [-10; -2; -12] /\
  Spec.candidates aligner_AC [[0; -6]; [-1; 0]] 1 1 = Ret [-10; -7; -7] /\
  build aligner_AC = Ret [[0; -6]; [-1; -2]] /\
  try_neighbours aligner_AC [[0; -6]; [-1; -2]] (1, 1) (-2)
    (kept_neighbours (1, 1)) = Ret None.
Proof. repeat split; vm_compute; reflexivity. Qed.

(** C3. With [match = -5], [mismatch = -2], [gap = -1] and
    [seq1 = seq2 = A], cell (1,1) holds -2. The diagonal move would score
    [score_pair(A, A) = -5], which differs from [-2 - 0]; the left move
    scores [-1 = -2 - (-1)]. The traceback takes the diagonal all the same,
    through the mismatch test, and emits the pair (A, A). *)
Theorem diagonal_taken_on_mismatch_score :
  build aligner_AA = Ret [[0; -1]; [-1; -2]] /\
  Spec.score_pair aligner_AA "A" "A" = Ret (-5) /\
  cellv [[0; -1]; [-1; -2]] (1, 1) - cellv [[0; -1]; [-1; -2]] (0, 0) = -2 /\
  Spec.score_gap aligner_AA "A" = Ret (-1) /\
  cellv [[0; -1]; [-1; -2]] (1, 1) - cellv [[0; -1]; [-1; -2]] (1, 0) = -1 /\
  traceback_step aligner_AA [[0; -1]; [-1; -2]] (1, 1) ([], []) =
    Ret ((0, 0), (["A"%char], ["A"%char]), -2).
Proof. repeat split; vm_compute; reflexivity. Qed.

(** C6. For [seq1] empty and [seq2 = AC] the matrix is the single row
    [0; -1; -2], and the global traceback raises [IndexError] in its first
    iteration, at [self.seq1[current[0] - 1]]. *)
Theorem empty_seq1_traceback_raises :
  build aligner_empty = Ret [[0; -1; -2]] /\
  forall fuel,
    select_global_alignment (S fuel) aligner_empty [[0; -1; -2]] = Raise IndexError.
Proof. split; [vm_compute; reflexivity|]. intros fuel. reflexivity. Qed.

(** C8. Two inputs on which the global walk does not reach (0,0): with the
    table [gap_frame] no neighbour of cell (1,1) passes its test, so the
    loop repeats the same state for ever (every fuel is exhausted); with an
    empty [seq1] the first iteration raises [IndexError]. *)
Theorem global_walk_can_fail :
  build aligner_AC = Ret [[0; -6]; [-1; -2]] /\
  (forall fuel,
     select_global_alignment fuel aligner_AC [[0; -6]; [-1; -2]] = OutOfFuel) /\
  build aligner_empty = Ret [[0; -1; -2]] /\
  (forall fuel,
     select_global_alignment (S fuel) aligner_empty [[0; -1; -2]]
     = Raise IndexError).
Proof.
  split; [vm_compute; reflexivity|]. split.
  - intros fuel. unfold select_global_alignment.
    rewrite (global_walk_stuck fuel aligner_AC _ (1, 1) ([], []) (-2));
      [reflexivity|reflexivity|vm_compute; reflexivity].
  - split; [vm_compute; reflexivity|]. intros fuel. reflexivity.
Qed.

(** C10. With [gap = 0], [seq1 = A], [seq2 = CA] in local mode, row 0 and
    column 0 are 0 after [align()], yet the walk from (1,2), having reached
    the border cell (0,1), runs the loop body there, moves on to (0,0) and
    appends the pair (-, C). *)
Theorem local_walk_leaves_border_cell :
  build aligner_gap0 = Ret [[0; 0; 0]; [0; 0; 1]] /\
  traceback_step aligner_gap0 [[0; 0; 0]; [0; 0; 1]] (1, 2) ([], []) =
    Ret ((0, 1), (["A"%char], ["A"%char]), 1) /\
  traceback_step aligner_gap0 [[0; 0; 0]; [0; 0; 1]] (0, 1)
    (["A"%char], ["A"%char]) =
    Ret ((0, 0), (["A"%char; dash], ["A"%char; "C"%char]), 0) /\
  forall fuel,
    local_walk (S (S (S fuel))) aligner_gap0 [[0; 0; 0]; [0; 0; 1]] (1, 2) 1
      ([], []) [] =
    Ret ((["A"%char; dash], ["A"%char; "C"%char]), [(1, 2); (0, 1)]).
Proof. repeat split; try (vm_compute; reflexivity). Qed.

(** ** Counterexamples *)

(** C2 as stated fails: with a table whose entry for the pair of two gaps
    is 1, the built matrix has 1 in cell (0,0). *)
Lemma origin_not_zero :
  init_matrix aligner_star = Ret [[1; -8]; [-8; 0]] /\
  ~ border_from_zero aligner_star [[1; -8]; [-8; 0]].
Proof.
  split; [vm_compute; reflexivity|]. intros [H _]. vm_compute in H. discriminate.
Qed.

(** C7 as stated fails on the textbook pair: the walk from the maximum 13
    visits the values 13, 10, 7, 9, 6, 3: the step from 7 to 9 undoes a
    gap of score -2. *)
Lemma local_path_rises :
  build aligner_textbook = Ret textbook_matrix /\
  ~ local_values_decrease aligner_textbook textbook_matrix.
Proof.
  split; [vm_compute; reflexivity|]. intros H.
  specialize (H 50%nat (6, 7) 13
    (str "CA-TTG", str "CAGTTG")
    [(6, 7); (5, 6); (4, 5); (4, 4); (3, 3); (2, 2); (1, 1)]).
  assert (Hd : strictly_decreasing [13; 10; 7; 9; 6; 3]).
  { apply H; vm_compute; reflexivity. }
  specialize (Hd 2%nat 7 9 eq_refl eq_refl). lia.
Qed.

(** ** Indexing lemmas *)

Lemma norm_index_ok n k : 0 <= k < n -> norm_index n k = Some (Z.to_nat k).
Proof.
  intros H. unfold norm_index.
  destruct (Z.ltb_spec k 0); [lia|].
  destruct (Z.leb_spec 0 k); [|lia].
  destruct (Z.ltb_spec k n); [|lia]. reflexivity.
Qed.

Lemma getitem_nonneg {A} (l : list A) k :
  0 <= k ->
  getitem l k =
    match l !! Z.to_nat k with Some x => Ret x | None => Raise IndexError end.
Proof.
  intros Hk. unfold getitem, norm_index.
  destruct (Z.ltb_spec k 0); [lia|].
  destruct (Z.leb_spec 0 k); [|lia].
  destruct (Z.ltb_spec k (len l)) as [Hlt|Hge]; simpl; [reflexivity|].
  rewrite (lookup_ge_None_2 l); [reflexivity|]. unfold len in Hge. lia.
Qed.

Lemma getitem_ok {A} (l : list A) k x :
  0 <= k -> l !! Z.to_nat k = Some x -> getitem l k = Ret x.
Proof.
  intros Hk Hl. unfold getitem.
  rewrite norm_index_ok.
  - rewrite Hl. reflexivity.
  - apply lookup_lt_Some in Hl. unfold len. lia.
Qed.

Lemma getitem_in_range {A} (l : list A) k :
  0 <= k < len l -> exists x, getitem l k = Ret x /\ l !! Z.to_nat k = Some x.
Proof.
  intros Hk. destruct (lookup_lt_is_Some_2 l (Z.to_nat k)) as [x Hx].
  { unfold len in Hk. lia. }
  exists x. split; [apply getitem_ok; [lia|exact Hx]|exact Hx].
Qed.

Lemma setitem_ok {A} (l : list A) k v :
  0 <= k < len l -> setitem l k v = Ret (<[Z.to_nat k := v]> l).
Proof. intros Hk. unfold setitem. rewrite norm_index_ok by exact Hk. reflexivity. Qed.

(** ** Matrices of a given shape *)

Lemma zeros_shaped r c : 0 <= r -> 0 <= c -> shaped r c (Np.zeros r c).
Proof.
  intros Hr Hc. unfold shaped, Np.zeros, len. split.
  - rewrite length_replicate. lia.
  - apply Forall_replicate. rewrite length_replicate. lia.
Qed.

Lemma cellv_lookup m p :
  0 <= fst p -> 0 <= snd p ->
  cellv m p =
    match m !! Z.to_nat (fst p) with
    | Some row => match row !! Z.to_nat (snd p) with Some v => v | None => 0 end
    | None => 0
    end.
Proof.
  intros Hi Hj. unfold cellv, Np.get.
  rewrite getitem_nonneg by exact Hi.
  destruct (m !! Z.to_nat (fst p)) as [row|]; simpl; [|reflexivity].
  rewrite getitem_nonneg by exact Hj.
  destruct (row !! Z.to_nat (snd p)); reflexivity.
Qed.

Lemma shaped_lookup r c m p :
  shaped r c m -> in_range r c p ->
  exists row v, m !! Z.to_nat (fst p) = Some row /\ len row = c /\
                row !! Z.to_nat (snd p) = Some v /\ cellv m p = v.
Proof.
  intros [Hr Hc] [Hi Hj].
  destruct (lookup_lt_is_Some_2 m (Z.to_nat (fst p))) as [row Hrow].
  { unfold len in Hr. lia. }
  assert (Hlen : len row = c).
  { rewrite Forall_lookup in Hc. exact (Hc _ _ Hrow). }
  destruct (lookup_lt_is_Some_2 row (Z.to_nat (snd p))) as [v Hv].
  { unfold len in Hlen. lia. }
  exists row, v. repeat split; try assumption.
  rewrite cellv_lookup by lia. rewrite Hrow, Hv. reflexivity.
Qed.

Lemma get_ok r c m p :
  shaped r c m -> in_range r c p -> Np.get m p = Ret (cellv m p).
Proof.
  intros Hs Hp. destruct (shaped_lookup r c m p Hs Hp) as (row & v & Hrow & Hlen & Hv & Hc).
  destruct Hp as [Hi Hj]. unfold Np.get.
  rewrite (getitem_ok m (fst p) row) by (try lia; exact Hrow). simpl.
  rewrite (getitem_ok row (snd p) v) by (try lia; exact Hv). congruence.
Qed.

Lemma set_ok r c m p v :
  shaped r c m -> in_range r c p ->
  exists m', Np.set m p v = Ret m' /\ shaped r c m' /\
    (forall q, in_range r c q ->
       cellv m' q = if decide (q = p) then v else cellv m q) /\
    (forall P : Z -> Prop, P v -> Forall (Forall P) m -> Forall (Forall P) m').
Proof.
  intros Hs Hp.
  destruct (shaped_lookup r c m p Hs Hp) as (row & v0 & Hrow & Hlen & Hv & _).
  destruct Hs as [Hr Hc]. destruct Hp as [Hi Hj].
  exists (<[Z.to_nat (fst p) := <[Z.to_nat (snd p) := v]> row]> m).
  split; [|split; [|split]].
  - unfold Np.set. rewrite (getitem_ok m (fst p) row) by (try lia; exact Hrow). simpl.
    rewrite setitem_ok by lia. simpl. rewrite setitem_ok by lia. reflexivity.
  - split.
    + unfold len. rewrite length_insert. exact Hr.
    + apply Forall_insert; [exact Hc|]. unfold len. rewrite length_insert. exact Hlen.
  - intros q [Hqi Hqj]. rewrite !cellv_lookup by lia.
    destruct (decide (q = p)) as [->|Hne].
    + rewrite list_lookup_insert_eq by (unfold len in Hr; lia).
      rewrite list_lookup_insert_eq by (unfold len in Hlen; lia). reflexivity.
    + destruct (decide (Z.to_nat (fst q) = Z.to_nat (fst p))) as [Heq|Hneq].
      * rewrite Heq. rewrite list_lookup_insert_eq by (unfold len in Hr; lia).
        rewrite Hrow. rewrite list_lookup_insert_ne; [reflexivity|].
        intros Heq'. apply Hne. destruct q, p; simpl in *. f_equal; lia.
      * rewrite list_lookup_insert_ne by congruence. reflexivity.
  - intros P HP HF. apply Forall_insert; [exact HF|].
    apply Forall_insert; [|exact HP].
    rewrite Forall_lookup in HF. exact (HF _ _ Hrow).
Qed.

(** ** Loop invariants *)

Lemma bind_Ret {A B} (c : outcome A) (k : A -> outcome B) b :
  bind c k = Ret b -> exists a, c = Ret a /\ k a = Ret b.
Proof. destruct c; simpl; intros H; try discriminate. eauto. Qed.

Lemma foldM_inv_ret {S A} (I : S -> Prop) (f : S -> A -> outcome S) l s s' :
  I s -> (forall x s s1, I s -> f s x = Ret s1 -> I s1) ->
  foldM f s l = Ret s' -> I s'.
Proof.
  intros HI Hstep. revert s HI. induction l as [|x l IH]; intros s HI; simpl.
  - intros H. inversion H; subst. exact HI.
  - intros H. apply bind_Ret in H as (s1 & Hf & H). apply (IH s1); [|exact H].
    exact (Hstep x s s1 HI Hf).
Qed.

Lemma foldM_ext {S A} (f g : S -> A -> outcome S) l s :
  (forall s x, f s x = g s x) -> foldM f s l = foldM g s l.
Proof.
  intros H. revert s. induction l as [|x l IH]; intros s; simpl; [reflexivity|].
  rewrite H. destruct (g s x); simpl; try reflexivity. apply IH.
Qed.

Lemma foldM_seqZ_inv {S} (I : Z -> S -> Prop) (f : S -> Z -> outcome S) a n s :
  0 <= n -> I a s ->
  (forall x s, a <= x < a + n -> I x s -> exists s', f s x = Ret s' /\ I (x + 1) s') ->
  exists s', foldM f s (seqZ a n) = Ret s' /\ I (a + n) s'.
Proof.
  intros Hn. remember (Z.to_nat n) as k eqn:Hk.
  revert a n s Hn Hk. induction k as [|k IH]; intros a n s Hn Hk HI Hstep.
  - assert (n = 0) by lia. subst n. rewrite seqZ_nil by lia. simpl.
    exists s. split; [reflexivity|]. replace (a + 0) with a by lia. exact HI.
  - rewrite seqZ_cons by lia. simpl.
    destruct (Hstep a s) as (s1 & Hf & HI1); [lia|exact HI|].
    rewrite Hf. simpl.
    destruct (IH (Z.succ a) (Z.pred n) s1) as (s2 & Hf2 & HI2); try lia.
    + replace (Z.succ a) with (a + 1) by lia. exact HI1.
    + intros x s' Hx. apply Hstep. lia.
    + exists s2. split; [exact Hf2|].
      replace (a + n) with (Z.succ a + Z.pred n) by lia. exact HI2.
Qed.

(** ** The fill *)

Lemma loc_covered self a b :
  covers self -> a ∈ symbols self -> b ∈ symbols self ->
  loc (weights self) (a, b) = Ret (wz self a b).
Proof.
  intros Hc Ha Hb. unfold loc, wz. simpl.
  destruct (Hc a b Ha Hb) as [w ->]. reflexivity.
Qed.

Lemma sym1_lookup self i :
  1 <= i <= len (seq1 self) ->
  seq1 self !! Z.to_nat (i - 1) = Some (sym1 self i) /\ sym1 self i ∈ symbols self.
Proof.
  intros Hi. unfold sym1.
  destruct (lookup_lt_is_Some_2 (seq1 self) (Z.to_nat (i - 1))) as [x Hx].
  { unfold len in Hi. lia. }
  rewrite Hx. simpl. split; [reflexivity|].
  unfold symbols. apply list_elem_of_further, elem_of_app. left.
  eapply list_elem_of_lookup_2. exact Hx.
Qed.

Lemma sym2_lookup self j :
  1 <= j <= len (seq2 self) ->
  seq2 self !! Z.to_nat (j - 1) = Some (sym2 self j) /\ sym2 self j ∈ symbols self.
Proof.
  intros Hj. unfold sym2.
  destruct (lookup_lt_is_Some_2 (seq2 self) (Z.to_nat (j - 1))) as [x Hx].
  { unfold len in Hj. lia. }
  rewrite Hx. simpl. split; [reflexivity|].
  unfold symbols. apply list_elem_of_further, elem_of_app. right.
  eapply list_elem_of_lookup_2. exact Hx.
Qed.

Lemma dash_symbol self : dash ∈ symbols self.
Proof. unfold symbols. apply list_elem_of_here. Qed.

Lemma cell_ok self m i j :
  shaped (rows self) (cols self) m -> covers self ->
  1 <= i <= len (seq1 self) -> 1 <= j <= len (seq2 self) ->
  cell self m i j = Ret (rec_value self m i j).
Proof.
  intros Hs Hc Hi Hj.
  destruct (sym1_lookup self i Hi) as [H1 H1s].
  destruct (sym2_lookup self j Hj) as [H2 H2s].
  pose proof (dash_symbol self) as Hd.
  unfold cell, cell_available.
  rewrite (getitem_ok _ (i - 1) _ ltac:(lia) H1). simpl.
  rewrite (getitem_ok _ (j - 1) _ ltac:(lia) H2). simpl.
  rewrite !loc_covered by assumption. simpl.
  rewrite !(get_ok (rows self) (cols self)); try assumption;
    try (unfold in_range, rows, cols; simpl; lia).
  simpl. rewrite !Z.eqb_refl. simpl.
  replace (i - 1 =? i) with false by (symmetry; apply Z.eqb_neq; lia).
  replace (j - 1 =? j) with false by (symmetry; apply Z.eqb_neq; lia).
  simpl. unfold rec_value. destruct (Ascii.eqb (sym1 self i) (sym2 self j)); reflexivity.
Qed.

Lemma rec_value_frame self m m' i j :
  cellv m' (i - 1, j - 1) = cellv m (i - 1, j - 1) ->
  cellv m' (i, j - 1) = cellv m (i, j - 1) ->
  cellv m' (i - 1, j) = cellv m (i - 1, j) ->
  rec_value self m' i j = rec_value self m i j.
Proof. intros H1 H2 H3. unfold rec_value. rewrite H1, H2, H3. reflexivity. Qed.

Lemma fill_step self m0 m i j :
  covers self ->
  1 <= i <= len (seq1 self) -> 1 <= j <= len (seq2 self) ->
  fill_inv self m0 m i j ->
  exists m',
    (v <- cell self m i j ;; Np.set m (i, j) (check_non_negativity self v)) = Ret m' /\
    fill_inv self m0 m' i (j + 1).
Proof.
  intros Hc Hi Hj (Hs & Hb & Hf & Hn).
  rewrite (cell_ok self m i j Hs Hc Hi Hj). simpl.
  destruct (set_ok (rows self) (cols self) m (i, j)
              (check_non_negativity self (rec_value self m i j)) Hs)
    as (m' & Hset & Hs' & Hfr & HP).
  { unfold in_range, rows, cols; simpl; lia. }
  exists m'. split; [exact Hset|].
  assert (Hother : forall q, in_range (rows self) (cols self) q -> q <> (i, j) ->
                     cellv m' q = cellv m q).
  { intros q Hq Hne. rewrite (Hfr q Hq). destruct (decide (q = (i, j))); congruence. }
  split; [exact Hs'|]. split; [|split].
  - intros q Hq Hq0. rewrite Hother; [apply Hb; assumption|assumption|].
    intros ->. simpl in Hq0. lia.
  - intros i' j' Hi' Hj' Hlt.
    assert (Hrec : rec_value self m' i' j' = rec_value self m i' j').
    { apply rec_value_frame; apply Hother;
        try (unfold in_range, rows, cols; simpl; lia);
        intros Heq; inversion Heq; lia. }
    rewrite Hrec.
    destruct (decide ((i', j') = (i, j))) as [Heq|Hne].
    + inversion Heq; subst i' j'. rewrite (Hfr (i, j)).
      * destruct (decide ((i, j) = (i, j))); [reflexivity|congruence].
      * unfold in_range, rows, cols; simpl; lia.
    + rewrite Hother; [|unfold in_range, rows, cols; simpl; lia|exact Hne].
      apply Hf; try assumption.
      destruct Hlt as [Hlt|[-> Hlt]]; [left; exact Hlt|].
      right. split; [reflexivity|].
      assert (j' <> j) by (intros ->; apply Hne; reflexivity). lia.
  - intros Hl. apply HP; [|apply Hn; exact Hl].
    unfold check_non_negativity. rewrite Hl. lia.
Qed.

Lemma align_spec self m0 :
  covers self -> shaped (rows self) (cols self) m0 ->
  (local self = true -> Forall (Forall (fun v => 0 <= v)) m0) ->
  exists m, align self m0 = Ret m /\
    fill_inv self m0 m (len (seq1 self) + 1) 1.
Proof.
  intros Hc Hs Hn. unfold align, range2.
  replace (len (seq1 self) + 1 - 1) with (len (seq1 self)) by lia.
  replace (len (seq2 self) + 1 - 1) with (len (seq2 self)) by lia.
  replace (len (seq1 self) + 1) with (1 + len (seq1 self)) by lia.
  apply (foldM_seqZ_inv (fun i m => fill_inv self m0 m i 1)).
  - unfold len. lia.
  - split; [exact Hs|]. split; [reflexivity|]. split; [|exact Hn].
    intros i' j' Hi' Hj' Hlt. lia.
  - intros i m Hi Hinv.
    destruct (foldM_seqZ_inv (fun j m => fill_inv self m0 m i j)
                (fun m j => v <- cell self m i j ;;
                            Np.set m (i, j) (check_non_negativity self v))
                1 (len (seq2 self)) m) as (m' & Hfold & Hinv').
    + unfold len. lia.
    + exact Hinv.
    + intros j mj Hj Hij. apply fill_step; try assumption; lia.
    + exists m'. split; [exact Hfold|].
      destruct Hinv' as (Hs' & Hb' & Hf' & Hn').
      split; [exact Hs'|]. split; [exact Hb'|]. split; [|exact Hn'].
      intros i' j' Hi' Hj' Hlt. apply Hf'; try assumption.
      destruct Hlt as [Hlt|[-> Hlt]]; [|lia].
      destruct (decide (i' = i)) as [->|Hne]; [right; lia|left; lia].
Qed.

Lemma cellv_zeros r c q : cellv (Np.zeros r c) q = 0.
Proof.
  unfold cellv, Np.get, getitem.
  destruct (norm_index _ (fst q)) as [i|]; [|reflexivity].
  unfold Np.zeros. destruct (replicate _ _ !! i) as [row|] eqn:Hrow; [|reflexivity].
  apply lookup_replicate in Hrow as [-> _]. simpl.
  destruct (norm_index _ (snd q)) as [j|]; [|reflexivity].
  destruct (replicate _ _ !! j) as [v|] eqn:Hv; [|reflexivity].
  apply lookup_replicate in Hv as [-> _]. reflexivity.
Qed.

Lemma zeros_nonneg r c : Forall (Forall (fun v => 0 <= v)) (Np.zeros r c).
Proof. unfold Np.zeros. apply Forall_replicate, Forall_replicate. lia. Qed.

Lemma ascii_in_elem c l : ascii_in c l = true <-> c ∈ l.
Proof.
  unfold ascii_in. rewrite existsb_exists. split.
  - intros (x & Hx & Heq). apply Ascii.eqb_eq in Heq. subst x.
    apply list_elem_of_In. exact Hx.
  - intros Hc. exists c. split; [apply list_elem_of_In; exact Hc|apply Ascii.eqb_refl].
Qed.

Lemma covers_zero_frame self :
  weights self = zero_frame (seq1 self ++ seq2 self ++ [dash]) -> covers self.
Proof.
  intros Hw a b Ha Hb. rewrite Hw. unfold zero_frame.
  assert (Hin : forall x, x ∈ symbols self ->
                  ascii_in x (seq1 self ++ seq2 self ++ [dash]) = true).
  { intros x Hx. apply ascii_in_elem. unfold symbols in Hx.
    rewrite !elem_of_app. apply elem_of_cons in Hx as [->|Hx].
    - right. right. apply list_elem_of_here.
    - apply elem_of_app in Hx as [Hx|Hx]; [left|right; left]; exact Hx. }
  rewrite (Hin a Ha), (Hin b Hb). simpl. eexists. reflexivity.
Qed.

Lemma rows_cols_nonneg self : 0 <= rows self /\ 0 <= cols self.
Proof. unfold rows, cols, len. lia. Qed.

(** The built and filled matrix of a local run. *)
Lemma build_local self :
  local self = true -> covers self ->
  exists m, build self = Ret m /\
    fill_inv self (Np.zeros (rows self) (cols self)) m (len (seq1 self) + 1) 1.
Proof.
  intros Hl Hc. unfold build, init_matrix. rewrite Hl. simpl.
  destruct (rows_cols_nonneg self) as [Hr Hcc].
  apply align_spec; [exact Hc|apply zeros_shaped; assumption|].
  intros _. apply zeros_nonneg.
Qed.

Lemma getitem_Ret_inv {A} (l : list A) k x :
  getitem l k = Ret x -> exists i, norm_index (len l) k = Some i /\ l !! i = Some x.
Proof.
  unfold getitem. destruct (norm_index (len l) k) as [i|]; [|discriminate].
  destruct (l !! i) as [y|] eqn:Hy; [|discriminate].
  intros H. inversion H; subst. eauto.
Qed.

(** What a successful write does to the shape and to a property of all
    cells. *)
Lemma set_Ret_preserves r c (m m' : ndarray) p v :
  Np.set m p v = Ret m' ->
  (shaped r c m -> shaped r c m') /\
  (forall P : Z -> Prop, P v -> Forall (Forall P) m -> Forall (Forall P) m').
Proof.
  unfold Np.set. intros H.
  apply bind_Ret in H as (row & Hrow & H).
  apply bind_Ret in H as (row' & Hrow' & H).
  apply getitem_Ret_inv in Hrow as (i & Hi & Hrow).
  unfold setitem in Hrow', H. rewrite Hi in H.
  destruct (norm_index (len row) (snd p)) as [j|]; [|discriminate].
  inversion Hrow'; subst row'. inversion H; subst m'. clear Hrow' H. split.
  - intros [Hr Hc]. split.
    + unfold len. rewrite length_insert. exact Hr.
    + apply Forall_insert; [exact Hc|]. unfold len. rewrite length_insert.
      rewrite Forall_lookup in Hc. exact (Hc _ _ Hrow).
  - intros P HP HF. apply Forall_insert; [exact HF|].
    apply Forall_insert; [|exact HP].
    rewrite Forall_lookup in HF. exact (HF _ _ Hrow).
Qed.

(** Whatever the table, a local build that returns gives a matrix of the
    right shape without negative cells. *)
Lemma build_local_ret self m :
  local self = true -> build self = Ret m ->
  shaped (rows self) (cols self) m /\ Forall (Forall (fun v => 0 <= v)) m.
Proof.
  intros Hl Hb. unfold build, init_matrix in Hb. rewrite Hl in Hb. simpl in Hb.
  destruct (rows_cols_nonneg self) as [Hr Hc].
  pose (I := fun m : ndarray =>
               shaped (rows self) (cols self) m /\
               Forall (Forall (fun v => 0 <= v)) m).
  assert (Hstep : forall i j m1 m2, I m1 ->
            (v <- cell self m1 i j ;;
             Np.set m1 (i, j) (check_non_negativity self v)) = Ret m2 -> I m2).
  { intros i j m1 m2 [Hs Hn] H. apply bind_Ret in H as (v & _ & Hset).
    destruct (set_Ret_preserves (rows self) (cols self) _ _ _ _ Hset) as [Hs' Hn'].
    split; [apply Hs'; exact Hs|]. apply Hn'; [|exact Hn].
    unfold check_non_negativity. rewrite Hl. lia. }
  unfold align in Hb.
  apply (foldM_inv_ret I) in Hb; [exact Hb| |].
  - split; [apply zeros_shaped; assumption|apply zeros_nonneg].
  - intros i m1 m2 Hinv Hrow.
    apply (foldM_inv_ret I) in Hrow; [exact Hrow|exact Hinv|].
    intros j m3 m4. apply Hstep.
Qed.

(** C4. In local mode, for every pair of sequences and every scoring
    scheme, a matrix returned by [init_matrix] and [align] has the shape
    [(len(seq1)+1, len(seq2)+1)] and all its cells are at least 0; and
    the two do return whenever the table has the pairs the fill looks up
    (the zero table of a run without table always has). *)
Theorem local_matrix_nonneg self :
  local self = true ->
  (forall m, build self = Ret m ->
     shaped (rows self) (cols self) m /\ Forall (Forall (fun v => 0 <= v)) m) /\
  (covers self -> exists m, build self = Ret m).
Proof.
  intros Hl. split.
  - intros m Hb. exact (build_local_ret self m Hl Hb).
  - intros Hc. destruct (build_local self Hl Hc) as (m & Hb & _). eauto.
Qed.

Lemma local_matrix_nonneg_witness :
  shaped (rows aligner_textbook) (cols aligner_textbook) textbook_matrix /\
  Forall (Forall (fun v => 0 <= v)) textbook_matrix.
Proof.
  apply (proj1 (local_matrix_nonneg aligner_textbook eq_refl) textbook_matrix).
  vm_compute. reflexivity.
Defined.

(** C9. A table name that is not empty and is, once put in lower case,
    neither [pam] nor [blosum] makes [set_weights] raise (the local
    [filename] is unbound when [read_csv] is called), whatever the loader
    would return; [__init__] raises before [init_matrix] is run, and so does
    the whole run. *)
Theorem unknown_table_raises read_csv fuel s1 s2 m g mm name loc_ :
  name <> [] ->
  lower name <> str "pam" ->
  lower name <> str "blosum" ->
  set_weights read_csv (upper s1) (upper s2) (Some name) = Raise UnboundLocalError /\
  Aligner_init read_csv s1 s2 m g mm (Some name) loc_ = Raise UnboundLocalError /\
  run read_csv fuel s1 s2 m g mm (Some name) loc_ = Raise UnboundLocalError.
Proof.
  intros Hne Hp Hb.
  assert (Hs : forall a b, set_weights read_csv a b (Some name) = Raise UnboundLocalError).
  { intros a b. unfold set_weights. destruct name as [|c name]; [congruence|].
    destruct (decide _) as [He|_]; [exfalso; apply Hp; exact He|].
    destruct (decide _) as [He|_]; [exfalso; apply Hb; exact He|]. reflexivity. }
  split; [apply Hs|]. unfold run, Aligner_init. rewrite Hs. simpl. split; reflexivity.
Qed.

Lemma unknown_table_raises_witness :
  set_weights (fun _ => Ret star_frame) (upper (str "ac")) (upper (str "ca"))
    (Some (str "gonnet")) = Raise UnboundLocalError /\
  Aligner_init (fun _ => Ret star_frame) (str "ac") (str "ca") 1 (-1) (-1)
    (Some (str "gonnet")) false = Raise UnboundLocalError /\
  run (fun _ => Ret star_frame) 10 (str "ac") (str "ca") 1 (-1) (-1)
    (Some (str "gonnet")) false = Raise UnboundLocalError.
Proof.
  apply (unknown_table_raises (fun _ => Ret star_frame) 10 (str "ac") (str "ca")
           1 (-1) (-1) (str "gonnet") false).
  - vm_compute. discriminate.
  - vm_compute. discriminate.
  - vm_compute. discriminate.
Defined.

(** ** Steps of a traceback *)

Lemma get_cellv m p v : Np.get m p = Ret v -> cellv m p = v.
Proof. intros H. unfold cellv. rewrite H. reflexivity. Qed.

Lemma loc_wz self a b w : loc (weights self) (a, b) = Ret w -> wz self a b = w.
Proof.
  unfold loc, wz. simpl. destruct (weights self a b); simpl; congruence.
Qed.

Lemma try_neighbours_sound self m current value idx index pair :
  try_neighbours self m current value idx = Ret (Some (index, pair)) ->
  index ∈ idx /\
  exists s, s ∈ move_scores self current index /\ value - cellv m index = s.
Proof.
  induction idx as [|i0 idx IH]; simpl; [discriminate|].
  intros H.
  apply bind_Ret in H as (s1 & Hs1 & H).
  apply bind_Ret in H as (s2 & Hs2 & H).
  apply bind_Ret in H as (bt & Hbt & H).
  apply get_cellv in Hbt.
  assert (Hrec : try_neighbours self m current value idx = Ret (Some (index, pair)) ->
                 index ∈ i0 :: idx /\
                 exists s, s ∈ move_scores self current index /\
                           value - cellv m index = s).
  { intros Hr. destruct (IH Hr) as [Hin Hex]. split; [|exact Hex].
    apply list_elem_of_further. exact Hin. }
  assert (Hy1 : sym_at (seq1 self) (fst current - 1) = s1)
    by (unfold sym_at; rewrite Hs1; reflexivity).
  assert (Hy2 : sym_at (seq2 self) (snd current - 1) = s2)
    by (unfold sym_at; rewrite Hs2; reflexivity).
  destruct ((fst i0 + 1 =? fst current) && (snd i0 + 1 =? snd current)) eqn:Hd.
  - apply bind_Ret in H as (w & Hw & H). apply loc_wz in Hw.
    destruct (((value - bt =? match_ self + w) && Ascii.eqb s1 s2)
              || (value - bt =? mismatch self + w)) eqn:Ht; [|exact (Hrec H)].
    inversion H; subst index pair. split; [apply list_elem_of_here|].
    exists (value - cellv m i0). split; [|reflexivity].
    unfold move_scores. rewrite Hd, Hy1, Hy2, Hw, Hbt.
    apply orb_true_iff in Ht as [Ht|Ht].
    + apply andb_true_iff in Ht as [Ht He]. rewrite He. apply Z.eqb_eq in Ht.
      rewrite Ht. apply list_elem_of_here.
    + apply Z.eqb_eq in Ht. rewrite Ht. apply elem_of_app. right.
      apply list_elem_of_here.
  - destruct (negb (fst current - fst i0 =? 0)) eqn:Hu.
    + apply bind_Ret in H as (w & Hw & H). apply loc_wz in Hw.
      destruct (value - bt =? gap self + w) eqn:Ht; [|exact (Hrec H)].
      inversion H; subst index pair. split; [apply list_elem_of_here|].
      exists (value - cellv m i0). split; [|reflexivity].
      unfold move_scores. rewrite Hd, Hu, Hy1, Hw, Hbt.
      apply Z.eqb_eq in Ht. rewrite Ht. apply list_elem_of_here.
    + apply bind_Ret in H as (w & Hw & H). apply loc_wz in Hw.
      destruct (value - bt =? gap self + w) eqn:Ht; [|exact (Hrec H)].
      inversion H; subst index pair. split; [apply list_elem_of_here|].
      exists (value - cellv m i0). split; [|reflexivity].
      unfold move_scores. rewrite Hd, Hu, Hy2, Hw, Hbt.
      apply Z.eqb_eq in Ht. rewrite Ht. apply list_elem_of_here.
Qed.

Lemma local_walk_stuck fuel self m c al v path :
  v <> 0 ->
  traceback_step self m c al = Ret (c, al, v) ->
  local_walk fuel self m c v al path = OutOfFuel.
Proof.
  intros Hv Hs. revert path. induction fuel as [|fuel IH]; intros path; simpl;
    [reflexivity|].
  destruct (Z.eqb_spec v 0) as [|_]; [contradiction|]. simpl.
  rewrite Hs. simpl. apply IH.
Qed.

Lemma local_walk_path fuel self m c value al p0 al' path :
  local_walk fuel self m c value al p0 = Ret (al', path) ->
  exists rest, path = p0 ++ rest /\
    (rest = [] \/ exists r, rest = c :: r) /\ steps_ok self m rest.
Proof.
  revert c value al p0. induction fuel as [|fuel IH]; intros c value al p0; simpl;
    [discriminate|].
  destruct (Z.eqb_spec value 0) as [Hz|Hnz]; simpl.
  - intros H. inversion H; subst. exists []. split; [rewrite app_nil_r; reflexivity|].
    split; [left; reflexivity|]. intros k x y Hx. rewrite lookup_nil in Hx. discriminate.
  - intros H. apply bind_Ret in H as (r & Hstep & H).
    destruct (IH _ _ _ _ H) as (rest & Hp & Hhd & Hok).
    exists (c :: rest). split; [rewrite Hp, <- app_assoc; reflexivity|].
    split; [right; eexists; reflexivity|].
    intros k x y Hx Hy. destruct k as [|k]; [|exact (Hok k x y Hx Hy)].
    simpl in Hx, Hy. inversion Hx; subst x. clear Hx.
    destruct Hhd as [->|(r' & ->)]; [rewrite lookup_nil in Hy; discriminate|].
    simpl in Hy. inversion Hy; subst y. clear Hy.
    unfold traceback_step in Hstep.
    apply bind_Ret in Hstep as (v & Hv & Hstep).
    apply bind_Ret in Hstep as (o & Ho & Hstep).
    destruct o as [[index [a b]]|].
    + inversion Hstep; subst r. simpl in *.
      destruct (try_neighbours_sound _ _ _ _ _ _ _ Ho) as (Hin & s & Hs & Hd).
      apply get_cellv in Hv. split; [exact Hin|].
      exists s. split; [exact Hs|]. rewrite Hv. split; [exact Hd|]. lia.
    + inversion Hstep; subst r. simpl in *.
      (* no move: the next iteration repeats this one *)
      destruct fuel as [|fuel']; simpl in H; [discriminate|].
      destruct (Z.eqb_spec v 0) as [Hv0|Hv0]; simpl in H.
      * inversion H; subst. apply (f_equal length) in H2.
        rewrite !length_app in H2. simpl in H2. lia.
      * assert (Hs : traceback_step self m c al = Ret (c, al, v)).
        { unfold traceback_step. rewrite Hv. simpl. rewrite Ho. reflexivity. }
        rewrite Hs in H. simpl in H.
        rewrite (local_walk_stuck fuel' self m c al v) in H; [discriminate|exact Hv0|exact Hs].
Qed.

(** C7, amended. In a local traceback that returns, every step from a
    visited cell [c] to the next visited cell [c'] goes to a neighbour of
    [c], and the value drops by exactly a score of the move taken (match or
    mismatch score on the diagonal, gap score upwards or to the left, each
    with its table entry): the value decreases strictly across the step if
    and only if that score is positive. *)
Theorem local_path_steps fuel self m start v al path :
  local_walk fuel self m start v ([], []) [] = Ret (al, path) ->
  forall k c c', path !! k = Some c -> path !! S k = Some c' ->
    c' ∈ kept_neighbours c /\
    exists s, s ∈ move_scores self c c' /\ cellv m c - cellv m c' = s /\
              (cellv m c' < cellv m c <-> 0 < s).
Proof.
  intros H. destruct (local_walk_path _ _ _ _ _ _ _ _ _ H) as (rest & Hp & _ & Hok).
  simpl in Hp. subst rest. exact Hok.
Qed.

Lemma local_path_steps_witness :
  (4, 4) ∈ kept_neighbours (4, 5) /\
  exists s, s ∈ move_scores aligner_textbook (4, 5) (4, 4) /\
            cellv textbook_matrix (4, 5) - cellv textbook_matrix (4, 4) = s /\
            (cellv textbook_matrix (4, 4) < cellv textbook_matrix (4, 5) <-> 0 < s).
Proof.
  apply (local_path_steps 50 aligner_textbook textbook_matrix (6, 7) 13
           (str "CA-TTG", str "CAGTTG")
           [(6, 7); (5, 6); (4, 5); (4, 4); (3, 3); (2, 2); (1, 1)]
           ltac:(vm_compute; reflexivity) 2%nat (4, 5) (4, 4)).
  - reflexivity.
  - reflexivity.
Defined.

(** ** The border of the global matrix *)

Lemma gap_total_app self l l' :
  gap_total self (l ++ l') = gap_total self l + gap_total self l'.
Proof. induction l as [|x l IH]; simpl; [reflexivity|]. rewrite IH. lia. Qed.

Lemma counter_at_succ self s k x :
  0 <= k -> s !! Z.to_nat k = Some x ->
  counter_at self s (k + 1) = counter_at self s k + (gap self + wz self dash x).
Proof.
  intros Hk Hx. unfold counter_at.
  replace (Z.to_nat (k + 1)) with (S (Z.to_nat k)) by lia.
  rewrite (take_S_r _ _ _ Hx), gap_total_app. simpl. lia.
Qed.

Lemma border_value_succ self s k x y :
  1 <= k -> s !! Z.to_nat (k - 1) = Some x -> s !! Z.to_nat k = Some y ->
  border_value self s k = border_value self s (k - 1) + (gap self + wz self dash y).
Proof.
  intros Hk Hx Hy. unfold border_value. rewrite Hx, Hy. simpl.
  replace k with (k - 1 + 1) at 1 by lia.
  rewrite (counter_at_succ self s (k - 1) x) by (try lia; exact Hx). lia.
Qed.

Lemma shape_zeros r c : 1 <= r -> 0 <= c -> Np.shape (Np.zeros r c) = (r, c).
Proof.
  intros Hr Hc. unfold Np.shape, Np.zeros, len. rewrite length_replicate.
  destruct (Z.to_nat r) as [|n] eqn:Hn; [lia|]. simpl.
  rewrite length_replicate. f_equal; lia.
Qed.

Lemma border_pass_spec self s pos (keep : coord -> Prop) m0 n :
  covers_gap_row self ->
  (forall x, x ∈ s -> x ∈ symbols self) ->
  len s = n ->
  shaped (rows self) (cols self) m0 ->
  (forall k, 0 <= k < n -> in_range (rows self) (cols self) (pos k)) ->
  (forall k k', 0 <= k < n -> 0 <= k' < n -> pos k = pos k' -> k = k') ->
  (forall k q, 0 <= k < n -> keep q -> q <> pos k) ->
  exists m counter,
    foldM (border_pass self s pos) (m0, 0) (seqZ 0 n) = Ret (m, counter) /\
    shaped (rows self) (cols self) m /\
    (forall k, 0 <= k < n -> cellv m (pos k) = border_value self s k) /\
    (forall q, in_range (rows self) (cols self) q -> keep q -> cellv m q = cellv m0 q).
Proof.
  intros Hc Hsym Hlen Hs Hpos Hinj Hkeep.
  destruct (foldM_seqZ_inv
    (fun ax (st : ndarray * Z) =>
       shaped (rows self) (cols self) (fst st) /\
       snd st = counter_at self s ax /\
       (forall k, 0 <= k < ax -> cellv (fst st) (pos k) = border_value self s k) /\
       (forall q, in_range (rows self) (cols self) q -> keep q ->
          cellv (fst st) q = cellv m0 q))
    (border_pass self s pos) 0 n (m0, 0)) as ([m counter] & Hf & Hs' & _ & Hb & Hk).
  - unfold len in Hlen. lia.
  - simpl. split; [exact Hs|]. split; [reflexivity|]. split; [intros; lia|reflexivity].
  - intros ax [m c0] Hax (Hs1 & Hc1 & Hb1 & Hk1). simpl in *.
    destruct (getitem_in_range s ax) as (x & Hget & Hx); [lia|].
    assert (Hxs : x ∈ symbols self).
    { apply Hsym. eapply list_elem_of_lookup_2. exact Hx. }
    destruct (Hc x Hxs) as [w Hw].
    assert (Hloc : loc (weights self) (dash, x) = Ret w).
    { unfold loc. simpl. rewrite Hw. reflexivity. }
    assert (Hwz : wz self dash x = w) by (unfold wz; rewrite Hw; reflexivity).
    destruct (set_ok (rows self) (cols self) m (pos ax) (c0 + w) Hs1)
      as (m' & Hset & Hs2 & Hfr & _); [apply Hpos; lia|].
    exists (m', c0 + (gap self + w)). split.
    + unfold border_pass. simpl. rewrite Hget. simpl. rewrite Hloc. simpl.
      rewrite Hset. simpl. reflexivity.
    + simpl. split; [exact Hs2|]. split; [|split].
      * rewrite (counter_at_succ self s ax x) by (try lia; exact Hx). rewrite Hwz. lia.
      * intros k Hk. rewrite (Hfr (pos k)) by (apply Hpos; lia).
        destruct (decide (pos k = pos ax)) as [He|Hne].
        -- apply Hinj in He; [|lia|lia]. subst k.
           unfold border_value. rewrite Hx. simpl. rewrite Hwz, Hc1. reflexivity.
        -- apply Hb1. assert (k <> ax) by (intros ->; apply Hne; reflexivity). lia.
      * intros q Hq Hkq. rewrite (Hfr q Hq).
        destruct (decide (q = pos ax)) as [He|_]; [|apply Hk1; assumption].
        exfalso. apply (Hkeep ax q); [lia|exact Hkq|exact He].
  - simpl in *. exists m, counter. split; [exact Hf|]. split; [exact Hs'|].
    split; [|exact Hk]. intros k Hk'. apply Hb. lia.
Qed.

Lemma init_matrix_global self :
  local self = false ->
  init_matrix self =
    (r0 <- foldM (border_pass self (dash :: seq1 self) (fun ax => (ax, 0)))
             (Np.zeros (rows self) (cols self), 0) (seqZ 0 (rows self)) ;;
     r1 <- foldM (border_pass self (dash :: seq2 self) (fun ax => (0, ax)))
             (fst r0, 0) (seqZ 0 (cols self)) ;;
     Ret (fst r1)).
Proof.
  intros Hl. unfold init_matrix. rewrite Hl.
  fold (rows self). fold (cols self).
  destruct (rows_cols_nonneg self) as [Hr Hc].
  rewrite shape_zeros by (unfold rows, cols, len in *; lia).
  unfold enumerate, range. simpl.
  change (seqZ 0 (len [rows self; cols self])) with [0; 1]. simpl.
  assert (Hpass : forall s i pos,
            getitem [dash :: seq1 self; dash :: seq2 self] i = Ret s ->
            (forall ax, (if i =? 0 then (ax, 0) else (0, ax)) = pos ax) ->
            forall l st,
            foldM (fun '(matrix, counter) ax =>
               let position := if i =? 0 then (ax, 0) else (0, ax) in
               s <- getitem [dash :: seq1 self; dash :: seq2 self] i ;;
               c <- getitem s ax ;;
               w <- loc (weights self) (dash, c) ;;
               matrix <- Np.set matrix position (counter + w) ;;
               w' <- loc (weights self) (dash, c) ;;
               Ret (matrix, counter + (gap self + w'))) st l
            = foldM (border_pass self s pos) st l).
  { intros s i pos Hg Hp l st. apply foldM_ext. intros [m1 c1] ax. simpl.
    rewrite Hg. simpl. unfold border_pass. simpl. rewrite Hp. reflexivity. }
  rewrite (Hpass (dash :: seq1 self) 0 (fun ax => (ax, 0)) eq_refl (fun _ => eq_refl)).
  destruct (foldM (border_pass self (dash :: seq1 self) _) _ _) as [r0| |]; simpl;
    try reflexivity.
  rewrite (Hpass (dash :: seq2 self) 1 (fun ax => (0, ax)) eq_refl (fun _ => eq_refl)).
  destruct (foldM (border_pass self (dash :: seq2 self) _) _ _) as [r1| |]; simpl;
    reflexivity.
Qed.

Lemma cons_lookup_pos {A} (x : A) l k :
  1 <= k -> (x :: l) !! Z.to_nat k = l !! Z.to_nat (k - 1).
Proof.
  intros Hk. replace (Z.to_nat k) with (S (Z.to_nat (k - 1))) by lia. reflexivity.
Qed.

Lemma border_value_zero self s : border_value self (dash :: s) 0 = wz self dash dash.
Proof. unfold border_value, counter_at. simpl. lia. Qed.

Lemma border_value_step self s k y :
  1 <= k <= len s -> s !! Z.to_nat (k - 1) = Some y ->
  border_value self (dash :: s) k =
  border_value self (dash :: s) (k - 1) + (gap self + wz self dash y).
Proof.
  intros Hk Hy.
  destruct (lookup_lt_is_Some_2 (dash :: s) (Z.to_nat (k - 1))) as [x Hx].
  { simpl. unfold len in Hk. lia. }
  apply (border_value_succ self (dash :: s) k x y); [lia|exact Hx|].
  rewrite cons_lookup_pos by lia. exact Hy.
Qed.

(** ** Runs with small scores *)

Lemma wz_small self a b : small_scores self -> Z.abs (wz self a b) <= score_bound.
Proof.
  intros (_ & _ & _ & Hw & _). unfold wz.
  destruct (weights self a b) as [v|] eqn:E; simpl.
  - exact (Hw a b v E).
  - unfold score_bound. lia.
Qed.

Lemma small_scores_zero_frame self l :
  weights self = zero_frame l ->
  Z.abs (match_ self) <= score_bound -> Z.abs (gap self) <= score_bound ->
  Z.abs (mismatch self) <= score_bound ->
  len (seq1 self) + len (seq2 self) <= length_bound ->
  small_scores self.
Proof.
  intros Hw Hm Hg Hmm Hlen. repeat split; try assumption.
  intros a b v. rewrite Hw. unfold zero_frame.
  destruct (ascii_in a l && ascii_in b l); [|discriminate].
  intros H. injection H as <-. unfold score_bound. lia.
Qed.

Lemma small_scores_star : small_scores aligner_star.
Proof.
  unfold small_scores, score_bound, length_bound.
  split; [vm_compute; discriminate|]. split; [vm_compute; discriminate|].
  split; [vm_compute; discriminate|]. split; [|vm_compute; discriminate].
  intros a b v H. unfold aligner_star, weights, star_frame in H. injection H as <-.
  destruct (Ascii.eqb a dash && Ascii.eqb b dash); [lia|].
  destruct (Ascii.eqb a dash || Ascii.eqb b dash); lia.
Qed.

Lemma small_scores_AA : small_scores aligner_AA.
Proof.
  apply (small_scores_zero_frame aligner_AA _ eq_refl);
    unfold score_bound, length_bound; vm_compute; discriminate.
Qed.

Lemma small_scores_classic : small_scores aligner_classic.
Proof.
  apply (small_scores_zero_frame aligner_classic _ eq_refl);
    unfold score_bound, length_bound; vm_compute; discriminate.
Qed.

Lemma small_scores_textbook : small_scores aligner_textbook.
Proof.
  apply (small_scores_zero_frame aligner_textbook _ eq_refl);
    unfold score_bound, length_bound; vm_compute; discriminate.
Qed.

(** C2, amended. In global mode, for scores, table entries and lengths in
    the range where the arithmetic of the code is exact, and whenever the
    table has the gap row for the symbols of the run, [init_matrix] returns
    a matrix whose cell (0,0) is the table entry of the pair of two gaps
    (0 without a table), and whose border satisfies
    [M[0,k] = M[0,k-1] + gap + sub(-, seq2[k-1])] and
    [M[k,0] = M[k-1,0] + gap + sub(-, seq1[k-1])]. *)
Theorem border_recurrence self :
  small_scores self -> local self = false -> covers_gap_row self ->
  exists m, init_matrix self = Ret m /\
    shaped (rows self) (cols self) m /\
    cellv m (0, 0) = wz self dash dash /\
    (forall k, 1 <= k <= len (seq2 self) ->
       cellv m (0, k) = cellv m (0, k - 1) + (gap self + wz self dash (sym2 self k))) /\
    (forall k, 1 <= k <= len (seq1 self) ->
       cellv m (k, 0) = cellv m (k - 1, 0) + (gap self + wz self dash (sym1 self k))).
Proof.
  intros _ Hl Hc. rewrite (init_matrix_global self Hl).
  destruct (rows_cols_nonneg self) as [Hr Hcc].
  assert (Hsym1 : forall x, x ∈ dash :: seq1 self -> x ∈ symbols self).
  { intros x Hx. unfold symbols. apply elem_of_cons in Hx as [->|Hx];
      [apply list_elem_of_here|]. apply list_elem_of_further, elem_of_app. left. exact Hx. }
  assert (Hsym2 : forall x, x ∈ dash :: seq2 self -> x ∈ symbols self).
  { intros x Hx. unfold symbols. apply elem_of_cons in Hx as [->|Hx];
      [apply list_elem_of_here|]. apply list_elem_of_further, elem_of_app. right. exact Hx. }
  destruct (border_pass_spec self (dash :: seq1 self) (fun ax => (ax, 0))
              (fun _ => False) (Np.zeros (rows self) (cols self)) (rows self))
    as (m1 & c1 & Hf1 & Hs1 & Hb1 & _); try assumption.
  { unfold rows, len. simpl. lia. }
  { apply zeros_shaped; assumption. }
  { intros k Hk. unfold in_range, rows, cols, len in *. simpl. lia. }
  { intros k k' _ _ He. congruence. }
  { intros k q _ []. }
  rewrite Hf1. simpl.
  destruct (border_pass_spec self (dash :: seq2 self) (fun ax => (0, ax))
              (fun q => 1 <= fst q /\ snd q = 0) m1 (cols self))
    as (m2 & c2 & Hf2 & Hs2 & Hb2 & Hk2); try assumption.
  { unfold cols, len. simpl. lia. }
  { intros k Hk. unfold in_range, rows, cols, len in *. simpl. lia. }
  { intros k k' _ _ He. congruence. }
  { intros k q _ [Hq _] ->. simpl in Hq. lia. }
  rewrite Hf2. simpl. exists m2. split; [reflexivity|]. split; [exact Hs2|].
  assert (H00 : cellv m2 (0, 0) = wz self dash dash).
  { rewrite (Hb2 0) by (unfold cols, len; lia). apply border_value_zero. }
  assert (Hcol : forall k, 0 <= k <= len (seq1 self) ->
                   cellv m2 (k, 0) = border_value self (dash :: seq1 self) k).
  { intros k Hk. destruct (decide (k = 0)) as [->|Hne].
    - rewrite H00, border_value_zero. reflexivity.
    - rewrite Hk2; [apply Hb1; unfold rows; lia| |simpl; lia].
      unfold in_range, rows, cols, len in *. simpl. lia. }
  split; [exact H00|]. split.
  - intros k Hk. destruct (sym2_lookup self k Hk) as [Hy _].
    rewrite !Hb2 by (unfold cols; lia).
    apply border_value_step; assumption.
  - intros k Hk. destruct (sym1_lookup self k Hk) as [Hy _].
    rewrite !Hcol by lia. apply border_value_step; assumption.
Qed.

Lemma border_recurrence_witness :
  exists m, init_matrix aligner_star = Ret m /\
    shaped (rows aligner_star) (cols aligner_star) m /\
    cellv m (0, 0) = wz aligner_star dash dash /\
    (forall k, 1 <= k <= len (seq2 aligner_star) ->
       cellv m (0, k) = cellv m (0, k - 1)
                        + (gap aligner_star + wz aligner_star dash (sym2 aligner_star k))) /\
    (forall k, 1 <= k <= len (seq1 aligner_star) ->
       cellv m (k, 0) = cellv m (k - 1, 0)
                        + (gap aligner_star + wz aligner_star dash (sym1 aligner_star k))).
Proof.
  apply (border_recurrence aligner_star).
  - exact small_scores_star.
  - reflexivity.
  - intros x _. eexists. reflexivity.
Defined.

(** ** Maximum and start cells of the local traceback *)

Lemma enumerate_elem {A} (l : list A) i x :
  (i, x) ∈ enumerate l <-> 0 <= i /\ l !! Z.to_nat i = Some x.
Proof.
  unfold enumerate. rewrite elem_of_lookup_zip_with. split.
  - intros (k & i' & x' & Heq & Hi & Hx). inversion Heq; subst i' x'.
    apply lookup_seqZ in Hi as [-> _]. split; [lia|].
    replace (Z.to_nat (0 + Z.of_nat k)) with k by lia. exact Hx.
  - intros [Hi Hx]. exists (Z.to_nat i), i, x. split; [reflexivity|].
    split; [|exact Hx]. apply lookup_seqZ. apply lookup_lt_Some in Hx.
    unfold len. lia.
Qed.

Lemma where_eq_lookup (m : ndarray) v (q : coord) :
  q ∈ Np.where_eq m v <->
  0 <= fst q /\ 0 <= snd q /\
  exists row, m !! Z.to_nat (fst q) = Some row /\ row !! Z.to_nat (snd q) = Some v.
Proof.
  unfold Np.where_eq. rewrite list_elem_of_In, in_flat_map. split.
  - intros ([i row] & Hrow & Hq). apply list_elem_of_In, enumerate_elem in Hrow.
    apply in_flat_map in Hq as ([j x] & Hx & Hq).
    apply list_elem_of_In, enumerate_elem in Hx.
    destruct (Z.eqb_spec x v) as [->|]; [|destruct Hq].
    destruct Hq as [<-|[]]. simpl. destruct Hrow, Hx. eauto.
  - intros (Hi & Hj & row & Hrow & Hv). exists (fst q, row). split.
    + apply list_elem_of_In, enumerate_elem. auto.
    + apply in_flat_map. exists (snd q, v). split.
      * apply list_elem_of_In, enumerate_elem. auto.
      * rewrite Z.eqb_refl. left. destruct q; reflexivity.
Qed.

Lemma where_eq_elem r c (m : ndarray) v (q : coord) :
  shaped r c m ->
  q ∈ Np.where_eq m v <-> in_range r c q /\ cellv m q = v.
Proof.
  intros Hs. rewrite where_eq_lookup. split.
  - intros (Hi & Hj & row & Hrow & Hv).
    assert (Hq : in_range r c q).
    { destruct Hs as [Hr Hc]. rewrite Forall_lookup in Hc.
      pose proof (Hc _ _ Hrow) as Hlen.
      apply lookup_lt_Some in Hrow. apply lookup_lt_Some in Hv.
      unfold in_range, len in *. lia. }
    split; [exact Hq|]. rewrite cellv_lookup by assumption. rewrite Hrow, Hv. reflexivity.
  - intros [Hq Hv].
    destruct (shaped_lookup r c m q Hs Hq) as (row & v' & Hrow & _ & Hv' & Hc).
    destruct Hq as [Hi Hj]. split; [lia|]. split; [lia|].
    exists row. split; [exact Hrow|]. congruence.
Qed.

Lemma fold_left_max_spec (l : list Z) (x : Z) :
  x <= fold_left Z.max l x /\
  (forall y, y ∈ l -> y <= fold_left Z.max l x) /\
  (fold_left Z.max l x = x \/ fold_left Z.max l x ∈ l).
Proof.
  revert x. induction l as [|a l IH]; intros x; simpl.
  - split; [lia|]. split; [|left; reflexivity]. intros y Hy. inversion Hy.
  - destruct (IH (Z.max x a)) as (H1 & H2 & H3). split; [lia|]. split.
    + intros y Hy. apply elem_of_cons in Hy as [->|Hy]; [lia|apply H2; exact Hy].
    + destruct H3 as [H3|H3].
      * rewrite H3. destruct (Z.max_spec x a) as [[_ ->]|[_ ->]];
          [right; apply list_elem_of_here|left; reflexivity].
      * right. apply list_elem_of_further. exact H3.
Qed.

Lemma concat_elem (m : ndarray) (x : Z) :
  x ∈ concat m <-> exists row, row ∈ m /\ x ∈ row.
Proof.
  rewrite list_elem_of_In, in_concat. split.
  - intros (row & Hr & Hx). exists row. rewrite !list_elem_of_In. auto.
  - intros (row & Hr & Hx). exists row. rewrite <- !list_elem_of_In. auto.
Qed.

Lemma concat_cellv r c (m : ndarray) (x : Z) :
  shaped r c m ->
  x ∈ concat m <-> exists q, in_range r c q /\ cellv m q = x.
Proof.
  intros Hs. rewrite concat_elem. split.
  - intros (row & Hr & Hx).
    apply list_elem_of_lookup in Hr as [i Hi]. apply list_elem_of_lookup in Hx as [j Hj].
    exists (Z.of_nat i, Z.of_nat j).
    apply (where_eq_elem r c m x _ Hs), where_eq_lookup. simpl.
    split; [lia|]. split; [lia|]. exists row. rewrite !Nat2Z.id. auto.
  - intros (q & Hq & Hv).
    destruct (shaped_lookup r c m q Hs Hq) as (row & v' & Hrow & _ & Hv' & Hc).
    exists row. split; [eapply list_elem_of_lookup_2; exact Hrow|].
    rewrite <- Hv, Hc. eapply list_elem_of_lookup_2. exact Hv'.
Qed.

(** [matrix.max()] returns the greatest cell value, and some cell holds it. *)
Lemma amax_spec r c m :
  1 <= r -> 1 <= c -> shaped r c m ->
  exists mx, Np.amax m = Ret mx /\
    (exists q, in_range r c q /\ cellv m q = mx) /\
    (forall q, in_range r c q -> cellv m q <= mx).
Proof.
  intros Hr Hc Hs.
  assert (H0 : cellv m (0, 0) ∈ concat m).
  { apply (concat_cellv r c m _ Hs). exists (0, 0). split; [|reflexivity].
    unfold in_range. simpl. lia. }
  unfold Np.amax, Py.max. destruct (concat m) as [|x l] eqn:Hcat.
  { inversion H0. }
  destruct (fold_left_max_spec l x) as (H1 & H2 & H3).
  exists (fold_left Z.max l x). split; [reflexivity|]. split.
  - apply (concat_cellv r c m _ Hs). rewrite Hcat.
    destruct H3 as [->|H3]; [apply list_elem_of_here|apply list_elem_of_further; exact H3].
  - intros q Hq.
    assert (Hin : cellv m q ∈ x :: l).
    { rewrite <- Hcat. apply (concat_cellv r c m _ Hs). eauto. }
    apply elem_of_cons in Hin as [->|Hin]; [exact H1|apply H2; exact Hin].
Qed.

(** ** Progress of the local walk *)

Lemma getitem_wrap {A} (l : list A) k :
  l <> [] -> -1 <= k < len l -> exists x, getitem l k = Ret x /\ x ∈ l.
Proof.
  intros Hne Hk. destruct (decide (k = -1)) as [->|Hk'].
  - assert (Hlen : 1 <= len l).
    { destruct l; [congruence|]. unfold len. simpl. lia. }
    destruct (lookup_lt_is_Some_2 l (Z.to_nat (-1 + len l))) as [x Hx].
    { unfold len in *. lia. }
    exists x. split; [|eapply list_elem_of_lookup_2; exact Hx].
    unfold getitem, norm_index. simpl.
    destruct (Z.leb_spec 0 (-1 + len l)); [|lia].
    destruct (Z.ltb_spec (-1 + len l) (len l)); [|lia]. simpl.
    rewrite Hx. reflexivity.
  - destruct (getitem_in_range l k) as (x & Hg & Hx); [lia|].
    exists x. split; [exact Hg|]. eapply list_elem_of_lookup_2. exact Hx.
Qed.

Lemma seq1_symbol self x : x ∈ seq1 self -> x ∈ symbols self.
Proof. intros H. apply list_elem_of_further, elem_of_app. left. exact H. Qed.

Lemma seq2_symbol self x : x ∈ seq2 self -> x ∈ symbols self.
Proof. intros H. apply list_elem_of_further, elem_of_app. right. exact H. Qed.

(** One round of [for index in idx], with the lookups resolved. *)
Lemma try_neighbours_cons self m current value index idx s1 s2 :
  shaped (rows self) (cols self) m -> covers self ->
  getitem (seq1 self) (fst current - 1) = Ret s1 -> s1 ∈ symbols self ->
  getitem (seq2 self) (snd current - 1) = Ret s2 -> s2 ∈ symbols self ->
  in_range (rows self) (cols self) index ->
  try_neighbours self m current value (index :: idx) =
    if (fst index + 1 =? fst current) && (snd index + 1 =? snd current) then
      if ((value - cellv m index =? match_ self + wz self s1 s2) && Ascii.eqb s1 s2)
         || (value - cellv m index =? mismatch self + wz self s1 s2)
      then Ret (Some (index, (s1, s2)))
      else try_neighbours self m current value idx
    else if negb (fst current - fst index =? 0) then
      if value - cellv m index =? gap self + wz self s1 dash
      then Ret (Some (index, (s1, dash)))
      else try_neighbours self m current value idx
    else
      if value - cellv m index =? gap self + wz self dash s2
      then Ret (Some (index, (dash, s2)))
      else try_neighbours self m current value idx.
Proof.
  intros Hs Hc H1 H1s H2 H2s Hi. pose proof (dash_symbol self) as Hd.
  simpl. rewrite H1, H2. simpl.
  rewrite (get_ok _ _ m index Hs Hi). simpl.
  rewrite !loc_covered by assumption. simpl. reflexivity.
Qed.

Lemma kept_in_range r c current q :
  in_range r c current -> q ∈ kept_neighbours current -> in_range r c q.
Proof.
  intros [Hi Hj] Hq. unfold kept_neighbours in Hq.
  apply list_elem_of_In, filter_In in Hq as [Hq Hnn].
  apply andb_true_iff in Hnn as [H1 H2]. apply Z.leb_le in H1, H2.
  unfold get_neighbours in Hq. simpl in Hq.
  unfold in_range. destruct Hq as [<-|[<-|[<-|[]]]]; simpl in *; lia.
Qed.

Lemma try_total self m current value idx :
  shaped (rows self) (cols self) m -> covers self ->
  seq1 self <> [] -> seq2 self <> [] ->
  in_range (rows self) (cols self) current ->
  (forall q, q ∈ idx -> in_range (rows self) (cols self) q) ->
  exists r, try_neighbours self m current value idx = Ret r /\
    (r = None \/ exists index pair, r = Some (index, pair) /\ index ∈ idx).
Proof.
  intros Hs Hc Hn1 Hn2 [Hi Hj] Hidx.
  destruct (getitem_wrap (seq1 self) (fst current - 1) Hn1) as (s1 & H1 & H1s).
  { unfold rows in Hi. lia. }
  destruct (getitem_wrap (seq2 self) (snd current - 1) Hn2) as (s2 & H2 & H2s).
  { unfold cols in Hj. lia. }
  apply seq1_symbol in H1s. apply seq2_symbol in H2s.
  induction idx as [|index idx IH].
  - exists None. split; [reflexivity|left; reflexivity].
  - rewrite (try_neighbours_cons self m current value index idx s1 s2); try assumption;
      [|apply Hidx, list_elem_of_here].
    destruct IH as (r & Hr & Hcase).
    { intros q Hq. apply Hidx, list_elem_of_further, Hq. }
    assert (Hrest : exists r0, try_neighbours self m current value idx = Ret r0 /\
              (r0 = None \/ exists index0 pair, r0 = Some (index0, pair) /\
                                                index0 ∈ index :: idx)).
    { exists r. split; [exact Hr|]. destruct Hcase as [->|(i0 & p & -> & Hin)];
        [left; reflexivity|]. right. exists i0, p. split; [reflexivity|].
      apply list_elem_of_further, Hin. }
    repeat match goal with
    | |- context [if ?b then _ else _] => destruct b
    end; try exact Hrest;
      (eexists; split; [reflexivity|]; right; do 2 eexists; split;
         [reflexivity|apply list_elem_of_here]).
Qed.

Lemma kept_interior i j :
  1 <= i -> 1 <= j ->
  kept_neighbours (i, j) = [(i - 1, j - 1); (i, j - 1); (i - 1, j)].
Proof.
  intros Hi Hj. unfold kept_neighbours, get_neighbours. simpl.
  destruct (Z.leb_spec 0 (i - 1)); [|lia]. destruct (Z.leb_spec 0 (j - 1)); [|lia].
  destruct (Z.leb_spec 0 i); [|lia]. destruct (Z.leb_spec 0 j); [|lia].
  reflexivity.
Qed.

(** At an interior cell whose value is the maximum of the three candidates
    of [cell], some neighbour passes its test. *)
Lemma try_progress self m i j :
  shaped (rows self) (cols self) m -> covers self -> gap_uniform self ->
  1 <= i <= len (seq1 self) -> 1 <= j <= len (seq2 self) ->
  cellv m (i, j) = rec_value self m i j ->
  exists index pair,
    try_neighbours self m (i, j) (cellv m (i, j)) (kept_neighbours (i, j))
      = Ret (Some (index, pair)) /\
    index ∈ kept_neighbours (i, j).
Proof.
  intros Hs Hc Hu Hi Hj Hv.
  destruct (sym1_lookup self i Hi) as [H1 H1s].
  destruct (sym2_lookup self j Hj) as [H2 H2s].
  assert (Hg1 : getitem (seq1 self) (fst (i, j) - 1) = Ret (sym1 self i)).
  { apply getitem_ok; [simpl; lia|exact H1]. }
  assert (Hg2 : getitem (seq2 self) (snd (i, j) - 1) = Ret (sym2 self j)).
  { apply getitem_ok; [simpl; lia|exact H2]. }
  assert (Hgu : wz self (sym1 self i) dash = wz self dash (sym2 self j)).
  { apply Hu; eapply list_elem_of_lookup_2; eassumption. }
  rewrite kept_interior by lia.
  rewrite (try_neighbours_cons self m (i, j) _ (i - 1, j - 1) _ _ _ Hs Hc Hg1 H1s Hg2 H2s)
    by (unfold in_range, rows, cols; simpl; lia).
  rewrite (try_neighbours_cons self m (i, j) _ (i, j - 1) _ _ _ Hs Hc Hg1 H1s Hg2 H2s)
    by (unfold in_range, rows, cols; simpl; lia).
  rewrite (try_neighbours_cons self m (i, j) _ (i - 1, j) _ _ _ Hs Hc Hg1 H1s Hg2 H2s)
    by (unfold in_range, rows, cols; simpl; lia).
  simpl fst. simpl snd.
  replace (i - 1 + 1 =? i) with true by (symmetry; apply Z.eqb_eq; lia).
  replace (j - 1 + 1 =? j) with true by (symmetry; apply Z.eqb_eq; lia).
  replace (i + 1 =? i) with false by (symmetry; apply Z.eqb_neq; lia).
  replace (j + 1 =? j) with false by (symmetry; apply Z.eqb_neq; lia).
  replace (i - i =? 0) with true by (symmetry; apply Z.eqb_eq; lia).
  replace (i - (i - 1) =? 0) with false by (symmetry; apply Z.eqb_neq; lia).
  simpl.
  unfold rec_value in Hv. rewrite Hgu in Hv.
  destruct (((cellv m (i, j) - cellv m (i - 1, j - 1)
              =? match_ self + wz self (sym1 self i) (sym2 self j))
             && Ascii.eqb (sym1 self i) (sym2 self j))
            || (cellv m (i, j) - cellv m (i - 1, j - 1)
                =? mismatch self + wz self (sym1 self i) (sym2 self j))) eqn:Hd.
  { do 2 eexists. split; [reflexivity|]. apply list_elem_of_here. }
  destruct (Z.eqb_spec (cellv m (i, j) - cellv m (i, j - 1))
              (gap self + wz self dash (sym2 self j))) as [Hl|Hl].
  { do 2 eexists. split; [reflexivity|]. apply list_elem_of_further, list_elem_of_here. }
  destruct (Z.eqb_spec (cellv m (i, j) - cellv m (i - 1, j))
              (gap self + wz self (sym1 self i) dash)) as [Hup|Hup].
  { do 2 eexists. split; [reflexivity|]. do 2 apply list_elem_of_further.
    apply list_elem_of_here. }
  exfalso. apply orb_false_iff in Hd as [Hd1 Hd2]. apply Z.eqb_neq in Hd2.
  destruct (Ascii.eqb (sym1 self i) (sym2 self j)).
  - rewrite andb_true_r in Hd1. apply Z.eqb_neq in Hd1. lia.
  - lia.
Qed.

Lemma nonempty_len {A} (l : list A) : 1 <= len l -> l <> [].
Proof. destruct l; unfold len; simpl; [lia|congruence]. Qed.

Section LocalWalk.

Variable self : Aligner.
Variable m : ndarray.
Hypothesis Hlocal : local self = true.
Hypothesis Hcovers : covers self.
Hypothesis Huniform : gap_uniform self.
Hypothesis Hfilled :
  fill_inv self (Np.zeros (rows self) (cols self)) m (len (seq1 self) + 1) 1.

Lemma local_border_zero q :
  in_range (rows self) (cols self) q -> fst q = 0 \/ snd q = 0 -> cellv m q = 0.
Proof.
  intros Hq Hb. destruct Hfilled as (_ & Hbd & _ & _).
  rewrite (Hbd q Hq Hb). apply cellv_zeros.
Qed.

Lemma local_positive_interior q :
  in_range (rows self) (cols self) q -> cellv m q <> 0 ->
  1 <= fst q <= len (seq1 self) /\ 1 <= snd q <= len (seq2 self) /\
  cellv m q = rec_value self m (fst q) (snd q).
Proof.
  intros Hq Hv.
  assert (Hi : 1 <= fst q /\ 1 <= snd q).
  { destruct (decide (fst q = 0)) as [H0|H0];
      [exfalso; apply Hv, local_border_zero; auto|].
    destruct (decide (snd q = 0)) as [H1|H1];
      [exfalso; apply Hv, local_border_zero; auto|].
    destruct Hq. lia. }
  destruct Hq as [Hq1 Hq2]. unfold rows, cols in *.
  split; [lia|]. split; [lia|].
  destruct Hfilled as (_ & _ & Hf & _).
  assert (He : cellv m (fst q, snd q)
               = check_non_negativity self (rec_value self m (fst q) (snd q))).
  { apply Hf; lia. }
  destruct q as [i j]. simpl in *. unfold check_non_negativity in He.
  rewrite Hlocal in He. lia.
Qed.

Lemma local_walk_returns n :
  forall current value al path fuel,
    seq1 self <> [] -> seq2 self <> [] ->
    in_range (rows self) (cols self) current ->
    fst current + snd current <= Z.of_nat n ->
    (n + 2 <= fuel)%nat ->
    exists res, local_walk fuel self m current value al path = Ret res.
Proof.
  destruct Hfilled as (Hs & _).
  induction n as [|n IH]; intros current value al path fuel Hn1 Hn2 Hq Hsum Hfuel.
  all: destruct fuel as [|fuel]; [lia|]; simpl.
  all: destruct (Z.eqb_spec value 0) as [Hz|Hnz]; simpl; [eexists; reflexivity|].
  all: unfold traceback_step; rewrite (get_ok _ _ m current Hs Hq); simpl.
  all: destruct (decide (cellv m current = 0)) as [Hv|Hv].
  all: try (destruct (try_total self m current (cellv m current) (kept_neighbours current)
                        Hs Hcovers Hn1 Hn2 Hq) as (r & Hr & _);
            [intros q' Hq'; exact (kept_in_range _ _ _ _ Hq Hq')|];
            rewrite Hr; simpl; rewrite Hv;
            destruct fuel as [|fuel]; [lia|];
            destruct r as [[index [a b]]|]; simpl; eexists; reflexivity).
  all: destruct (local_positive_interior current Hq Hv) as (Hi & Hj & Hrec).
  - destruct Hq. lia.
  - destruct current as [i j]. simpl in Hi, Hj, Hrec, Hsum.
    destruct (try_progress self m i j Hs Hcovers Huniform Hi Hj Hrec)
      as (index & pair & Htry & Hin).
    rewrite Htry. destruct pair as [a b]. simpl.
    apply IH; try assumption.
    + exact (kept_in_range _ _ _ _ Hq Hin).
    + rewrite kept_interior in Hin by lia.
      apply elem_of_cons in Hin as [->|Hin]; [simpl; lia|].
      apply elem_of_cons in Hin as [->|Hin]; [simpl; lia|].
      apply elem_of_cons in Hin as [->|Hin]; [simpl; lia|]. inversion Hin.
    + lia.
Qed.

(** The walk from any cell returns, and it returns the empty alignment when
    the cell holds 0. *)
Lemma walk_from_start q fuel :
  in_range (rows self) (cols self) q ->
  (Z.to_nat (rows self + cols self) + 2 <= fuel)%nat ->
  exists res, local_walk fuel self m q (cellv m q) ([], []) [] = Ret res /\
    (cellv m q = 0 -> res = (([], []), [])).
Proof.
  intros Hq Hfuel. destruct (decide (cellv m q = 0)) as [Hv|Hv].
  - rewrite Hv. destruct fuel as [|fuel]; [lia|]. simpl.
    eexists. split; [reflexivity|]. intros _. reflexivity.
  - destruct (local_positive_interior q Hq Hv) as (Hi & Hj & _).
    destruct (local_walk_returns (Z.to_nat (rows self + cols self)) q (cellv m q)
                ([], []) [] fuel) as [res Hres].
    + apply nonempty_len. lia.
    + apply nonempty_len. lia.
    + exact Hq.
    + destruct Hq. lia.
    + exact Hfuel.
    + exists res. split; [exact Hres|]. intros H0. contradiction.
Qed.

End LocalWalk.

Lemma select_fold (fuel : nat) (self : Aligner) (m : ndarray)
    (indices : list coord) (acc : gmap coord alignment) :
  (forall c : coord, c ∈ indices ->
     exists v res, Np.get m c = Ret v /\
                   local_walk fuel self m c v ([], []) [] = Ret res) ->
  exists r,
    foldM (fun (alignment_ : gmap coord alignment) start =>
      value <- Np.get m start ;;
      r <- local_walk fuel self m start value ([], []) [] ;;
      Ret (<[start := fst r]> alignment_)) acc indices = Ret r /\
    forall c, r !! c = if decide (c ∈ indices)
                       then Some (walk_alignment fuel self m c) else acc !! c.
Proof.
  revert acc. induction indices as [|c0 l IH]; intros acc Hall; simpl.
  - exists acc. split; [reflexivity|]. intros c.
    destruct (decide (c ∈ [])) as [Hin|_]; [inversion Hin|reflexivity].
  - destruct (Hall c0 (list_elem_of_here _ _)) as (v & res & Hv & Hres).
    rewrite Hv. simpl. rewrite Hres. simpl.
    destruct (IH (<[c0 := fst res]> acc)) as (r & Hr & Hlook).
    { intros c Hc. apply Hall, list_elem_of_further, Hc. }
    exists r. split; [exact Hr|]. intros c. rewrite Hlook.
    destruct (decide (c ∈ l)) as [Hin|Hnin].
    + destruct (decide (c ∈ c0 :: l)) as [_|Hn]; [reflexivity|].
      exfalso. apply Hn, list_elem_of_further, Hin.
    + destruct (decide (c = c0)) as [->|Hne].
      * rewrite lookup_insert_eq.
        destruct (decide (c0 ∈ c0 :: l)) as [_|Hn];
          [|exfalso; apply Hn, list_elem_of_here].
        unfold walk_alignment. rewrite Hv. simpl. rewrite Hres. reflexivity.
      * rewrite lookup_insert_ne by congruence.
        destruct (decide (c ∈ c0 :: l)) as [Hin|_]; [|reflexivity].
        apply elem_of_cons in Hin as [->|Hin]; [congruence|contradiction].
Qed.

Lemma gap_uniform_zero_frame self :
  weights self = zero_frame (seq1 self ++ seq2 self ++ [dash]) -> gap_uniform self.
Proof.
  intros Hw a b _ _. unfold wz. rewrite Hw. unfold zero_frame.
  destruct (ascii_in a _ && ascii_in dash _); destruct (ascii_in dash _ && ascii_in b _);
    reflexivity.
Qed.

Lemma select_fold_ret (fuel : nat) (self : Aligner) (m : ndarray)
    (indices : list coord) (acc r : gmap coord alignment) :
  foldM (fun (alignment_ : gmap coord alignment) start =>
    value <- Np.get m start ;;
    r <- local_walk fuel self m start value ([], []) [] ;;
    Ret (<[start := fst r]> alignment_)) acc indices = Ret r ->
  forall c, is_Some (r !! c) <-> c ∈ indices \/ is_Some (acc !! c).
Proof.
  revert acc. induction indices as [|c0 l IH]; intros acc; simpl.
  - intros H c. inversion H; subst. split; [auto|]. intros [Hin|Hs]; [inversion Hin|exact Hs].
  - intros H c. apply bind_Ret in H as (acc1 & Hstep & H).
    apply bind_Ret in Hstep as (v & _ & Hstep).
    apply bind_Ret in Hstep as (res & _ & Hstep). inversion Hstep; subst acc1.
    rewrite (IH _ H c), elem_of_cons, lookup_insert_is_Some. split.
    + intros [Hin|[->|[_ Hs]]]; auto.
    + intros [[->|Hin]|Hs]; auto.
      destruct (decide (c0 = c)) as [->|Hne]; auto.
Qed.

(** C5. A local run for which no result mapping is produced: with the
    table [gap_frame], [seq1 = AG], [seq2 = ACG], match 5, mismatch -10 and
    gap -1, the maximum 9 of the matrix is held by cell (2,3) alone. [cell]
    has written 4 into cell (1,2) from the left candidate
    [M[1,1] + gap + sub(A, -)], where the recurrence of the specification has
    the candidates [-10; -1; -1]. The walk from (2,3) moves to (1,2); there
    the left test reads [sub(-, C)], no neighbour passes its test and the
    value is not 0, so the loop repeats the same state and
    [select_local_alignment] exhausts every fuel. *)
Theorem local_traceback_never_returns :
  build aligner_AG = Ret matrix_AG /\
  Np.amax matrix_AG = Ret 9 /\
  Np.where_eq matrix_AG 9 = [(2, 3)] /\
  cell_available aligner_AG matrix_AG 1 2 = Ret [-10; 4; -6] /\
  Spec.candidates aligner_AG matrix_AG 1 2 = Ret [-10; -1; -1] /\
  traceback_step aligner_AG matrix_AG (2, 3) ([], []) =
    Ret ((1, 2), (["G"%char], ["G"%char]), 9) /\
  try_neighbours aligner_AG matrix_AG (1, 2) 4 (kept_neighbours (1, 2)) = Ret None /\
  forall fuel, select_local_alignment fuel aligner_AG matrix_AG = OutOfFuel.
Proof.
  repeat split; try (vm_compute; reflexivity).
  intros fuel. unfold select_local_alignment.
  replace (Np.amax matrix_AG) with (Ret (A:=Z) 9) by (vm_compute; reflexivity).
  cbn [bind].
  replace (Np.where_eq matrix_AG 9) with [((2, 3) : coord)] by (vm_compute; reflexivity).
  cbn [bind foldM].
  replace (Np.get matrix_AG (2, 3)) with (Ret (A:=Z) 9) by (vm_compute; reflexivity).
  cbn [bind].
  destruct fuel as [|[|fuel]]; [reflexivity|reflexivity|].
  assert (Hstuck : local_walk fuel aligner_AG matrix_AG (1, 2) 4
                     (["G"%char], ["G"%char]) (([] ++ [(2, 3)]) ++ [(1, 2)]) = OutOfFuel).
  { apply local_walk_stuck; [discriminate|vm_compute; reflexivity]. }
  change (local_walk (S (S fuel)) aligner_AG matrix_AG (2, 3) 9 ([], []) [])
    with (local_walk fuel aligner_AG matrix_AG (1, 2) 4
            (["G"%char], ["G"%char]) (([] ++ [(2, 3)]) ++ [(1, 2)])).
  rewrite Hstuck. reflexivity.
Qed.

(** * Further properties of the code *)

(** ** Letter case *)

Lemma upper_char_idem c : upper_char (upper_char c) = upper_char c.
Proof.
  destruct c as [b0 b1 b2 b3 b4 b5 b6 b7].
  destruct b0, b1, b2, b3, b4, b5, b6, b7; reflexivity.
Qed.

Lemma upper_idem s : upper (upper s) = upper s.
Proof.
  unfold upper. rewrite map_map. apply map_ext. intros c. apply upper_char_idem.
Qed.

(** X1. [__init__] puts both sequences in upper case before anything else
    reads them: a run on sequences in any letter case is the run on the
    upper-cased sequences, and the sequences the aligner holds are left
    unchanged by [upper()]. *)
Theorem run_ignores_case read_csv fuel s1 s2 m g mm w loc_ :
  run read_csv fuel s1 s2 m g mm w loc_
    = run read_csv fuel (upper s1) (upper s2) m g mm w loc_ /\
  forall a m0, Aligner_init read_csv s1 s2 m g mm w loc_ = Ret (a, m0) ->
    upper (seq1 a) = seq1 a /\ upper (seq2 a) = seq2 a.
Proof.
  split.
  - unfold run, Aligner_init. rewrite !upper_idem. reflexivity.
  - intros a m0 H. unfold Aligner_init in H.
    apply bind_Ret in H as (wt & _ & H). apply bind_Ret in H as (mt & _ & H).
    inversion H; subst a. simpl. split; apply upper_idem.
Qed.

(** ** Lookups a successful construction has made *)

Lemma foldM_Ret_all {S A} (f : S -> A -> outcome S) l s s' :
  foldM f s l = Ret s' ->
  forall x, x ∈ l -> exists s1 s2, f s1 x = Ret s2.
Proof.
  revert s. induction l as [|y l IH]; intros s H x Hx; [inversion Hx|].
  simpl in H. apply bind_Ret in H as (s1 & Hf & H).
  apply elem_of_cons in Hx as [->|Hx]; [eauto|exact (IH s1 H x Hx)].
Qed.

Lemma loc_Ret_is_Some w a b v : loc w (a, b) = Ret v -> is_Some (w a b).
Proof. unfold loc. simpl. destruct (w a b); [eauto|discriminate]. Qed.

Lemma border_pass_Ret_lookup self s pos n st st' x :
  len s = n ->
  foldM (border_pass self s pos) st (seqZ 0 n) = Ret st' ->
  x ∈ s -> is_Some (weights self dash x).
Proof.
  intros Hlen Hf Hx. apply list_elem_of_lookup in Hx as [k Hk].
  destruct (foldM_Ret_all _ _ _ _ Hf (Z.of_nat k)) as (s1 & s2 & Hp).
  { apply elem_of_seqZ. apply lookup_lt_Some in Hk. unfold len in Hlen. lia. }
  unfold border_pass in Hp. apply bind_Ret in Hp as (c & Hc & Hp).
  apply bind_Ret in Hp as (w & Hw & _).
  rewrite (getitem_ok s (Z.of_nat k) x) in Hc by (try lia; rewrite Nat2Z.id; exact Hk).
  inversion Hc; subst c. exact (loc_Ret_is_Some _ _ _ _ Hw).
Qed.

Lemma cell_Ret_lookup self m i j v a b :
  seq1 self !! Z.to_nat (i - 1) = Some a -> seq2 self !! Z.to_nat (j - 1) = Some b ->
  1 <= i -> 1 <= j ->
  cell self m i j = Ret v ->
  is_Some (weights self a b) /\ is_Some (weights self a dash) /\
  is_Some (weights self dash b).
Proof.
  intros Ha Hb Hi Hj H. unfold cell in H. apply bind_Ret in H as (av & H & _).
  unfold cell_available in H.
  rewrite (getitem_ok _ (i - 1) a) in H by (try lia; exact Ha).
  rewrite (getitem_ok _ (j - 1) b) in H by (try lia; exact Hb).
  simpl in H.
  apply bind_Ret in H as (y1 & H1 & H). apply bind_Ret in H1 as (w1 & Hw1 & _).
  apply bind_Ret in H as (ys & H & _).
  apply bind_Ret in H as (y2 & H2 & H). apply bind_Ret in H2 as (w2 & Hw2 & _).
  apply bind_Ret in H as (ys' & H & _).
  apply bind_Ret in H as (y3 & H3 & _). apply bind_Ret in H3 as (w3 & Hw3 & _).
  repeat split; eapply loc_Ret_is_Some; eassumption.
Qed.

(** X2. A matrix construction that completes has found in the table every
    pair it reads: in global mode the entry of the gap with each symbol of
    the run and with the gap itself, and in both modes, for every symbol [a]
    of [seq1] and [b] of [seq2], the entries [(a, b)], [(a, -)] and [(-, b)].
    A table lacking one of them makes the construction raise. *)
Theorem build_needs_pairs self m :
  build self = Ret m ->
  (local self = false -> covers_gap_row self) /\
  (forall a b, a ∈ seq1 self -> b ∈ seq2 self ->
     is_Some (weights self a b) /\ is_Some (weights self a dash) /\
     is_Some (weights self dash b)).
Proof.
  intros Hb. unfold build in Hb. apply bind_Ret in Hb as (m0 & Hinit & Hal). split.
  - intros Hl x Hx. rewrite (init_matrix_global self Hl) in Hinit.
    apply bind_Ret in Hinit as (r0 & H0 & Hinit).
    apply bind_Ret in Hinit as (r1 & H1 & _).
    assert (Hl1 : len (dash :: seq1 self) = rows self)
      by (unfold rows, len; simpl; lia).
    assert (Hl2 : len (dash :: seq2 self) = cols self)
      by (unfold cols, len; simpl; lia).
    unfold symbols in Hx. apply elem_of_cons in Hx as [->|Hx].
    + apply (border_pass_Ret_lookup self _ _ _ _ _ dash Hl1 H0), list_elem_of_here.
    + apply elem_of_app in Hx as [Hx|Hx].
      * apply (border_pass_Ret_lookup self _ _ _ _ _ x Hl1 H0).
        apply list_elem_of_further, Hx.
      * apply (border_pass_Ret_lookup self _ _ _ _ _ x Hl2 H1).
        apply list_elem_of_further, Hx.
  - intros a b Ha Hbb.
    apply list_elem_of_lookup in Ha as [ka Hka]. apply list_elem_of_lookup in Hbb as [kb Hkb].
    unfold align in Hal.
    destruct (foldM_Ret_all _ _ _ _ Hal (Z.of_nat ka + 1)) as (m1 & m2 & Hrow).
    { unfold range2. apply elem_of_seqZ. apply lookup_lt_Some in Hka. unfold len. lia. }
    destruct (foldM_Ret_all _ _ _ _ Hrow (Z.of_nat kb + 1)) as (m3 & m4 & Hcell).
    { unfold range2. apply elem_of_seqZ. apply lookup_lt_Some in Hkb. unfold len. lia. }
    apply bind_Ret in Hcell as (v & Hcell & _).
    apply (cell_Ret_lookup self m3 _ _ v a b) in Hcell; try lia; [exact Hcell| |].
    + replace (Z.to_nat (Z.of_nat ka + 1 - 1)) with ka by lia. exact Hka.
    + replace (Z.to_nat (Z.of_nat kb + 1 - 1)) with kb by lia. exact Hkb.
Qed.

Lemma build_needs_pairs_witness :
  (local aligner_star = false -> covers_gap_row aligner_star) /\
  (forall a b, a ∈ seq1 aligner_star -> b ∈ seq2 aligner_star ->
     is_Some (weights aligner_star a b) /\ is_Some (weights aligner_star a dash) /\
     is_Some (weights aligner_star dash b)).
Proof.
  apply (build_needs_pairs aligner_star [[1; -8]; [-8; 0]]).
  vm_compute. reflexivity.
Defined.

(** ** Empty sequences in the global traceback *)

Lemma getitem_nil {A} k : getitem (@nil A) k = Raise IndexError.
Proof.
  unfold getitem. replace (norm_index (len (@nil A)) k) with (@None nat); [reflexivity|].
  unfold norm_index, len. simpl length. change (Z.of_nat 0) with 0. symmetry.
  destruct (k <? 0).
  - destruct (Z.leb_spec 0 (k + 0)); [|reflexivity].
    destruct (Z.ltb_spec (k + 0) 0); [lia|reflexivity].
  - destruct (Z.leb_spec 0 k); [|reflexivity].
    destruct (Z.ltb_spec k 0); [lia|reflexivity].
Qed.

Lemma shape_of_shaped r c m : shaped r c m -> 1 <= r -> Np.shape m = (r, c).
Proof.
  intros [Hr Hc] H1. unfold Np.shape. rewrite Hr. destruct m as [|row m].
  - unfold len in Hr. simpl in Hr. lia.
  - inversion Hc; subst. reflexivity.
Qed.

Lemma kept_row0 j : 1 <= j -> kept_neighbours (0, j) = [(0, j - 1)].
Proof.
  intros Hj. unfold kept_neighbours, get_neighbours. simpl.
  destruct (Z.leb_spec 0 (j - 1)); [|lia]. reflexivity.
Qed.

Lemma kept_col0 i : 1 <= i -> kept_neighbours (i, 0) = [(i - 1, 0)].
Proof.
  intros Hi. unfold kept_neighbours, get_neighbours. simpl.
  destruct (Z.leb_spec 0 (i - 1)); [|lia].
  destruct (Z.leb_spec 0 i); [|lia]. simpl. reflexivity.
Qed.

(** X3. When exactly one of the two sequences is empty, the global
    traceback raises [IndexError] in its first iteration, whatever the
    scores: walking along the border it reads the last symbol of the empty
    sequence. When both are empty it returns the empty alignment at once. *)
Theorem global_traceback_empty_sequence self m fuel :
  shaped (rows self) (cols self) m ->
  ((seq1 self = [] /\ seq2 self <> []) \/ (seq1 self <> [] /\ seq2 self = []) ->
   select_global_alignment (S fuel) self m = Raise IndexError) /\
  (seq1 self = [] /\ seq2 self = [] ->
   select_global_alignment (S fuel) self m = Ret {[ (0, 0) := ([], []) ]}).
Proof.
  intros Hs. unfold select_global_alignment.
  rewrite (shape_of_shaped _ _ m Hs) by (unfold rows, len; lia). simpl fst. simpl snd.
  split.
  - intros [[H1 H2]|[H1 H2]].
    + assert (Hl : 1 <= len (seq2 self)).
      { destruct (seq2 self); [congruence|]. unfold len. simpl. lia. }
      unfold rows, cols in *. rewrite H1 in *. unfold len at 1. simpl.
      replace (len (seq2 self) + 1 - 1) with (len (seq2 self)) by lia.
      destruct (Z.leb_spec 1 (len (seq2 self))); [|lia]. simpl.
      unfold traceback_step.
      rewrite (get_ok _ _ m _ Hs) by (unfold in_range, len; simpl; lia). simpl.
      rewrite kept_row0 by lia. simpl. rewrite H1, getitem_nil. reflexivity.
    + assert (Hl : 1 <= len (seq1 self)).
      { destruct (seq1 self); [congruence|]. unfold len. simpl. lia. }
      unfold rows, cols in *. rewrite H2 in *. unfold len at 2. simpl.
      replace (len (seq1 self) + 1 - 1) with (len (seq1 self)) by lia.
      destruct (Z.leb_spec 1 (len (seq1 self))); [|lia]. simpl.
      unfold traceback_step.
      rewrite (get_ok _ _ m _ Hs) by (unfold in_range, len; simpl; lia). simpl.
      rewrite kept_col0 by lia. simpl.
      destruct (getitem_in_range (seq1 self) (len (seq1 self) - 1)) as (x & Hx & _);
        [lia|].
      rewrite Hx. simpl. rewrite H2, getitem_nil. reflexivity.
  - intros [H1 H2]. unfold rows, cols. rewrite H1, H2. reflexivity.
Qed.

Lemma global_traceback_empty_sequence_witness :
  ((seq1 aligner_empty = [] /\ seq2 aligner_empty <> []) \/
   (seq1 aligner_empty <> [] /\ seq2 aligner_empty = []) ->
   select_global_alignment 1 aligner_empty [[0; -1; -2]] = Raise IndexError) /\
  (seq1 aligner_empty = [] /\ seq2 aligner_empty = [] ->
   select_global_alignment 1 aligner_empty [[0; -1; -2]]
   = Ret {[ (0, 0) := ([], []) ]}).
Proof.
  apply (global_traceback_empty_sequence aligner_empty [[0; -1; -2]] 0).
  split; [reflexivity|]. repeat constructor.
Defined.

(** ** The filled matrix *)

(** What [init_matrix] returns in global mode: the border values. *)
Lemma init_matrix_spec self :
  local self = false -> covers_gap_row self ->
  exists m, init_matrix self = Ret m /\
    shaped (rows self) (cols self) m /\
    (forall k, 0 <= k <= len (seq2 self) ->
       cellv m (0, k) = border_value self (dash :: seq2 self) k) /\
    (forall k, 0 <= k <= len (seq1 self) ->
       cellv m (k, 0) = border_value self (dash :: seq1 self) k).
Proof.
  intros Hl Hc. rewrite (init_matrix_global self Hl).
  destruct (rows_cols_nonneg self) as [Hr Hcc].
  destruct (border_pass_spec self (dash :: seq1 self) (fun ax => (ax, 0))
              (fun _ => False) (Np.zeros (rows self) (cols self)) (rows self))
    as (m1 & c1 & Hf1 & Hs1 & Hb1 & _); try assumption.
  { intros x Hx. apply elem_of_cons in Hx as [->|Hx];
      [apply dash_symbol|apply seq1_symbol, Hx]. }
  { unfold rows, len. simpl. lia. }
  { apply zeros_shaped; assumption. }
  { intros k Hk. unfold in_range, rows, cols, len in *. simpl. lia. }
  { intros k k' _ _ He. congruence. }
  { intros k q _ []. }
  rewrite Hf1. simpl.
  destruct (border_pass_spec self (dash :: seq2 self) (fun ax => (0, ax))
              (fun q => 1 <= fst q /\ snd q = 0) m1 (cols self))
    as (m2 & c2 & Hf2 & Hs2 & Hb2 & Hk2); try assumption.
  { intros x Hx. apply elem_of_cons in Hx as [->|Hx];
      [apply dash_symbol|apply seq2_symbol, Hx]. }
  { unfold cols, len. simpl. lia. }
  { intros k Hk. unfold in_range, rows, cols, len in *. simpl. lia. }
  { intros k k' _ _ He. congruence. }
  { intros k q _ [Hq _] ->. simpl in Hq. lia. }
  rewrite Hf2. simpl. exists m2. split; [reflexivity|]. split; [exact Hs2|]. split.
  - intros k Hk. apply Hb2. unfold cols. lia.
  - intros k Hk. destruct (decide (k = 0)) as [->|Hne].
    + rewrite (Hb2 0) by (unfold cols, len; lia). rewrite !border_value_zero. reflexivity.
    + rewrite Hk2; [apply Hb1; unfold rows; lia| |simpl; lia].
      unfold in_range, rows, cols, len in *. simpl. lia.
Qed.

Lemma covers_gap_row_of_covers self : covers self -> covers_gap_row self.
Proof. intros Hc x Hx. apply Hc; [apply dash_symbol|exact Hx]. Qed.

(** The built matrix of a run whose table has the pairs it reads. *)
Lemma build_spec self :
  covers self ->
  exists m0 m, init_matrix self = Ret m0 /\ align self m0 = Ret m /\
    shaped (rows self) (cols self) m0 /\
    fill_inv self m0 m (len (seq1 self) + 1) 1.
Proof.
  intros Hc. destruct (local self) eqn:Hl.
  - destruct (rows_cols_nonneg self) as [Hr Hcc].
    destruct (align_spec self (Np.zeros (rows self) (cols self)) Hc) as (m & Hal & Hinv).
    { apply zeros_shaped; assumption. }
    { intros _. apply zeros_nonneg. }
    exists (Np.zeros (rows self) (cols self)), m.
    split; [unfold init_matrix; rewrite Hl; reflexivity|].
    split; [exact Hal|]. split; [apply zeros_shaped; assumption|exact Hinv].
  - destruct (init_matrix_spec self Hl (covers_gap_row_of_covers self Hc))
      as (m0 & Hi & Hs & _).
    destruct (align_spec self m0 Hc Hs) as (m & Hal & Hinv); [congruence|].
    exists m0, m. auto.
Qed.

(** X4. Whenever the table has the pairs of the run, [init_matrix] and
    [align()] return, and the filled matrix is a fixed point of the fill: at
    every interior cell, [cell(i, j)] evaluated on the final matrix returns
    the value stored there (clamped at 0 in local mode); row 0 and column 0
    are as [init_matrix] left them. *)
Theorem align_fixed_point self :
  covers self ->
  exists m0 m, init_matrix self = Ret m0 /\ align self m0 = Ret m /\
    shaped (rows self) (cols self) m /\
    (forall q, in_range (rows self) (cols self) q -> fst q = 0 \/ snd q = 0 ->
       cellv m q = cellv m0 q) /\
    (forall i j, 1 <= i <= len (seq1 self) -> 1 <= j <= len (seq2 self) ->
       exists v, cell self m i j = Ret v /\
                 cellv m (i, j) = check_non_negativity self v).
Proof.
  intros Hc. destruct (build_spec self Hc) as (m0 & m & Hi & Hal & _ & Hs & Hb & Hf & _).
  exists m0, m. split; [exact Hi|]. split; [exact Hal|]. split; [exact Hs|].
  split; [exact Hb|]. intros i j Hi' Hj'.
  exists (rec_value self m i j). split; [apply cell_ok; assumption|].
  apply Hf; lia.
Qed.

Lemma align_fixed_point_witness :
  exists m0 m, init_matrix aligner_star = Ret m0 /\ align aligner_star m0 = Ret m /\
    shaped (rows aligner_star) (cols aligner_star) m /\
    (forall q, in_range (rows aligner_star) (cols aligner_star) q ->
       fst q = 0 \/ snd q = 0 -> cellv m q = cellv m0 q) /\
    (forall i j, 1 <= i <= len (seq1 aligner_star) ->
       1 <= j <= len (seq2 aligner_star) ->
       exists v, cell aligner_star m i j = Ret v /\
                 cellv m (i, j) = check_non_negativity aligner_star v).
Proof.
  apply (align_fixed_point aligner_star).
  intros a b _ _. eexists. reflexivity.
Defined.

Lemma foldM_inv_ret_mem {S A} (I : S -> Prop) (f : S -> A -> outcome S) l s s' :
  I s -> (forall x s s1, x ∈ l -> I s -> f s x = Ret s1 -> I s1) ->
  foldM f s l = Ret s' -> I s'.
Proof.
  intros HI Hstep. revert s HI. induction l as [|x l IH]; intros s HI; simpl.
  - intros H. inversion H; subst. exact HI.
  - intros H. apply bind_Ret in H as (s1 & Hf & H). apply (IH) with (s := s1).
    + intros y t t1 Hy. apply Hstep. apply list_elem_of_further, Hy.
    + exact (Hstep x s s1 (list_elem_of_here _ _) HI Hf).
    + exact H.
Qed.

(** X5. [align()] writes interior cells only: whatever the table, a matrix
    that [init_matrix] and [align()] return in local mode has 0 in every
    cell of row 0 and of column 0. *)
Theorem local_border_zero_after_align self m :
  local self = true -> build self = Ret m ->
  forall q, in_range (rows self) (cols self) q -> fst q = 0 \/ snd q = 0 ->
    cellv m q = 0.
Proof.
  intros Hl Hb. unfold build, init_matrix in Hb. rewrite Hl in Hb. simpl in Hb.
  destruct (rows_cols_nonneg self) as [Hr Hc].
  pose (I := fun m : ndarray =>
               shaped (rows self) (cols self) m /\
               forall q, in_range (rows self) (cols self) q ->
                 fst q = 0 \/ snd q = 0 -> cellv m q = 0).
  assert (Hstep : forall i j m1 m2, 1 <= i <= len (seq1 self) ->
            1 <= j <= len (seq2 self) -> I m1 ->
            (v <- cell self m1 i j ;;
             Np.set m1 (i, j) (check_non_negativity self v)) = Ret m2 -> I m2).
  { intros i j m1 m2 Hi Hj [Hs Hz] H. apply bind_Ret in H as (v & _ & Hset).
    destruct (set_ok (rows self) (cols self) m1 (i, j)
                (check_non_negativity self v) Hs) as (m' & Hset' & Hs' & Hfr & _).
    { unfold in_range, rows, cols. simpl. lia. }
    assert (m' = m2) by congruence. subst m'. split; [exact Hs'|].
    intros q Hq Hq0. rewrite (Hfr q Hq).
    destruct (decide (q = (i, j))) as [->|_]; [simpl in Hq0; lia|].
    apply Hz; assumption. }
  unfold align in Hb.
  apply (foldM_inv_ret_mem I) in Hb; [apply Hb| |].
  - split; [apply zeros_shaped; assumption|]. intros q _ _. apply cellv_zeros.
  - intros i m1 m2 Hi Hinv Hrow.
    apply (foldM_inv_ret_mem I) in Hrow; [exact Hrow|exact Hinv|].
    intros j m3 m4 Hj. unfold range2 in Hi, Hj.
    apply elem_of_seqZ in Hi. apply elem_of_seqZ in Hj. apply Hstep; lia.
Qed.

Lemma local_border_zero_after_align_witness : cellv textbook_matrix (0, 3) = 0.
Proof.
  apply (local_border_zero_after_align aligner_textbook textbook_matrix).
  - reflexivity.
  - vm_compute. reflexivity.
  - vm_compute. repeat split; discriminate.
  - left. reflexivity.
Defined.

(** ** The moves of a traceback *)

Lemma kept_elem current q :
  q ∈ kept_neighbours current ->
  0 <= fst q /\ 0 <= snd q /\
  (q = (fst current - 1, snd current - 1) \/ q = (fst current, snd current - 1)
   \/ q = (fst current - 1, snd current)).
Proof.
  unfold kept_neighbours, get_neighbours. intros Hq.
  apply list_elem_of_In, filter_In in Hq as [Hq Hnn].
  apply andb_true_iff in Hnn as [H1 H2]. apply Z.leb_le in H1, H2.
  split; [exact H1|]. split; [exact H2|].
  simpl in Hq. destruct Hq as [<-|[<-|[<-|[]]]]; auto.
Qed.

(** What a successful test tells: which neighbour, which pair, which
    equation. *)
Lemma try_neighbours_emit self m current value idx index a b :
  (forall q, q ∈ idx -> q ∈ kept_neighbours current) ->
  try_neighbours self m current value idx = Ret (Some (index, (a, b))) ->
  let i := fst current in
  let j := snd current in
  (index = (i - 1, j - 1) /\ 1 <= i /\ 1 <= j /\
   seq1 self !! Z.to_nat (i - 1) = Some a /\ seq2 self !! Z.to_nat (j - 1) = Some b /\
   ((value - cellv m index = match_ self + wz self a b /\ a = b) \/
    value - cellv m index = mismatch self + wz self a b)) \/
  (index = (i, j - 1) /\ 1 <= j /\ a = dash /\
   seq2 self !! Z.to_nat (j - 1) = Some b /\
   value - cellv m index = gap self + wz self dash b) \/
  (index = (i - 1, j) /\ 1 <= i /\ b = dash /\
   seq1 self !! Z.to_nat (i - 1) = Some a /\
   value - cellv m index = gap self + wz self a dash).
Proof.
  intros Hidx H i j. induction idx as [|i0 idx IH]; simpl in H; [discriminate|].
  assert (Hrest : forall q, q ∈ idx -> q ∈ kept_neighbours current).
  { intros q Hq. apply Hidx, list_elem_of_further, Hq. }
  destruct (kept_elem current i0 (Hidx i0 (list_elem_of_here _ _))) as (Hn1 & Hn2 & Hi0).
  fold i j in Hi0.
  apply bind_Ret in H as (s1 & Hs1 & H).
  apply bind_Ret in H as (s2 & Hs2 & H).
  apply bind_Ret in H as (bt & Hbt & H).
  apply get_cellv in Hbt. fold i in Hs1. fold j in Hs2.
  destruct ((fst i0 + 1 =? fst current) && (snd i0 + 1 =? snd current)) eqn:Hd.
  - apply bind_Ret in H as (w & Hw & H). apply loc_wz in Hw.
    destruct (((value - bt =? match_ self + w) && Ascii.eqb s1 s2)
              || (value - bt =? mismatch self + w)) eqn:Ht; [|exact (IH Hrest H)].
    inversion H; subst index a b. clear H IH. left.
    apply andb_true_iff in Hd as [Hd1 Hd2]. apply Z.eqb_eq in Hd1, Hd2. fold i in Hd1.
    fold j in Hd2.
    assert (Hi : 1 <= i) by lia. assert (Hj : 1 <= j) by lia.
    rewrite getitem_nonneg in Hs1, Hs2 by lia.
    destruct (seq1 self !! Z.to_nat (i - 1)) as [x|]; [|discriminate].
    destruct (seq2 self !! Z.to_nat (j - 1)) as [y|]; [|discriminate].
    inversion Hs1; inversion Hs2; subst x y.
    split; [destruct i0; simpl in *; f_equal; lia|].
    repeat (split; [assumption || reflexivity|]).
    rewrite Hbt, Hw. apply orb_true_iff in Ht as [Ht|Ht].
    + apply andb_true_iff in Ht as [Ht He]. apply Z.eqb_eq in Ht.
      apply Ascii.eqb_eq in He. left. auto.
    + apply Z.eqb_eq in Ht. right. exact Ht.
  - assert (Hnd : i0 <> (i - 1, j - 1)).
    { intros ->. simpl in Hd. unfold i, j in Hd.
      rewrite !(proj2 (Z.eqb_eq _ _)) in Hd by lia. discriminate. }
    destruct (negb (fst current - fst i0 =? 0)) eqn:Hu.
    + apply bind_Ret in H as (w & Hw & H). apply loc_wz in Hw.
      destruct (value - bt =? gap self + w) eqn:Ht; [|exact (IH Hrest H)].
      inversion H; subst index a b. clear H IH. right. right.
      apply negb_true_iff, Z.eqb_neq in Hu. fold i in Hu.
      assert (He : i0 = (i - 1, j)).
      { destruct Hi0 as [-> | [-> | ->]]; [congruence|simpl in Hu; lia|reflexivity]. }
      subst i0. simpl in Hn1.
      rewrite getitem_nonneg in Hs1 by lia.
      destruct (seq1 self !! Z.to_nat (i - 1)) as [x|]; [|discriminate].
      inversion Hs1; subst x. apply Z.eqb_eq in Ht.
      split; [reflexivity|]. split; [lia|]. split; [reflexivity|].
      split; [reflexivity|]. congruence.
    + apply bind_Ret in H as (w & Hw & H). apply loc_wz in Hw.
      destruct (value - bt =? gap self + w) eqn:Ht; [|exact (IH Hrest H)].
      inversion H; subst index a b. clear H IH. right. left.
      apply negb_false_iff, Z.eqb_eq in Hu. fold i in Hu.
      assert (He : i0 = (i, j - 1)).
      { destruct Hi0 as [-> | [-> | ->]]; [congruence|reflexivity|simpl in Hu; lia]. }
      subst i0. simpl in Hn2.
      rewrite getitem_nonneg in Hs2 by lia.
      destruct (seq2 self !! Z.to_nat (j - 1)) as [y|]; [|discriminate].
      inversion Hs2; subst y. apply Z.eqb_eq in Ht.
      split; [reflexivity|]. split; [lia|]. split; [reflexivity|].
      split; [reflexivity|]. congruence.
Qed.

Lemma step_value self m c al r :
  traceback_step self m c al = Ret r ->
  snd r = cellv m c /\
  ((fst (fst r) = c /\ snd (fst r) = al /\
    try_neighbours self m c (cellv m c) (kept_neighbours c) = Ret None) \/
   exists a b,
     snd (fst r) = (fst al ++ [a], snd al ++ [b]) /\
     try_neighbours self m c (cellv m c) (kept_neighbours c)
       = Ret (Some (fst (fst r), (a, b)))).
Proof.
  unfold traceback_step. intros H.
  apply bind_Ret in H as (v & Hv & H). apply get_cellv in Hv. subst v.
  apply bind_Ret in H as (o & Ho & H). destruct o as [[index [a b]]|].
  - inversion H; subst r. simpl. split; [reflexivity|]. right. eauto.
  - inversion H; subst r. simpl. split; [reflexivity|]. left. auto.
Qed.

(** A global walk that returns has appended the columns of a chain of
    moves from its start to a cell with both coordinates below 1. *)
Lemma global_walk_chain fuel self m c al al' :
  global_walk fuel self m c al = Ret al' ->
  exists cs c_end,
    al' = (fst al ++ map fst cs, snd al ++ map snd cs) /\
    chain self m c cs c_end /\ fst c_end < 1 /\ snd c_end < 1.
Proof.
  revert c al. induction fuel as [|fuel IH]; intros c al; simpl; [discriminate|].
  destruct ((1 <=? fst c) || (1 <=? snd c)) eqn:Hc.
  - intros H. apply bind_Ret in H as (r & Hstep & H).
    destruct (IH _ _ H) as (cs & c_end & Hal & Hch & He1 & He2).
    destruct (step_value _ _ _ _ _ Hstep) as (_ & [(Hc' & Hal' & _)|(a & b & Hal' & Htry)]).
    + rewrite Hc', Hal' in *. exists cs, c_end. auto.
    + exists ((a, b) :: cs), c_end. rewrite Hal' in Hal. simpl in Hal.
      rewrite <- !app_assoc in Hal. simpl in Hal.
      split; [exact Hal|]. split; [|auto]. simpl. eauto.
  - intros H. injection H as <-. apply orb_false_iff in Hc as [H1 H2].
    apply Z.leb_gt in H1, H2.
    exists [], c. simpl. rewrite !app_nil_r. split; [destruct al; reflexivity|]. auto.
Qed.

(** A local walk that returns has appended the columns of a chain of moves
    from its start. *)
Lemma local_walk_chain fuel self m c value al path al' path' :
  local_walk fuel self m c value al path = Ret (al', path') ->
  exists cs c_end,
    al' = (fst al ++ map fst cs, snd al ++ map snd cs) /\
    chain self m c cs c_end.
Proof.
  revert c value al path. induction fuel as [|fuel IH]; intros c value al path; simpl;
    [discriminate|].
  destruct (Z.eqb_spec value 0) as [Hz|Hnz]; simpl.
  - intros H. injection H as <- <-. exists [], c. simpl. rewrite !app_nil_r.
    split; [destruct al; reflexivity|reflexivity].
  - intros H. apply bind_Ret in H as (r & Hstep & H).
    destruct (IH _ _ _ _ H) as (cs & c_end & Hal & Hch).
    destruct (step_value _ _ _ _ _ Hstep) as (_ & [(Hc' & Hal' & _)|(a & b & Hal' & Htry)]).
    + rewrite Hc', Hal' in *. exists cs, c_end. auto.
    + exists ((a, b) :: cs), c_end. rewrite Hal' in Hal. simpl in Hal.
      rewrite <- !app_assoc in Hal. simpl in Hal.
      split; [exact Hal|]. simpl. eauto.
Qed.

(** ** What the rows of an alignment spell *)

Lemma strip_app l l' : strip (l ++ l') = strip l ++ strip l'.
Proof. apply List.filter_app. Qed.

Lemma strip_symbol a (s : list ascii) : a ∈ s -> dash ∉ s -> strip [a] = [a].
Proof.
  intros Ha Hd. unfold strip. simpl.
  destruct (Ascii.eqb_spec a dash) as [->|_]; [contradiction|reflexivity].
Qed.

Lemma strip_dash : strip [dash] = [].
Proof. reflexivity. Qed.

Lemma strip_length_rev l : length (strip (rev l)) = length (strip l).
Proof. unfold strip. rewrite List.filter_rev, length_rev. reflexivity. Qed.

Lemma strip_length_le l : (length (strip l) <= length l)%nat.
Proof.
  induction l as [|x l IH]; simpl; [lia|].
  destruct (negb (Ascii.eqb x dash)); simpl; lia.
Qed.

(** Consuming the symbol at position [i - 1] extends the spelled segment. *)
Lemma spell_consume (s : list ascii) a i e :
  s !! Z.to_nat (i - 1) = Some a -> 1 <= i -> 0 <= e <= i - 1 -> dash ∉ s ->
  drop (Z.to_nat e) (take (Z.to_nat (i - 1)) s) ++ strip [a]
  = drop (Z.to_nat e) (take (Z.to_nat i) s).
Proof.
  intros Ha Hi He Hd.
  rewrite (strip_symbol a s) by (try assumption; eapply list_elem_of_lookup_2; exact Ha).
  replace (Z.to_nat i) with (S (Z.to_nat (i - 1))) by lia.
  rewrite (take_S_r _ _ _ Ha). rewrite drop_app_le; [reflexivity|].
  rewrite length_take_le; [lia|]. apply lookup_lt_Some in Ha. lia.
Qed.

Lemma chain_spell self m cs :
  dash ∉ seq1 self -> dash ∉ seq2 self ->
  forall c c_end, 0 <= fst c -> 0 <= snd c -> chain self m c cs c_end ->
    0 <= fst c_end <= fst c /\ 0 <= snd c_end <= snd c /\
    strip (rev (map fst cs))
      = drop (Z.to_nat (fst c_end)) (take (Z.to_nat (fst c)) (seq1 self)) /\
    strip (rev (map snd cs))
      = drop (Z.to_nat (snd c_end)) (take (Z.to_nat (snd c)) (seq2 self)) /\
    Forall (fun col => col <> (dash, dash)) cs.
Proof.
  intros Hd1 Hd2. induction cs as [|[a b] cs IH]; intros c c_end Hi Hj Hch.
  - simpl in Hch. subst c_end. simpl. split; [lia|]. split; [lia|].
    rewrite !drop_ge by (rewrite length_take; lia). auto.
  - simpl in Hch. destruct Hch as (index & Htry & Hch).
    apply try_neighbours_emit in Htry; [|auto]. cbv zeta in Htry.
    simpl map. simpl rev. rewrite !strip_app.
    destruct Htry as [(-> & H1 & H2 & Ha & Hb & _)|[(-> & H2 & -> & Hb & _)|(-> & H1 & -> & Ha & _)]].
    + assert (Hn1 : 0 <= fst (fst c - 1, snd c - 1)) by (simpl; lia).
      assert (Hn2 : 0 <= snd (fst c - 1, snd c - 1)) by (simpl; lia).
      destruct (IH _ _ Hn1 Hn2 Hch) as (He1 & He2 & Hs1 & Hs2 & Hf).
      simpl fst in *. simpl snd in *.
      split; [lia|]. split; [lia|]. rewrite Hs1, Hs2.
      split; [apply spell_consume; assumption|].
      split; [apply spell_consume; assumption|].
      constructor; [|exact Hf]. intros Heq. inversion Heq; subst a.
      apply Hd1. eapply list_elem_of_lookup_2. exact Ha.
    + assert (Hn1 : 0 <= fst (fst c, snd c - 1)) by (simpl; lia).
      assert (Hn2 : 0 <= snd (fst c, snd c - 1)) by (simpl; lia).
      destruct (IH _ _ Hn1 Hn2 Hch) as (He1 & He2 & Hs1 & Hs2 & Hf).
      simpl fst in *. simpl snd in *.
      split; [lia|]. split; [lia|]. rewrite Hs1, Hs2, strip_dash, app_nil_r.
      split; [reflexivity|]. split; [apply spell_consume; assumption|].
      constructor; [|exact Hf]. intros Heq. inversion Heq; subst b.
      apply Hd2. eapply list_elem_of_lookup_2. exact Hb.
    + assert (Hn1 : 0 <= fst (fst c - 1, snd c)) by (simpl; lia).
      assert (Hn2 : 0 <= snd (fst c - 1, snd c)) by (simpl; lia).
      destruct (IH _ _ Hn1 Hn2 Hch) as (He1 & He2 & Hs1 & Hs2 & Hf).
      simpl fst in *. simpl snd in *.
      split; [lia|]. split; [lia|]. rewrite Hs1, Hs2, strip_dash, app_nil_r.
      split; [apply spell_consume; assumption|]. split; [reflexivity|].
      constructor; [|exact Hf]. intros Heq. inversion Heq; subst a.
      apply Hd1. eapply list_elem_of_lookup_2. exact Ha.
Qed.

Lemma columns_bound (cs : list (ascii * ascii)) :
  Forall (fun col => col <> (dash, dash)) cs ->
  (length cs <= length (strip (map fst cs)) + length (strip (map snd cs)))%nat.
Proof.
  induction 1 as [|[a b] cs Hne _ IH]; simpl; [lia|].
  destruct (Ascii.eqb_spec a dash) as [->|_];
    destruct (Ascii.eqb_spec b dash) as [->|_]; simpl; try lia.
  congruence.
Qed.

(** X6. Whatever the table and the scores, an alignment that the global
    traceback returns for sequences without the gap symbol has two rows of
    the same length which, written as [print_alignment] writes them and with
    the gaps taken out, are [seq1] and [seq2]; its length lies between the
    longer sequence and the sum of the two lengths, and it is the single
    entry of the result, keyed by the bottom right cell. *)
Theorem global_rows_spell self m fuel r :
  shaped (rows self) (cols self) m ->
  dash ∉ seq1 self -> dash ∉ seq2 self ->
  select_global_alignment fuel self m = Ret r ->
  exists al, r = {[ (len (seq1 self), len (seq2 self)) := al ]} /\
    length (fst al) = length (snd al) /\
    strip (printed (fst al)) = seq1 self /\
    strip (printed (snd al)) = seq2 self /\
    (length (seq1 self) <= length (fst al))%nat /\
    (length (seq2 self) <= length (fst al))%nat /\
    (length (fst al) <= length (seq1 self) + length (seq2 self))%nat.
Proof.
  intros Hs Hd1 Hd2 H. unfold select_global_alignment in H.
  rewrite (shape_of_shaped _ _ m Hs) in H by (unfold rows, len; lia).
  simpl fst in H. simpl snd in H.
  apply bind_Ret in H as (al & Hw & H). injection H as <-.
  unfold rows, cols in Hw |- *.
  replace (len (seq1 self) + 1 - 1) with (len (seq1 self)) in * by lia.
  replace (len (seq2 self) + 1 - 1) with (len (seq2 self)) in * by lia.
  exists al. split; [reflexivity|].
  destruct (global_walk_chain _ _ _ _ _ _ Hw) as (cs & c_end & Hal & Hch & He1 & He2).
  simpl in Hal. subst al. simpl.
  assert (Hn1 : 0 <= fst (len (seq1 self), len (seq2 self))) by (unfold len; simpl; lia).
  assert (Hn2 : 0 <= snd (len (seq1 self), len (seq2 self))) by (unfold len; simpl; lia).
  destruct (chain_spell self m cs Hd1 Hd2 _ _ Hn1 Hn2 Hch) as (Hc1 & Hc2 & Hs1 & Hs2 & Hf).
  simpl in Hs1, Hs2.
  replace (Z.to_nat (fst c_end)) with 0%nat in Hs1 by lia.
  replace (Z.to_nat (snd c_end)) with 0%nat in Hs2 by lia.
  rewrite drop_0, take_ge in Hs1, Hs2 by (unfold len; lia).
  unfold printed. rewrite !length_map.
  split; [reflexivity|]. split; [exact Hs1|]. split; [exact Hs2|].
  pose proof (strip_length_le (rev (map fst cs))) as L1.
  pose proof (strip_length_le (rev (map snd cs))) as L2.
  rewrite Hs1, length_rev, length_map in L1. rewrite Hs2, length_rev, length_map in L2.
  split; [exact L1|]. split; [exact L2|].
  pose proof (columns_bound cs Hf) as L3.
  rewrite <- (strip_length_rev (map fst cs)), <- (strip_length_rev (map snd cs)) in L3.
  rewrite Hs1, Hs2 in L3. exact L3.
Qed.

Lemma global_rows_spell_witness :
  exists al,
    ({[ (7, 7) := (str "UCGT-ACG", str "ACATTA-G") ]} : gmap coord alignment)
      = {[ (len (str "GCATGCU"), len (str "GATTACA")) := al ]} /\
    length (fst al) = length (snd al) /\
    strip (printed (fst al)) = str "GCATGCU" /\
    strip (printed (snd al)) = str "GATTACA" /\
    (length (str "GCATGCU") <= length (fst al))%nat /\
    (length (str "GATTACA") <= length (fst al))%nat /\
    (length (fst al) <= length (str "GCATGCU") + length (str "GATTACA"))%nat.
Proof.
  apply (global_rows_spell
           (mkAligner (str "GCATGCU") (str "GATTACA") 1 (-1) (-1) false
              (zero_frame (str "GCATGCU" ++ str "GATTACA" ++ [dash])))
           [[0; -1; -2; -3; -4; -5; -6; -7]; [-1; 1; 0; -1; -2; -3; -4; -5];
            [-2; 0; 0; -1; -2; -3; -2; -3]; [-3; -1; 1; 0; -1; -1; -2; -1];
            [-4; -2; 0; 2; 1; 0; -1; -2]; [-5; -3; -1; 1; 1; 0; -1; -2];
            [-6; -4; -2; 0; 0; 0; 1; 0]; [-7; -5; -3; -1; -1; -1; 0; 0]] 20).
  - split; [reflexivity|]. repeat constructor.
  - vm_compute. intros H. repeat (apply elem_of_cons in H as [H|H]; [discriminate|]).
    inversion H.
  - vm_compute. intros H. repeat (apply elem_of_cons in H as [H|H]; [discriminate|]).
    inversion H.
  - vm_compute. reflexivity.
Defined.

Lemma select_fold_entry (fuel : nat) (self : Aligner) (m : ndarray)
    (indices : list coord) (acc r : gmap coord alignment) (q : coord) al :
  foldM (fun (alignment_ : gmap coord alignment) start =>
    value <- Np.get m start ;;
    r <- local_walk fuel self m start value ([], []) [] ;;
    Ret (<[start := fst r]> alignment_)) acc indices = Ret r ->
  r !! q = Some al ->
  (q ∈ indices /\ exists v path,
     local_walk fuel self m q v ([], []) [] = Ret (al, path)) \/
  acc !! q = Some al.
Proof.
  revert acc. induction indices as [|c0 l IH]; intros acc; simpl.
  - intros H Hq. injection H as <-. right. exact Hq.
  - intros H Hq. apply bind_Ret in H as (acc1 & Hstep & H).
    apply bind_Ret in Hstep as (v & _ & Hstep).
    apply bind_Ret in Hstep as ([al0 path] & Hw & Hstep). injection Hstep as <-.
    destruct (IH _ H Hq) as [[Hin Hex]|Hacc].
    + left. split; [apply list_elem_of_further, Hin|exact Hex].
    + destruct (decide (c0 = q)) as [->|Hne].
      * rewrite lookup_insert_eq in Hacc. injection Hacc as <-.
        left. split; [apply list_elem_of_here|]. simpl. eauto.
      * rewrite lookup_insert_ne in Hacc by exact Hne. right. exact Hacc.
Qed.

(** X7. Whatever the table and the scores, every alignment in the result of
    the local traceback, for sequences without the gap symbol, has two rows
    of the same length which, written as [print_alignment] writes them and
    with the gaps taken out, are a contiguous piece of [seq1] and one of
    [seq2], each ending at the coordinate of the start cell; the alignment
    has at most as many columns as the sum of the two coordinates. *)
Theorem local_rows_spell self m fuel r (q : coord) al :
  dash ∉ seq1 self -> dash ∉ seq2 self ->
  select_local_alignment fuel self m = Ret r ->
  r !! q = Some al ->
  length (fst al) = length (snd al) /\
  (length (fst al) <= Z.to_nat (fst q) + Z.to_nat (snd q))%nat /\
  exists e1 e2 : nat,
    (e1 <= Z.to_nat (fst q))%nat /\ (e2 <= Z.to_nat (snd q))%nat /\
    strip (printed (fst al)) = drop e1 (take (Z.to_nat (fst q)) (seq1 self)) /\
    strip (printed (snd al)) = drop e2 (take (Z.to_nat (snd q)) (seq2 self)).
Proof.
  intros Hd1 Hd2 H Hq. unfold select_local_alignment in H.
  apply bind_Ret in H as (mx & _ & H).
  destruct (select_fold_entry _ _ _ _ _ _ _ _ H Hq) as [[Hin (v & path & Hw)]|Hacc];
    [|rewrite lookup_empty in Hacc; discriminate].
  apply where_eq_lookup in Hin as (Hn1 & Hn2 & _).
  destruct (local_walk_chain _ _ _ _ _ _ _ _ _ Hw) as (cs & c_end & Hal & Hch).
  simpl in Hal. subst al. simpl.
  destruct (chain_spell self m cs Hd1 Hd2 _ _ Hn1 Hn2 Hch) as (Hc1 & Hc2 & Hs1 & Hs2 & Hf).
  unfold printed. rewrite !length_map. split; [reflexivity|]. split.
  - pose proof (columns_bound cs Hf) as L.
    rewrite <- (strip_length_rev (map fst cs)), <- (strip_length_rev (map snd cs)) in L.
    rewrite Hs1, Hs2, !length_drop, !length_take in L. lia.
  - exists (Z.to_nat (fst c_end)), (Z.to_nat (snd c_end)).
    split; [lia|]. split; [lia|]. auto.
Qed.

Lemma local_rows_spell_witness :
  length (str "CA-TTG") = length (str "CAGTTG") /\
  (length (str "CA-TTG") <= Z.to_nat 6 + Z.to_nat 7)%nat /\
  exists e1 e2 : nat,
    (e1 <= Z.to_nat 6)%nat /\ (e2 <= Z.to_nat 7)%nat /\
    strip (printed (str "CA-TTG")) = drop e1 (take (Z.to_nat 6) (str "TGTTACGG")) /\
    strip (printed (str "CAGTTG")) = drop e2 (take (Z.to_nat 7) (str "GGTTGACTA")).
Proof.
  apply (local_rows_spell aligner_textbook textbook_matrix 50
           {[ (6, 7) := (str "CA-TTG", str "CAGTTG") ]} (6, 7)
           (str "CA-TTG", str "CAGTTG")).
  - vm_compute. intros H. repeat (apply elem_of_cons in H as [H|H]; [discriminate|]).
    inversion H.
  - vm_compute. intros H. repeat (apply elem_of_cons in H as [H|H]; [discriminate|]).
    inversion H.
  - vm_compute. reflexivity.
  - vm_compute. reflexivity.
Defined.

(** ** The global run *)

Lemma build_global self :
  local self = false -> covers self ->
  exists m, build self = Ret m /\ global_matrix self m.
Proof.
  intros Hl Hc.
  destruct (init_matrix_spec self Hl (covers_gap_row_of_covers self Hc))
    as (m0 & Hi & Hs0 & Hrow & Hcol).
  destruct (align_spec self m0 Hc Hs0) as (m & Hal & Hs & Hb & Hf & _); [congruence|].
  exists m. split; [unfold build; rewrite Hi; exact Hal|].
  split; [exact Hs|]. split; [|split].
  - intros k Hk. destruct (sym2_lookup self k Hk) as [Hy _].
    rewrite !Hb by (unfold in_range, rows, cols, len in *; simpl; lia).
    rewrite !Hrow by lia. apply border_value_step; assumption.
  - intros k Hk. destruct (sym1_lookup self k Hk) as [Hy _].
    rewrite !Hb by (unfold in_range, rows, cols, len in *; simpl; lia).
    rewrite !Hcol by lia. apply border_value_step; assumption.
  - intros i j Hi' Hj'. rewrite Hf by lia. unfold check_non_negativity.
    rewrite Hl. reflexivity.
Qed.

Lemma gap_constant_uniform self g0 : gap_constant self g0 -> gap_uniform self.
Proof.
  intros Hg a b Ha Hb.
  destruct (Hg a) as [-> _]; [apply elem_of_app; left; exact Ha|].
  destruct (Hg b) as [_ ->]; [apply elem_of_app; right; exact Hb|]. reflexivity.
Qed.

Section GlobalRun.

Variable self : Aligner.
Variable g0 : Z.
Variable m : ndarray.
Hypothesis Hcovers : covers self.
Hypothesis Hconst : gap_constant self g0.
Hypothesis Hmatrix : global_matrix self m.

Lemma sym1_gap i : 1 <= i <= len (seq1 self) ->
  wz self (sym1 self i) dash = g0 /\ wz self dash (sym1 self i) = g0.
Proof.
  intros Hi. destruct (sym1_lookup self i Hi) as [H _]. apply Hconst, elem_of_app.
  left. eapply list_elem_of_lookup_2. exact H.
Qed.

Lemma sym2_gap j : 1 <= j <= len (seq2 self) ->
  wz self (sym2 self j) dash = g0 /\ wz self dash (sym2 self j) = g0.
Proof.
  intros Hj. destruct (sym2_lookup self j Hj) as [H _]. apply Hconst, elem_of_app.
  right. eapply list_elem_of_lookup_2. exact H.
Qed.

(** Away from the origin some neighbour passes its test. *)
Lemma global_progress c :
  seq1 self <> [] -> seq2 self <> [] ->
  in_range (rows self) (cols self) c -> 1 <= fst c \/ 1 <= snd c ->
  exists index col,
    try_neighbours self m c (cellv m c) (kept_neighbours c)
      = Ret (Some (index, col)) /\
    index ∈ kept_neighbours c.
Proof.
  intros Hn1 Hn2 Hq Hpos. destruct Hmatrix as (Hs & Hrow & Hcol & Hint).
  destruct c as [i j]. destruct Hq as [Hi Hj]. simpl in Hi, Hj, Hpos.
  unfold rows, cols in Hi, Hj.
  destruct (decide (i = 0)) as [->|Hi0]; [|destruct (decide (j = 0)) as [->|Hj0]].
  - (* row 0 *)
    assert (Hj1 : 1 <= j <= len (seq2 self)) by lia.
    destruct (getitem_wrap (seq1 self) (0 - 1) Hn1) as (s1 & H1 & H1s);
      [unfold len; lia|].
    destruct (sym2_lookup self j Hj1) as [H2 H2s].
    assert (Hg2 : getitem (seq2 self) (snd (0, j) - 1) = Ret (sym2 self j)).
    { apply getitem_ok; [simpl; lia|exact H2]. }
    rewrite kept_row0 by lia.
    rewrite (try_neighbours_cons self m (0, j) _ (0, j - 1) [] s1 (sym2 self j) Hs Hcovers
               H1 (seq1_symbol _ _ H1s) Hg2 H2s)
      by (unfold in_range, rows, cols; simpl; lia).
    simpl fst. simpl snd. change (0 + 1 =? 0) with false. change (0 - 0 =? 0) with true.
    simpl. rewrite (Hrow j Hj1).
    rewrite (proj2 (Z.eqb_eq _ _)) by lia.
    do 2 eexists. split; [reflexivity|apply list_elem_of_here].
  - (* column 0 *)
    assert (Hi1 : 1 <= i <= len (seq1 self)) by lia.
    destruct (getitem_wrap (seq2 self) (0 - 1) Hn2) as (s2 & H2 & H2s);
      [unfold len; lia|].
    destruct (sym1_lookup self i Hi1) as [H1 H1s].
    destruct (sym1_gap i Hi1) as [Hg1 Hg2].
    assert (Hg : getitem (seq1 self) (fst (i, 0) - 1) = Ret (sym1 self i)).
    { apply getitem_ok; [simpl; lia|exact H1]. }
    rewrite kept_col0 by lia.
    rewrite (try_neighbours_cons self m (i, 0) _ (i - 1, 0) [] (sym1 self i) s2 Hs Hcovers
               Hg H1s H2 (seq2_symbol _ _ H2s))
      by (unfold in_range, rows, cols; simpl; lia).
    simpl fst. simpl snd. change (0 + 1 =? 0) with false. rewrite andb_false_r.
    replace (i - (i - 1) =? 0) with false by (symmetry; apply Z.eqb_neq; lia).
    simpl. rewrite (Hcol i Hi1), Hg1, Hg2.
    rewrite (proj2 (Z.eqb_eq _ _)) by lia.
    do 2 eexists. split; [reflexivity|apply list_elem_of_here].
  - (* inside *)
    apply (try_progress self m i j Hs Hcovers (gap_constant_uniform _ _ Hconst));
      try lia. apply Hint; lia.
Qed.

Lemma global_walk_returns n :
  forall c al fuel,
    seq1 self <> [] -> seq2 self <> [] ->
    in_range (rows self) (cols self) c ->
    fst c + snd c <= Z.of_nat n -> (n + 1 <= fuel)%nat ->
    exists al', global_walk fuel self m c al = Ret al'.
Proof.
  destruct Hmatrix as (Hs & _).
  induction n as [|n IH]; intros c al fuel Hn1 Hn2 Hq Hsum Hfuel.
  all: destruct fuel as [|fuel]; [lia|]; simpl.
  all: destruct ((1 <=? fst c) || (1 <=? snd c)) eqn:Hpos; [|eexists; reflexivity].
  all: apply orb_true_iff in Hpos; rewrite !Z.leb_le in Hpos.
  - destruct Hq. lia.
  - destruct (global_progress c Hn1 Hn2 Hq Hpos) as (index & [a b] & Htry & Hin).
    unfold traceback_step. rewrite (get_ok _ _ m c Hs Hq). simpl. rewrite Htry. simpl.
    apply IH; try assumption.
    + exact (kept_in_range _ _ _ _ Hq Hin).
    + destruct (kept_elem c index Hin) as (Hk1 & Hk2 & [-> | [-> | ->]]); simpl in *; lia.
    + lia.
Qed.

(** The value drops by the score of the column a move appends. *)
Lemma step_score c index col :
  mismatch self <= match_ self ->
  dash ∉ seq1 self -> dash ∉ seq2 self ->
  try_neighbours self m c (cellv m c) (kept_neighbours c) = Ret (Some (index, col)) ->
  cellv m c - cellv m index = column_score self col.
Proof.
  intros Hmm Hd1 Hd2 Htry. destruct col as [a b].
  apply try_neighbours_emit in Htry; [|auto]. cbv zeta in Htry.
  destruct Hmatrix as (Hs & _ & _ & Hint).
  assert (Hne : forall (s : list ascii) k x, s !! k = Some x -> dash ∉ s ->
                  Ascii.eqb x dash = false).
  { intros s k x Hx Hd. apply Ascii.eqb_neq. intros ->. apply Hd.
    eapply list_elem_of_lookup_2. exact Hx. }
  unfold column_score. simpl fst. simpl snd.
  destruct Htry as [(-> & H1 & H2 & Ha & Hb & Ht)|[(-> & H2 & -> & Hb & Ht)|(-> & H1 & -> & Ha & Ht)]].
  - rewrite (Hne _ _ _ Ha Hd1), (Hne _ _ _ Hb Hd2).
    destruct Ht as [[Ht ->]|Ht]; [rewrite Ascii.eqb_refl; exact Ht|].
    destruct (Ascii.eqb_spec a b) as [->|_]; [|exact Ht].
    (* equal symbols taken through the mismatch test: the two scores agree *)
    assert (Hi : 1 <= fst c <= len (seq1 self)).
    { apply lookup_lt_Some in Ha. unfold len. lia. }
    assert (Hj : 1 <= snd c <= len (seq2 self)).
    { apply lookup_lt_Some in Hb. unfold len. lia. }
    pose proof (Hint _ _ Hi Hj) as Hrec. unfold rec_value in Hrec.
    unfold sym1, sym2 in Hrec. rewrite Ha, Hb in Hrec. simpl in Hrec.
    rewrite Ascii.eqb_refl in Hrec. destruct c as [i j]. simpl in *. lia.
  - rewrite Ascii.eqb_refl. exact Ht.
  - rewrite (Hne _ _ _ Ha Hd1), Ascii.eqb_refl. exact Ht.
Qed.

Lemma chain_score cs :
  mismatch self <= match_ self ->
  dash ∉ seq1 self -> dash ∉ seq2 self ->
  forall c c_end, chain self m c cs c_end ->
    alignment_score self cs = cellv m c - cellv m c_end.
Proof.
  intros Hmm Hd1 Hd2. induction cs as [|col cs IH]; intros c c_end Hch; simpl in *.
  - subst. lia.
  - destruct Hch as (index & Htry & Hch).
    rewrite (IH _ _ Hch), <- (step_score c index col Hmm Hd1 Hd2 Htry). lia.
Qed.

End GlobalRun.

(** X8. In global mode, for scores, table entries and lengths in the range
    where the arithmetic of the code is exact, two non-empty sequences and
    a table that has the pairs of the run and scores a gap alike for every
    symbol (the zero table of a run without table does), the matrix is
    built and the traceback returns once the fuel covers the number of rows
    plus columns: every walk reaches the top left cell. *)
Theorem global_traceback_returns self g0 :
  small_scores self ->
  local self = false -> covers self -> gap_constant self g0 ->
  seq1 self <> [] -> seq2 self <> [] ->
  exists m, build self = Ret m /\
    forall fuel, (Z.to_nat (rows self + cols self) <= fuel)%nat ->
      exists al, select_global_alignment fuel self m
                 = Ret {[ (len (seq1 self), len (seq2 self)) := al ]}.
Proof.
  intros _ Hl Hc Hg Hn1 Hn2. destruct (build_global self Hl Hc) as (m & Hb & Hm).
  exists m. split; [exact Hb|]. intros fuel Hfuel.
  pose proof Hm as (Hs & _).
  unfold select_global_alignment.
  rewrite (shape_of_shaped _ _ m Hs) by (unfold rows, len; lia).
  simpl fst. simpl snd. unfold rows, cols in *.
  replace (len (seq1 self) + 1 - 1) with (len (seq1 self)) by lia.
  replace (len (seq2 self) + 1 - 1) with (len (seq2 self)) by lia.
  destruct (global_walk_returns self g0 m Hc Hg Hm
              (Z.to_nat (len (seq1 self) + len (seq2 self)))
              (len (seq1 self), len (seq2 self)) ([], []) fuel Hn1 Hn2)
    as [al Hal].
  - unfold in_range, rows, cols, len. simpl. lia.
  - simpl. unfold len. lia.
  - unfold len in *. lia.
  - rewrite Hal. simpl. eauto.
Qed.

Lemma gap_constant_zero_frame self :
  weights self = zero_frame (seq1 self ++ seq2 self ++ [dash]) ->
  gap_constant self 0.
Proof.
  intros Hw x _. unfold wz. rewrite Hw. unfold zero_frame.
  destruct (ascii_in x _ && ascii_in dash _); destruct (ascii_in dash _ && ascii_in x _);
    auto.
Qed.

Lemma global_traceback_returns_witness :
  exists m, build aligner_AA = Ret m /\
    forall fuel, (Z.to_nat (rows aligner_AA + cols aligner_AA) <= fuel)%nat ->
      exists al, select_global_alignment fuel aligner_AA m
                 = Ret {[ (len (seq1 aligner_AA), len (seq2 aligner_AA)) := al ]}.
Proof.
  apply (global_traceback_returns aligner_AA 0).
  - exact small_scores_AA.
  - reflexivity.
  - apply covers_zero_frame. reflexivity.
  - apply gap_constant_zero_frame. reflexivity.
  - discriminate.
  - discriminate.
Defined.

(** ** Optimality of the global matrix and traceback *)

Lemma strip_single_ne a : a <> dash -> strip [a] = [a].
Proof.
  intros Ha. unfold strip. simpl.
  destruct (Ascii.eqb_spec a dash); [contradiction|reflexivity].
Qed.

Lemma unsnoc_take (s X : list ascii) a i :
  0 <= i <= len s -> X ++ [a] = take (Z.to_nat i) s ->
  1 <= i /\ X = take (Z.to_nat (i - 1)) s /\ s !! Z.to_nat (i - 1) = Some a.
Proof.
  intros Hi Heq. destruct (decide (i = 0)) as [->|Hne].
  { simpl in Heq. destruct X; discriminate. }
  destruct (lookup_lt_is_Some_2 s (Z.to_nat (i - 1))) as [x Hx].
  { unfold len in Hi. lia. }
  replace (Z.to_nat i) with (S (Z.to_nat (i - 1))) in Heq by lia.
  rewrite (take_S_r _ _ _ Hx) in Heq. apply app_inj_tail in Heq as [-> ->].
  split; [lia|]. split; [reflexivity|exact Hx].
Qed.

Lemma take_nil_inv (s : list ascii) i : 0 <= i <= len s -> [] = take (Z.to_nat i) s -> i = 0.
Proof.
  intros Hi Heq. apply (f_equal length) in Heq. rewrite length_take_le in Heq.
  - simpl in Heq. lia.
  - unfold len in Hi. lia.
Qed.

(** No alignment of two prefixes scores more than their cell tells. *)
Lemma prefix_score_bound self g0 m :
  gap_constant self g0 -> global_matrix self m ->
  forall cs i j,
    0 <= i <= len (seq1 self) -> 0 <= j <= len (seq2 self) ->
    aligns cs (take (Z.to_nat i) (seq1 self)) (take (Z.to_nat j) (seq2 self)) ->
    alignment_score self cs <= cellv m (i, j) - cellv m (0, 0).
Proof.
  intros Hg (Hs & Hrow & Hcol & Hint).
  induction cs as [|[a b] cs IH]; intros i j Hi Hj (H1 & H2 & Hf).
  - simpl in H1, H2. apply take_nil_inv in H1; [|exact Hi].
    apply take_nil_inv in H2; [|exact Hj]. subst. simpl. lia.
  - simpl map in H1, H2. simpl rev in H1, H2. rewrite strip_app in H1, H2.
    inversion Hf as [|? ? Hne Hf']; subst. simpl alignment_score.
    unfold column_score. simpl fst. simpl snd.
    destruct (Ascii.eqb_spec a dash) as [->|Ha]; [|destruct (Ascii.eqb_spec b dash) as [->|Hb]].
    + (* a gap above a symbol of seq2 *)
      assert (Hb : b <> dash) by (intros ->; apply Hne; reflexivity).
      rewrite strip_dash, app_nil_r in H1. rewrite (strip_single_ne b Hb) in H2.
      apply unsnoc_take in H2 as (Hj1 & H2 & Hbj); [|exact Hj].
      pose proof (IH i (j - 1) Hi ltac:(lia) (conj H1 (conj H2 Hf'))) as Hle.
      assert (Hsb : sym2 self j = b) by (unfold sym2; rewrite Hbj; reflexivity).
      destruct (decide (i = 0)) as [->|Hi0].
      * rewrite (Hrow j) by lia. rewrite Hsb. lia.
      * rewrite (Hint i j) by lia. unfold rec_value.
        destruct (sym1_gap self g0 Hg i ltac:(lia)) as [-> _].
        destruct (sym2_gap self g0 Hg j ltac:(lia)) as [_ Hgb]. rewrite Hsb in Hgb.
        rewrite Hgb. lia.
    + (* a symbol of seq1 above a gap *)
      rewrite strip_dash, app_nil_r in H2. rewrite (strip_single_ne a Ha) in H1.
      apply unsnoc_take in H1 as (Hi1 & H1 & Hai); [|exact Hi].
      pose proof (IH (i - 1) j ltac:(lia) Hj (conj H1 (conj H2 Hf'))) as Hle.
      assert (Hsa : sym1 self i = a) by (unfold sym1; rewrite Hai; reflexivity).
      destruct (sym1_gap self g0 Hg i ltac:(lia)) as [Hga1 Hga2]. rewrite Hsa in Hga1, Hga2.
      destruct (decide (j = 0)) as [->|Hj0].
      * rewrite (Hcol i) by lia. rewrite Hsa, Hga1, Hga2. lia.
      * rewrite (Hint i j) by lia. unfold rec_value.
        destruct (sym2_gap self g0 Hg j ltac:(lia)) as [_ ->]. rewrite Hga1. lia.
    + (* two symbols *)
      rewrite (strip_single_ne a Ha) in H1. rewrite (strip_single_ne b Hb) in H2.
      apply unsnoc_take in H1 as (Hi1 & H1 & Hai); [|exact Hi].
      apply unsnoc_take in H2 as (Hj1 & H2 & Hbj); [|exact Hj].
      pose proof (IH (i - 1) (j - 1) ltac:(lia) ltac:(lia) (conj H1 (conj H2 Hf'))) as Hle.
      rewrite (Hint i j) by lia. unfold rec_value.
      unfold sym1, sym2. rewrite Hai, Hbj. simpl. lia.
Qed.

(** X9. In global mode, for scores, table entries and lengths in the range
    where the arithmetic of the code is exact and a table that has the
    pairs of the run and scores a gap alike for every symbol, the bottom
    right cell of the built matrix bounds the score of every alignment of
    the two sequences: no list of columns that spells [seq1] and [seq2]
    scores more than [M[n, m] - M[0, 0]]. *)
Theorem matrix_bounds_every_alignment self g0 :
  small_scores self ->
  local self = false -> covers self -> gap_constant self g0 ->
  exists m, build self = Ret m /\
    forall cs, aligns cs (seq1 self) (seq2 self) ->
      alignment_score self cs
      <= cellv m (len (seq1 self), len (seq2 self)) - cellv m (0, 0).
Proof.
  intros _ Hl Hc Hg. destruct (build_global self Hl Hc) as (m & Hb & Hm).
  exists m. split; [exact Hb|]. intros cs Hal.
  apply (prefix_score_bound self g0 m Hg Hm); try (unfold len; lia).
  rewrite !take_ge by (unfold len; lia). exact Hal.
Qed.

Lemma matrix_bounds_every_alignment_witness :
  exists m, build aligner_AA = Ret m /\
    forall cs, aligns cs (seq1 aligner_AA) (seq2 aligner_AA) ->
      alignment_score aligner_AA cs
      <= cellv m (len (seq1 aligner_AA), len (seq2 aligner_AA)) - cellv m (0, 0).
Proof.
  apply (matrix_bounds_every_alignment aligner_AA 0).
  - exact small_scores_AA.
  - reflexivity.
  - apply covers_zero_frame. reflexivity.
  - apply gap_constant_zero_frame. reflexivity.
Defined.

(** X10. In global mode, for scores, table entries and lengths in the
    range where the arithmetic of the code is exact, two non-empty
    sequences without the gap symbol, [mismatch <= match], and a table that
    has the pairs of the run and scores a gap alike for every symbol, the
    alignment the traceback returns is an alignment of [seq1] with [seq2],
    its score is [M[n, m] - M[0, 0]], and no alignment of the two sequences
    scores more. *)
Theorem global_alignment_optimal self g0 :
  small_scores self ->
  local self = false -> covers self -> gap_constant self g0 ->
  seq1 self <> [] -> seq2 self <> [] ->
  dash ∉ seq1 self -> dash ∉ seq2 self ->
  mismatch self <= match_ self ->
  exists m, build self = Ret m /\
    forall fuel, (Z.to_nat (rows self + cols self) <= fuel)%nat ->
      exists al,
        select_global_alignment fuel self m
          = Ret {[ (len (seq1 self), len (seq2 self)) := al ]} /\
        aligns (columns al) (seq1 self) (seq2 self) /\
        alignment_score self (columns al)
          = cellv m (len (seq1 self), len (seq2 self)) - cellv m (0, 0) /\
        forall cs, aligns cs (seq1 self) (seq2 self) ->
          alignment_score self cs <= alignment_score self (columns al).
Proof.
  intros _ Hl Hc Hg Hn1 Hn2 Hd1 Hd2 Hmm.
  destruct (build_global self Hl Hc) as (m & Hb & Hm).
  exists m. split; [exact Hb|]. intros fuel Hfuel. pose proof Hm as (Hs & _).
  assert (Hsel : forall al,
            global_walk fuel self m (len (seq1 self), len (seq2 self)) ([], []) = Ret al ->
            select_global_alignment fuel self m
            = Ret {[ (len (seq1 self), len (seq2 self)) := al ]}).
  { intros al Hal. unfold select_global_alignment.
    rewrite (shape_of_shaped _ _ m Hs) by (unfold rows, len; lia).
    simpl fst. simpl snd. unfold rows, cols.
    replace (len (seq1 self) + 1 - 1) with (len (seq1 self)) by lia.
    replace (len (seq2 self) + 1 - 1) with (len (seq2 self)) by lia.
    rewrite Hal. reflexivity. }
  destruct (global_walk_returns self g0 m Hc Hg Hm
              (Z.to_nat (len (seq1 self) + len (seq2 self)))
              (len (seq1 self), len (seq2 self)) ([], []) fuel Hn1 Hn2)
    as [al Hal].
  { unfold in_range, rows, cols, len. simpl. lia. }
  { simpl. unfold len. lia. }
  { unfold rows, cols, len in *. lia. }
  exists al. split; [exact (Hsel al Hal)|].
  destruct (global_walk_chain _ _ _ _ _ _ Hal) as (cs & c_end & Heq & Hch & He1 & He2).
  simpl in Heq. subst al. unfold columns. simpl fst. simpl snd. rewrite zip_fst_snd.
  assert (Hn1' : 0 <= fst (len (seq1 self), len (seq2 self))) by (unfold len; simpl; lia).
  assert (Hn2' : 0 <= snd (len (seq1 self), len (seq2 self))) by (unfold len; simpl; lia).
  destruct (chain_spell self m cs Hd1 Hd2 _ _ Hn1' Hn2' Hch)
    as (Hc1 & Hc2 & Hs1 & Hs2 & Hf).
  simpl in Hs1, Hs2.
  assert (Hend : c_end = (0, 0)) by (destruct c_end; simpl in *; f_equal; lia).
  subst c_end. simpl in Hs1, Hs2.
  rewrite drop_0, take_ge in Hs1, Hs2 by (unfold len; lia).
  assert (Hscore : alignment_score self cs
                   = cellv m (len (seq1 self), len (seq2 self)) - cellv m (0, 0)).
  { exact (chain_score self m Hm cs Hmm Hd1 Hd2 _ _ Hch). }
  split; [exact (conj Hs1 (conj Hs2 Hf))|]. split; [exact Hscore|].
  intros cs' Hal'. rewrite Hscore.
  apply (prefix_score_bound self g0 m Hg Hm); try (unfold len; lia).
  rewrite !take_ge by (unfold len; lia). exact Hal'.
Qed.

Lemma dash_free_classic :
  (dash ∉ seq1 aligner_classic) /\ (dash ∉ seq2 aligner_classic).
Proof.
  split; vm_compute; intros H;
    repeat (apply elem_of_cons in H as [H|H]; [discriminate|]); inversion H.
Qed.

Lemma global_alignment_optimal_witness :
  exists m, build aligner_classic = Ret m /\
    forall fuel, (Z.to_nat (rows aligner_classic + cols aligner_classic) <= fuel)%nat ->
      exists al,
        select_global_alignment fuel aligner_classic m
          = Ret {[ (len (seq1 aligner_classic), len (seq2 aligner_classic)) := al ]} /\
        aligns (columns al) (seq1 aligner_classic) (seq2 aligner_classic) /\
        alignment_score aligner_classic (columns al)
          = cellv m (len (seq1 aligner_classic), len (seq2 aligner_classic))
            - cellv m (0, 0) /\
        forall cs, aligns cs (seq1 aligner_classic) (seq2 aligner_classic) ->
          alignment_score aligner_classic cs
          <= alignment_score aligner_classic (columns al).
Proof.
  apply (global_alignment_optimal aligner_classic 0).
  - exact small_scores_classic.
  - reflexivity.
  - apply covers_zero_frame. reflexivity.
  - apply gap_constant_zero_frame. reflexivity.
  - discriminate.
  - discriminate.
  - apply dash_free_classic.
  - apply dash_free_classic.
  - vm_compute. discriminate.
Defined.

(** ** A run without table *)




(** ** Exchanging the two sequences *)

Lemma build_facts self :
  covers self -> exists m, build self = Ret m /\ built_matrix self m.
Proof.
  intros Hc. destruct (local self) eqn:Hl.
  - destruct (build_local self Hl Hc) as (m & Hb & Hinv).
    exists m. split; [exact Hb|]. pose proof Hinv as (Hs & _ & Hf & _).
    unfold built_matrix. rewrite Hl. split; [exact Hs|].
    split; [|split; [|split]].
    + apply (local_border_zero self m Hinv); [|left; reflexivity].
      unfold in_range, rows, cols, len. simpl. lia.
    + intros k Hk. apply (local_border_zero self m Hinv); [|left; reflexivity].
      unfold in_range, rows, cols, len in *. simpl. lia.
    + intros k Hk. apply (local_border_zero self m Hinv); [|right; reflexivity].
      unfold in_range, rows, cols, len in *. simpl. lia.
    + intros i j Hi Hj. apply Hf; lia.
  - destruct (init_matrix_spec self Hl (covers_gap_row_of_covers self Hc))
      as (m0 & Hi & Hs0 & Hrow & Hcol).
    destruct (align_spec self m0 Hc Hs0) as (m & Hal & Hs & Hb & Hf & _); [congruence|].
    exists m. split; [unfold build; rewrite Hi; exact Hal|].
    unfold built_matrix. rewrite Hl. split; [exact Hs|].
    split; [|split; [|split]].
    + rewrite Hb by (unfold in_range, rows, cols, len; simpl; lia).
      rewrite Hrow by (unfold len; lia). apply border_value_zero.
    + intros k Hk. destruct (sym2_lookup self k Hk) as [Hy _].
      rewrite !Hb by (unfold in_range, rows, cols, len in *; simpl; lia).
      rewrite !Hrow by lia. apply border_value_step; assumption.
    + intros k Hk. destruct (sym1_lookup self k Hk) as [Hy _].
      rewrite !Hb by (unfold in_range, rows, cols, len in *; simpl; lia).
      rewrite !Hcol by lia. apply border_value_step; assumption.
    + intros i j Hi' Hj'. apply Hf; lia.
Qed.

Lemma covers_exchanged self self' : exchanged self self' -> covers self -> covers self'.
Proof.
  intros (H1 & H2 & _ & _ & _ & _ & Hw) Hc a b Ha Hb. rewrite Hw. apply Hc.
  - unfold symbols in *. rewrite H1, H2 in Ha.
    rewrite elem_of_cons, elem_of_app in *. tauto.
  - unfold symbols in *. rewrite H1, H2 in Hb.
    rewrite elem_of_cons, elem_of_app in *. tauto.
Qed.

Lemma transposed_cells self self' m m' :
  exchanged self self' ->
  (forall a b, weights self a b = weights self b a) ->
  built_matrix self m -> built_matrix self' m' ->
  forall n i j, 0 <= i <= len (seq1 self) -> 0 <= j <= len (seq2 self) ->
    i + j <= Z.of_nat n -> cellv m' (j, i) = cellv m (i, j).
Proof.
  intros (E1 & E2 & Em & Eg & Emm & El & Ew) Hsym
    (Hs & H0 & Hrow & Hcol & Hint) (Hs' & H0' & Hrow' & Hcol' & Hint').
  assert (Hwz : forall a b, wz self a b = wz self b a).
  { intros a b. unfold wz. rewrite Hsym. reflexivity. }
  assert (Hwz' : forall a b, wz self' a b = wz self a b).
  { intros a b. unfold wz. rewrite Ew. reflexivity. }
  assert (Hy1 : forall k, sym1 self' k = sym2 self k).
  { intros k. unfold sym1, sym2. rewrite E1. reflexivity. }
  assert (Hy2 : forall k, sym2 self' k = sym1 self k).
  { intros k. unfold sym1, sym2. rewrite E2. reflexivity. }
  rewrite E1 in Hcol', Hint'. rewrite E2 in Hrow', Hint'. rewrite El, ?Hwz' in H0'.
  induction n as [|n IH]; intros i j Hi Hj Hsum.
  - assert (i = 0) by lia. assert (j = 0) by lia. subst. rewrite H0, H0'. reflexivity.
  - destruct (decide (i = 0)) as [->|Hi0]; [destruct (decide (j = 0)) as [->|Hj0]|
      destruct (decide (j = 0)) as [->|Hj0]].
    + rewrite H0, H0'. reflexivity.
    + rewrite (Hrow j) by lia. rewrite (Hcol' j) by lia. rewrite El, Eg, Hwz', Hy1.
      destruct (local self); [reflexivity|].
      rewrite (IH 0 (j - 1)) by lia. reflexivity.
    + rewrite (Hcol i) by lia. rewrite (Hrow' i) by lia. rewrite El, Eg, Hwz', Hy2.
      destruct (local self); [reflexivity|].
      rewrite (IH (i - 1) 0) by lia. reflexivity.
    + rewrite (Hint i j) by lia. rewrite (Hint' j i) by lia.
      unfold check_non_negativity, rec_value. cbv zeta.
      rewrite El, Eg, Em, Emm, !Hwz', Hy1, Hy2.
      rewrite (IH (i - 1) (j - 1)), (IH i (j - 1)), (IH (i - 1) j) by lia.
      rewrite (Hwz (sym2 self j) (sym1 self i)), (Hwz (sym2 self j) dash),
        (Hwz dash (sym1 self i)).
      replace (Ascii.eqb (sym2 self j) (sym1 self i))
        with (Ascii.eqb (sym1 self i) (sym2 self j)) by apply Ascii.eqb_sym.
      destruct (local self); lia.
Qed.

(** X12. For a symmetric table that has the pairs of the run (the zero
    table of a run without table is one), exchanging [seq1] and [seq2]
    transposes the built matrix, in both modes: cell [(j, i)] of the
    exchanged run holds what cell [(i, j)] of the run holds. *)
Theorem exchange_transposes_matrix self self' :
  covers self -> (forall a b, weights self a b = weights self b a) ->
  exchanged self self' ->
  exists m m', build self = Ret m /\ build self' = Ret m' /\
    forall i j, 0 <= i <= len (seq1 self) -> 0 <= j <= len (seq2 self) ->
      cellv m' (j, i) = cellv m (i, j).
Proof.
  intros Hc Hsym Hex.
  destruct (build_facts self Hc) as (m & Hb & Hm).
  destruct (build_facts self' (covers_exchanged self self' Hex Hc)) as (m' & Hb' & Hm').
  exists m, m'. split; [exact Hb|]. split; [exact Hb'|]. intros i j Hi Hj.
  apply (transposed_cells self self' m m' Hex Hsym Hm Hm' (Z.to_nat (i + j))); lia.
Qed.

Lemma zero_frame_same_symbols l l' a b :
  (forall c, c ∈ l <-> c ∈ l') -> zero_frame l a b = zero_frame l' a b.
Proof.
  intros H. unfold zero_frame.
  assert (Hin : forall c, ascii_in c l = ascii_in c l').
  { intros c. apply eq_true_iff_eq. rewrite !ascii_in_elem. apply H. }
  rewrite !Hin. reflexivity.
Qed.

Lemma exchange_transposes_matrix_witness :
  exists m m', build aligner_classic = Ret m /\
    build aligner_classic_swapped = Ret m' /\
    forall i j, 0 <= i <= len (seq1 aligner_classic) ->
      0 <= j <= len (seq2 aligner_classic) ->
      cellv m' (j, i) = cellv m (i, j).
Proof.
  apply (exchange_transposes_matrix aligner_classic aligner_classic_swapped).
  - apply covers_zero_frame. reflexivity.
  - intros a b. unfold aligner_classic, zero_frame. simpl weights.
    rewrite andb_comm. reflexivity.
  - repeat split. intros a b.
    exact (zero_frame_same_symbols
             (str "GATTACA" ++ str "GCATGCU" ++ [dash])
             (str "GCATGCU" ++ str "GATTACA" ++ [dash]) a b
             ltac:(intros c; rewrite !elem_of_app; tauto)).
Defined.

(** ** Local alignments and the local matrix *)

Lemma unsnoc_drop_take (s X : list ascii) a (e : nat) i :
  0 <= i <= len s -> X ++ [a] = drop e (take (Z.to_nat i) s) ->
  1 <= i /\ (e <= Z.to_nat (i - 1))%nat /\
  X = drop e (take (Z.to_nat (i - 1)) s) /\ s !! Z.to_nat (i - 1) = Some a.
Proof.
  intros Hi Heq.
  assert (Hlen : (e < Z.to_nat i)%nat).
  { apply (f_equal length) in Heq. rewrite length_app, length_drop, length_take in Heq.
    simpl in Heq. lia. }
  destruct (lookup_lt_is_Some_2 s (Z.to_nat (i - 1))) as [x Hx].
  { unfold len in Hi. lia. }
  replace (Z.to_nat i) with (S (Z.to_nat (i - 1))) in Heq by lia.
  rewrite (take_S_r _ _ _ Hx) in Heq.
  rewrite drop_app_le in Heq by (rewrite length_take_le; [lia|apply lookup_lt_Some in Hx; lia]).
  apply app_inj_tail in Heq as [-> ->].
  split; [lia|]. split; [lia|]. split; [reflexivity|exact Hx].
Qed.

(** No alignment of two pieces ending at a cell scores more than the cell
    holds. *)
Lemma piece_score_bound self g0 m :
  local self = true -> gap_constant self g0 -> gap self + g0 <= 0 ->
  built_matrix self m -> Forall (Forall (fun v => 0 <= v)) m ->
  forall cs i j (e1 e2 : nat),
    0 <= i <= len (seq1 self) -> 0 <= j <= len (seq2 self) ->
    aligns cs (drop e1 (take (Z.to_nat i) (seq1 self)))
              (drop e2 (take (Z.to_nat j) (seq2 self))) ->
    alignment_score self cs <= cellv m (i, j).
Proof.
  intros Hl Hg Hgap (Hs & H0 & Hrow & Hcol & Hint) Hnn.
  rewrite Hl in *.
  assert (Hpos : forall q, in_range (rows self) (cols self) q -> 0 <= cellv m q).
  { intros q Hq. destruct (shaped_lookup _ _ m q Hs Hq) as (row & v & Hrow' & _ & Hv & <-).
    rewrite Forall_lookup in Hnn. pose proof (Hnn _ _ Hrow') as Hr.
    rewrite Forall_lookup in Hr. exact (Hr _ _ Hv). }
  assert (Hz2 : forall k, 0 <= k <= len (seq2 self) -> cellv m (0, k) = 0).
  { intros k Hk. destruct (decide (k = 0)) as [->|Hne]; [exact H0|apply Hrow; lia]. }
  assert (Hz1 : forall k, 0 <= k <= len (seq1 self) -> cellv m (k, 0) = 0).
  { intros k Hk. destruct (decide (k = 0)) as [->|Hne]; [exact H0|apply Hcol; lia]. }
  induction cs as [|[a b] cs IH]; intros i j e1 e2 Hi Hj (H1 & H2 & Hf).
  - simpl. apply Hpos. unfold in_range, rows, cols. simpl. lia.
  - simpl map in H1, H2. simpl rev in H1, H2. rewrite strip_app in H1, H2.
    inversion Hf as [|? ? Hne Hf']; subst. simpl alignment_score.
    unfold column_score. simpl fst. simpl snd.
    destruct (Ascii.eqb_spec a dash) as [->|Ha]; [|destruct (Ascii.eqb_spec b dash) as [->|Hb]].
    + assert (Hb : b <> dash) by (intros ->; apply Hne; reflexivity).
      rewrite strip_dash, app_nil_r in H1. rewrite (strip_single_ne b Hb) in H2.
      apply unsnoc_drop_take in H2 as (Hj1 & He & H2 & Hbj); [|exact Hj].
      pose proof (IH i (j - 1) e1 e2 Hi ltac:(lia) (conj H1 (conj H2 Hf'))) as Hle.
      assert (Hsb : sym2 self j = b) by (unfold sym2; rewrite Hbj; reflexivity).
      destruct (sym2_gap self g0 Hg j ltac:(lia)) as [_ Hgb]. rewrite Hsb in Hgb.
      rewrite Hgb.
      destruct (decide (i = 0)) as [->|Hi0].
      * rewrite (Hz2 j) by lia. rewrite (Hz2 (j - 1)) in Hle by lia. lia.
      * rewrite (Hint i j) by lia. unfold check_non_negativity, rec_value. rewrite Hl.
        destruct (sym1_gap self g0 Hg i ltac:(lia)) as [-> _]. lia.
    + rewrite strip_dash, app_nil_r in H2. rewrite (strip_single_ne a Ha) in H1.
      apply unsnoc_drop_take in H1 as (Hi1 & He & H1 & Hai); [|exact Hi].
      pose proof (IH (i - 1) j e1 e2 ltac:(lia) Hj (conj H1 (conj H2 Hf'))) as Hle.
      assert (Hsa : sym1 self i = a) by (unfold sym1; rewrite Hai; reflexivity).
      destruct (sym1_gap self g0 Hg i ltac:(lia)) as [Hga1 Hga2]. rewrite Hsa in Hga1, Hga2.
      rewrite Hga1.
      destruct (decide (j = 0)) as [->|Hj0].
      * rewrite (Hz1 i) by lia. rewrite (Hz1 (i - 1)) in Hle by lia. lia.
      * rewrite (Hint i j) by lia. unfold check_non_negativity, rec_value. rewrite Hl.
        destruct (sym2_gap self g0 Hg j ltac:(lia)) as [_ ->]. lia.
    + rewrite (strip_single_ne a Ha) in H1. rewrite (strip_single_ne b Hb) in H2.
      apply unsnoc_drop_take in H1 as (Hi1 & He1 & H1 & Hai); [|exact Hi].
      apply unsnoc_drop_take in H2 as (Hj1 & He2 & H2 & Hbj); [|exact Hj].
      pose proof (IH (i - 1) (j - 1) e1 e2 ltac:(lia) ltac:(lia) (conj H1 (conj H2 Hf')))
        as Hle.
      rewrite (Hint i j) by lia. unfold check_non_negativity, rec_value. rewrite Hl.
      unfold sym1, sym2. rewrite Hai, Hbj. simpl. lia.
Qed.

(** X13. In local mode, for scores, table entries and lengths in the range
    where the arithmetic of the code is exact and a table that has the
    pairs of the run and scores a gap alike for every symbol, with a gap
    score that is not positive, no alignment of a contiguous piece of
    [seq1] with a contiguous piece of [seq2] scores more than the cell at
    which the two pieces end, hence none scores more than [matrix.max()]. *)
Theorem local_matrix_bounds_pieces self g0 :
  small_scores self ->
  local self = true -> covers self -> gap_constant self g0 -> gap self + g0 <= 0 ->
  exists m mx, build self = Ret m /\ Np.amax m = Ret mx /\
    forall cs i j (e1 e2 : nat),
      0 <= i <= len (seq1 self) -> 0 <= j <= len (seq2 self) ->
      aligns cs (drop e1 (take (Z.to_nat i) (seq1 self)))
                (drop e2 (take (Z.to_nat j) (seq2 self))) ->
      alignment_score self cs <= cellv m (i, j) /\ cellv m (i, j) <= mx.
Proof.
  intros _ Hl Hc Hg Hgap. destruct (build_facts self Hc) as (m & Hb & Hm).
  destruct (build_local_ret self m Hl Hb) as [Hs Hnn].
  destruct (amax_spec (rows self) (cols self) m) as (mx & Hmx & _ & Hle);
    [unfold rows, len; lia|unfold cols, len; lia|exact Hs|].
  exists m, mx. split; [exact Hb|]. split; [exact Hmx|].
  intros cs i j e1 e2 Hi Hj Hal. split.
  - exact (piece_score_bound self g0 m Hl Hg Hgap Hm Hnn cs i j e1 e2 Hi Hj Hal).
  - apply Hle. unfold in_range, rows, cols. simpl. lia.
Qed.

Lemma local_matrix_bounds_pieces_witness :
  exists m mx, build aligner_textbook = Ret m /\ Np.amax m = Ret mx /\
    forall cs i j (e1 e2 : nat),
      0 <= i <= len (seq1 aligner_textbook) -> 0 <= j <= len (seq2 aligner_textbook) ->
      aligns cs (drop e1 (take (Z.to_nat i) (seq1 aligner_textbook)))
                (drop e2 (take (Z.to_nat j) (seq2 aligner_textbook))) ->
      alignment_score aligner_textbook cs <= cellv m (i, j) /\ cellv m (i, j) <= mx.
Proof.
  apply (local_matrix_bounds_pieces aligner_textbook 0).
  - exact small_scores_textbook.
  - reflexivity.
  - apply covers_zero_frame. reflexivity.
  - apply gap_constant_zero_frame. reflexivity.
  - vm_compute. discriminate.
Defined.

(** ** The border in closed form *)

(** X14. In global mode, for scores, table entries and lengths in the
    range where the arithmetic of the code is exact and a table that has
    the pairs of the run and scores a gap alike, [g0], for every symbol,
    cell [k] of row 0 and of column 0 of the built matrix is
    [sub(-, -) + k * (gap + g0)]; without a table that is [k * gap]. *)
Theorem global_border_closed_form self g0 :
  small_scores self ->
  local self = false -> covers self -> gap_constant self g0 ->
  exists m, build self = Ret m /\
    (forall k, 0 <= k <= len (seq2 self) ->
       cellv m (0, k) = wz self dash dash + k * (gap self + g0)) /\
    (forall k, 0 <= k <= len (seq1 self) ->
       cellv m (k, 0) = wz self dash dash + k * (gap self + g0)).
Proof.
  intros _ Hl Hc Hg. destruct (build_facts self Hc) as (m & Hb & Hs & H0 & Hrow & Hcol & _).
  rewrite Hl in *. exists m. split; [exact Hb|]. split.
  - intros k Hk. remember (Z.to_nat k) as n eqn:Hn. revert k Hk Hn.
    induction n as [|n IH]; intros k Hk Hn.
    + assert (k = 0) by lia. subst k. rewrite H0. lia.
    + rewrite (Hrow k) by lia. rewrite (IH (k - 1)) by lia.
      destruct (sym2_gap self g0 Hg k ltac:(lia)) as [_ ->]. lia.
  - intros k Hk. remember (Z.to_nat k) as n eqn:Hn. revert k Hk Hn.
    induction n as [|n IH]; intros k Hk Hn.
    + assert (k = 0) by lia. subst k. rewrite H0. lia.
    + rewrite (Hcol k) by lia. rewrite (IH (k - 1)) by lia.
      destruct (sym1_gap self g0 Hg k ltac:(lia)) as [_ ->]. lia.
Qed.

Lemma global_border_closed_form_witness :
  exists m, build aligner_classic = Ret m /\
    (forall k, 0 <= k <= len (seq2 aligner_classic) ->
       cellv m (0, k) = wz aligner_classic dash dash + k * (gap aligner_classic + 0)) /\
    (forall k, 0 <= k <= len (seq1 aligner_classic) ->
       cellv m (k, 0) = wz aligner_classic dash dash + k * (gap aligner_classic + 0)).
Proof.
  apply (global_border_closed_form aligner_classic 0).
  - exact small_scores_classic.
  - reflexivity.
  - apply covers_zero_frame. reflexivity.
  - apply gap_constant_zero_frame. reflexivity.
Defined.

(** ** The order of the tests *)

(** X15. At an interior cell of a matrix of the right shape, with the pairs
    of the cell in the table, one round of the traceback takes the diagonal
    neighbour when the value drops by the match score and the symbols are
    equal, or when it drops by the mismatch score (whether the symbols
    differ or not); failing that the left neighbour when the value drops by
    the gap score of the symbol of [seq2]; failing that the upper neighbour
    when it drops by the gap score of the symbol of [seq1]; failing that it
    stays where it is. *)
Theorem traceback_priority self m i j :
  shaped (rows self) (cols self) m -> covers self ->
  1 <= i <= len (seq1 self) -> 1 <= j <= len (seq2 self) ->
  try_neighbours self m (i, j) (cellv m (i, j)) (kept_neighbours (i, j)) =
  Ret (if ((cellv m (i, j) - cellv m (i - 1, j - 1)
            =? match_ self + wz self (sym1 self i) (sym2 self j))
           && Ascii.eqb (sym1 self i) (sym2 self j))
          || (cellv m (i, j) - cellv m (i - 1, j - 1)
              =? mismatch self + wz self (sym1 self i) (sym2 self j))
       then Some ((i - 1, j - 1), (sym1 self i, sym2 self j))
       else if cellv m (i, j) - cellv m (i, j - 1)
               =? gap self + wz self dash (sym2 self j)
       then Some ((i, j - 1), (dash, sym2 self j))
       else if cellv m (i, j) - cellv m (i - 1, j)
               =? gap self + wz self (sym1 self i) dash
       then Some ((i - 1, j), (sym1 self i, dash))
       else None).
Proof.
  intros Hs Hc Hi Hj.
  destruct (sym1_lookup self i Hi) as [H1 H1s].
  destruct (sym2_lookup self j Hj) as [H2 H2s].
  assert (Hg1 : getitem (seq1 self) (fst (i, j) - 1) = Ret (sym1 self i)).
  { apply getitem_ok; [simpl; lia|exact H1]. }
  assert (Hg2 : getitem (seq2 self) (snd (i, j) - 1) = Ret (sym2 self j)).
  { apply getitem_ok; [simpl; lia|exact H2]. }
  rewrite kept_interior by lia.
  rewrite (try_neighbours_cons self m (i, j) _ (i - 1, j - 1) _ _ _ Hs Hc Hg1 H1s Hg2 H2s)
    by (unfold in_range, rows, cols; simpl; lia).
  rewrite (try_neighbours_cons self m (i, j) _ (i, j - 1) _ _ _ Hs Hc Hg1 H1s Hg2 H2s)
    by (unfold in_range, rows, cols; simpl; lia).
  rewrite (try_neighbours_cons self m (i, j) _ (i - 1, j) _ _ _ Hs Hc Hg1 H1s Hg2 H2s)
    by (unfold in_range, rows, cols; simpl; lia).
  simpl fst. simpl snd.
  replace (i - 1 + 1 =? i) with true by (symmetry; apply Z.eqb_eq; lia).
  replace (j - 1 + 1 =? j) with true by (symmetry; apply Z.eqb_eq; lia).
  replace (i + 1 =? i) with false by (symmetry; apply Z.eqb_neq; lia).
  replace (j + 1 =? j) with false by (symmetry; apply Z.eqb_neq; lia).
  replace (i - i =? 0) with true by (symmetry; apply Z.eqb_eq; lia).
  replace (i - (i - 1) =? 0) with false by (symmetry; apply Z.eqb_neq; lia).
  simpl.
  repeat match goal with
  | |- context [if ?b then _ else _] => destruct b; try reflexivity
  end.
Qed.

Lemma traceback_priority_witness :
  try_neighbours aligner_AA [[0; -1]; [-1; -2]] (1, 1)
    (cellv [[0; -1]; [-1; -2]] (1, 1)) (kept_neighbours (1, 1)) =
  Ret (if ((cellv [[0; -1]; [-1; -2]] (1, 1) - cellv [[0; -1]; [-1; -2]] (1 - 1, 1 - 1)
            =? match_ aligner_AA + wz aligner_AA (sym1 aligner_AA 1) (sym2 aligner_AA 1))
           && Ascii.eqb (sym1 aligner_AA 1) (sym2 aligner_AA 1))
          || (cellv [[0; -1]; [-1; -2]] (1, 1) - cellv [[0; -1]; [-1; -2]] (1 - 1, 1 - 1)
              =? mismatch aligner_AA + wz aligner_AA (sym1 aligner_AA 1) (sym2 aligner_AA 1))
       then Some ((1 - 1, 1 - 1), (sym1 aligner_AA 1, sym2 aligner_AA 1))
       else if cellv [[0; -1]; [-1; -2]] (1, 1) - cellv [[0; -1]; [-1; -2]] (1, 1 - 1)
               =? gap aligner_AA + wz aligner_AA dash (sym2 aligner_AA 1)
       then Some ((1, 1 - 1), (dash, sym2 aligner_AA 1))
       else if cellv [[0; -1]; [-1; -2]] (1, 1) - cellv [[0; -1]; [-1; -2]] (1 - 1, 1)
               =? gap aligner_AA + wz aligner_AA (sym1 aligner_AA 1) dash
       then Some ((1 - 1, 1), (sym1 aligner_AA 1, dash))
       else None).
Proof.
  apply (traceback_priority aligner_AA [[0; -1]; [-1; -2]] 1 1).
  - split; [reflexivity|]. repeat constructor.
  - apply covers_zero_frame. reflexivity.
  - vm_compute. split; discriminate.
  - vm_compute. split; discriminate.
Defined.

(** ** The result of the local traceback *)

(** X16. In local mode, for scores, table entries and lengths in the range
    where the arithmetic of the code is exact and a table that has the
    pairs of the run and scores a gap alike for every symbol (the zero
    table of a run without table does), the matrix is built,
    [matrix.max()] is its greatest value, and with enough fuel
    [select_local_alignment] returns a mapping whose keys are exactly the
    cells holding that maximum; when the maximum is 0, every cell holding 0
    is a key and its alignment is empty. *)
Theorem local_mapping_keys self :
  small_scores self -> local self = true -> covers self -> gap_uniform self ->
  exists m mx, build self = Ret m /\ Np.amax m = Ret mx /\
    (forall q, in_range (rows self) (cols self) q -> cellv m q <= mx) /\
    forall fuel, (Z.to_nat (rows self + cols self) + 2 <= fuel)%nat ->
      exists r, select_local_alignment fuel self m = Ret r /\
        (forall q, is_Some (r !! q) <->
                   in_range (rows self) (cols self) q /\ cellv m q = mx) /\
        (mx = 0 -> forall q, in_range (rows self) (cols self) q ->
                     cellv m q = 0 -> r !! q = Some ([], [])).
Proof.
  intros _ Hl Hc Hu. destruct (build_local self Hl Hc) as (m & Hb & Hinv).
  pose proof Hinv as (Hs & _).
  destruct (amax_spec (rows self) (cols self) m) as (mx & Hmx & _ & Hle);
    [unfold rows, len; lia|unfold cols, len; lia|exact Hs|].
  exists m, mx. split; [exact Hb|]. split; [exact Hmx|]. split; [exact Hle|].
  intros fuel Hfuel. unfold select_local_alignment. rewrite Hmx. simpl.
  destruct (select_fold fuel self m (Np.where_eq m mx) ∅) as (r & Hr & Hlook).
  { intros c Hin. apply (where_eq_elem _ _ m mx c Hs) in Hin as [Hq _].
    destruct (walk_from_start self m Hl Hc Hu Hinv c fuel Hq Hfuel) as (res & Hres & _).
    exists (cellv m c), res. split; [apply (get_ok _ _ m c Hs Hq)|exact Hres]. }
  exists r. split; [exact Hr|]. split.
  - intros q. rewrite (select_fold_ret _ _ _ _ _ _ Hr q).
    rewrite (where_eq_elem _ _ m mx q Hs), lookup_empty. split; [|auto].
    intros [H|[x Hx]]; [exact H|discriminate].
  - intros H0 q Hq Hv. subst mx. rewrite Hlook.
    destruct (decide (q ∈ Np.where_eq m 0)) as [_|Hnin].
    + unfold walk_alignment. rewrite (get_ok _ _ m q Hs Hq), Hv. simpl.
      destruct (walk_from_start self m Hl Hc Hu Hinv q fuel Hq Hfuel)
        as (res & Hres & Hempty).
      rewrite Hv in Hres. rewrite Hres. rewrite (Hempty Hv). reflexivity.
    + exfalso. apply Hnin. apply (where_eq_elem _ _ m 0 q Hs). auto.
Qed.

Lemma local_mapping_keys_witness :
  exists m mx, build aligner_textbook = Ret m /\ Np.amax m = Ret mx /\
    (forall q, in_range (rows aligner_textbook) (cols aligner_textbook) q ->
               cellv m q <= mx) /\
    forall fuel,
      (Z.to_nat (rows aligner_textbook + cols aligner_textbook) + 2 <= fuel)%nat ->
      exists r, select_local_alignment fuel aligner_textbook m = Ret r /\
        (forall q, is_Some (r !! q) <->
                   in_range (rows aligner_textbook) (cols aligner_textbook) q /\
                   cellv m q = mx) /\
        (mx = 0 -> forall q,
           in_range (rows aligner_textbook) (cols aligner_textbook) q ->
           cellv m q = 0 -> r !! q = Some ([], [])).
Proof.
  apply (local_mapping_keys aligner_textbook).
  - exact small_scores_textbook.
  - reflexivity.
  - apply covers_zero_frame. reflexivity.
  - apply gap_uniform_zero_frame. reflexivity.
Defined.

(** ** The values of a run with small scores *)

Lemma cell_bound self m :
  small_scores self -> built_matrix self m ->
  forall n i j, 0 <= i <= len (seq1 self) -> 0 <= j <= len (seq2 self) ->
    i + j <= Z.of_nat n ->
    Z.abs (cellv m (i, j)) <= (i + j + 1) * (2 * score_bound).
Proof.
  intros Hsmall (Hs & H0 & Hrow & Hcol & Hint).
  assert (Hwz : forall a b, Z.abs (wz self a b) <= score_bound)
    by (intros a b; apply wz_small; exact Hsmall).
  destruct Hsmall as (Hm & Hg & Hmm & _ & _).
  unfold score_bound in *.
  induction n as [|n IH]; intros i j Hi Hj Hsum.
  - assert (i = 0) by lia. assert (j = 0) by lia. subst. rewrite H0.
    pose proof (Hwz dash dash) as Hd.
    destruct (local self); lia.
  - destruct (decide (i = 0)) as [->|Hi0]; [destruct (decide (j = 0)) as [->|Hj0]|
      destruct (decide (j = 0)) as [->|Hj0]].
    + rewrite H0. pose proof (Hwz dash dash) as Hd.
      destruct (local self); lia.
    + rewrite (Hrow j) by lia.
      pose proof (IH 0 (j - 1) ltac:(lia) ltac:(lia) ltac:(lia)) as Hp.
      pose proof (Hwz dash (sym2 self j)) as Hd.
      destruct (local self); lia.
    + rewrite (Hcol i) by lia.
      pose proof (IH (i - 1) 0 ltac:(lia) ltac:(lia) ltac:(lia)) as Hp.
      pose proof (Hwz dash (sym1 self i)) as Hd.
      destruct (local self); lia.
    + rewrite (Hint i j) by lia. unfold check_non_negativity, rec_value. cbv zeta.
      pose proof (IH (i - 1) (j - 1) ltac:(lia) ltac:(lia) ltac:(lia)) as Hp1.
      pose proof (IH i (j - 1) ltac:(lia) ltac:(lia) ltac:(lia)) as Hp2.
      pose proof (IH (i - 1) j ltac:(lia) ltac:(lia) ltac:(lia)) as Hp3.
      pose proof (Hwz (sym1 self i) (sym2 self j)) as Hd1.
      pose proof (Hwz (sym1 self i) dash) as Hd2.
      pose proof (Hwz dash (sym2 self j)) as Hd3.
      destruct (Ascii.eqb (sym1 self i) (sym2 self j)); destruct (local self); lia.
Qed.

(** X17. For scores, table entries and lengths within [small_scores] and a
    table that has the pairs of the run, in either mode, the matrix is built
    and every number the run forms stays in the range of the integers that
    float64 holds exactly: cell [(i, j)] is at most [(i + j + 1) * 2^24] in
    magnitude, and a cell plus a score plus a table entry, and the
    difference of two cells, are below 2^53 in magnitude. *)
Theorem built_values_exact self :
  small_scores self -> covers self ->
  exists m, build self = Ret m /\
    (forall i j, 0 <= i <= len (seq1 self) -> 0 <= j <= len (seq2 self) ->
       Z.abs (cellv m (i, j)) <= (i + j + 1) * (2 * score_bound)) /\
    (forall q s w, in_range (rows self) (cols self) q ->
       Z.abs s <= score_bound -> Z.abs w <= score_bound ->
       Z.abs (cellv m q + s + w) < exact_bound) /\
    (forall q q', in_range (rows self) (cols self) q ->
       in_range (rows self) (cols self) q' ->
       Z.abs (cellv m q - cellv m q') < exact_bound).
Proof.
  intros Hsmall Hc. destruct (build_facts self Hc) as (m & Hb & Hm).
  exists m. split; [exact Hb|].
  assert (Hcell : forall i j, 0 <= i <= len (seq1 self) -> 0 <= j <= len (seq2 self) ->
            Z.abs (cellv m (i, j)) <= (i + j + 1) * (2 * score_bound)).
  { intros i j Hi Hj.
    apply (cell_bound self m Hsmall Hm (Z.to_nat (i + j))); lia. }
  destruct Hsmall as (_ & _ & _ & _ & Hlen).
  split; [exact Hcell|]. split.
  - intros [i j] s w [Hi Hj] Hs Hw. simpl in Hi, Hj. unfold rows, cols in Hi, Hj.
    pose proof (Hcell i j ltac:(lia) ltac:(lia)) as Hq.
    unfold score_bound, length_bound, exact_bound in *. lia.
  - intros [i j] [i' j'] [Hi Hj] [Hi' Hj']. simpl in Hi, Hj, Hi', Hj'.
    unfold rows, cols in Hi, Hj, Hi', Hj'.
    pose proof (Hcell i j ltac:(lia) ltac:(lia)) as Hq.
    pose proof (Hcell i' j' ltac:(lia) ltac:(lia)) as Hq'.
    unfold score_bound, length_bound, exact_bound in *. lia.
Qed.

Lemma built_values_exact_witness :
  exists m, build aligner_star = Ret m /\
    (forall i j, 0 <= i <= len (seq1 aligner_star) -> 0 <= j <= len (seq2 aligner_star) ->
       Z.abs (cellv m (i, j)) <= (i + j + 1) * (2 * score_bound)) /\
    (forall q s w, in_range (rows aligner_star) (cols aligner_star) q ->
       Z.abs s <= score_bound -> Z.abs w <= score_bound ->
       Z.abs (cellv m q + s + w) < exact_bound) /\
    (forall q q', in_range (rows aligner_star) (cols aligner_star) q ->
       in_range (rows aligner_star) (cols aligner_star) q' ->
       Z.abs (cellv m q - cellv m q') < exact_bound).
Proof.
  apply (built_values_exact aligner_star).
  - exact small_scores_star.
  - intros a b _ _. eexists. reflexivity.
Defined.
